(** * SSR generation pass (llvm/lib/Transforms/SSR/SSRGeneration.cpp)

    A shallow embedding of the stream-inference pass: the conflict tree and
    its selection query, the gain estimator, the candidate filter of
    [visitLoop], the emission of the run-time checks and of the SSR
    intrinsics, and the pass driver.

    Conventions.
    - Pointers ([const Loop *], [AffAcc *], [Instruction *], [BasicBlock *])
      are handles of type [nat]; two handles are the same object iff they are
      equal.  The methods of the pointee are tables indexed by the handle.
    - [int] and [unsigned] are 32 bits wide.  They are values of [Z]; every
      arithmetic operation of the source is followed by the wrap-around of its
      type ([wrap_int], [wrap_unsigned]).  The source itself relies on the
      wrap-around of [int] (see the saturation in [getEstGain]).
    - [assert], [cast<>] on the wrong class, [llvm_unreachable] and the
      dereference of an [end()] iterator abort: the function returns [None].
    - [DenseMap] and [DenseSet] are [gmap] and [gset]; [DenseMap::insert]
      keeps the old binding when the key is present ([dense_insert]). *)

From Stdlib Require Import ZArith Lia.
From stdpp Require Import base option list gmap sets strings sorting relations.

Set Default Proof Using "Type".
Open Scope Z_scope.

(** ** Handles *)

Abbreviation Loop := nat.
Abbreviation AffAcc := nat.
Abbreviation InstructionId := nat.
Abbreviation BasicBlock := nat.

(** ** Constants of the source *)

Definition NUM_SSR : Z := 3.
Definition SSR_MAX_DIM : Z := 4.
Definition SSR_SCRATCHPAD_BEGIN : Z := 0x100000.
Definition SSR_SCRATCHPAD_END : Z := 0x120000.
Definition EST_LOOP_TC : Z := 25.
Definition EST_MUL_COST : Z := 3.
Definition EST_MEMOP_COST : Z := 2.
Definition SSRFnAttr : string := "SSR".

(** ** Machine integers *)

Definition INT_MAX : Z := 2 ^ 31 - 1.
Definition INT_MIN : Z := - 2 ^ 31.

(** Conversion to [int]: the representative in [INT_MIN .. INT_MAX]. *)
Definition wrap_int (z : Z) : Z := (z + 2 ^ 31) mod 2 ^ 32 - 2 ^ 31.

(** Conversion to [unsigned]: the representative in [0 .. 2^32 - 1]. *)
Definition wrap_unsigned (z : Z) : Z := z mod 2 ^ 32.

Definition in_int_range (z : Z) : Prop := INT_MIN <= z <= INT_MAX.

(** ** Command-line flags *)

Record Flags := {
  InferSSR : bool;
  SSRNoIntersectCheck : bool;
  SSRNoTCDMCheck : bool;
  SSRNoBoundCheck : bool;
  SSRConflictFreeOnly : bool;
  SSRNoInline : bool;
  SSRBarrier : bool;
  SSRVerbose : bool
}.

(** ** Scalar-evolution expressions, as far as the pass looks at them *)

Inductive SCEVTypes :=
  | scConstant | scAddExpr | scMulExpr | scAddRecExpr | scUnknown.

Record SCEV := {
  getSCEVType : SCEVTypes;
  (** [unsigned short getExpressionSize()] *)
  getExpressionSize : Z;
  (** the zero-extended value of the [APInt] of a [SCEVConstant] *)
  getAPInt : Z
}.

Definition isSCEVConstant (s : SCEV) : bool :=
  match getSCEVType s with scConstant => true | _ => false end.

(** [APInt::getLimitedValue(Limit)] *)
Definition getLimitedValue (v limit : Z) : Z := Z.min v limit.

(** ** IR types and values *)

Inductive Ty :=
  | DoubleTy | FloatTy | IntegerTy (bits : positive) | PointerTy | VoidTy.

Global Instance Ty_eq_dec : EqDecision Ty.
Proof. solve_decision. Defined.

(** [CHECK_TYPE]: the hardware streams doubles only. *)
Definition CHECK_TYPE (T : Ty) : bool := bool_decide (T = DoubleTy).

(** Values that the pass builds or receives.  [VOpaque] is a value computed
    elsewhere (an argument, a load, an expanded expression). *)
Inductive Value :=
  | VConstantInt (ty : Ty) (v : Z)
  | VOpaque (id : nat) (ty : Ty)
  | VICmpULE (a b : Value)
  | VAnd (a b : Value)
  | VSub (a b : Value).

Fixpoint getType (v : Value) : Ty :=
  match v with
  | VConstantInt ty _ => ty
  | VOpaque _ ty => ty
  | VICmpULE _ _ => IntegerTy 1
  | VAnd a _ => getType a
  | VSub a _ => getType a
  end.

(** The memory instructions of an access. *)
Inductive Instruction :=
  | LoadInst (id : InstructionId) (ty : Ty)
  | StoreInst (id : InstructionId) (valueOperand : Value).

(** ** The affine-access analysis (consumed, not embedded) *)

Inductive AffAccConflict := NoConflict | MustNotIntersect | Bad.

Record ExpandedAffAcc := {
  Access : AffAcc;
  Addr : Value;
  Steps : list Value;
  Reps : list Value;
  PrefixSumRanges : list Value;
  LowerBound : Value;
  UpperBound : Value
}.

(** Modelled from the spec: [ExpandedAffAcc::getDimension] is declared in
    llvm/Analysis/AffineAccessAnalysis.h, which is not among the sources;
    the spec gives an expanded access [Steps[1..dim]], so the dimension is
    the length of [Steps]. *)
Definition getDimension (E : ExpandedAffAcc) : Z := Z.of_nat (length (Steps E)).

Record LoopInfo := {
  TopLevelLoops : list Loop;
  SubLoops : Loop → list Loop;
  ParentLoop : Loop → option Loop;
  LoopPreheader : Loop → option BasicBlock;
  ExitBlock : Loop → option BasicBlock;
  ExitBlocks : Loop → list BasicBlock
}.

Definition isOutermost (LI : LoopInfo) (L : Loop) : bool :=
  bool_decide (ParentLoop LI L = None).

(** The result of the analysis.  The methods of an [AffAcc] are the tables
    indexed by its handle. *)
Record AffineAccess := {
  isWrite : AffAcc → bool;
  getAccesses : AffAcc → list Instruction;
  loopToDimension : AffAcc → Loop → Z;
  getBaseAddr : AffAcc → Z → SCEV;
  getStep : AffAcc → Z → SCEV;
  getRep : AffAcc → Z → SCEV;
  getLoop : AffAcc → Z → Loop;
  getConflicts : AffAcc → Loop → list (AffAcc * AffAccConflict);
  isWellFormed : AffAcc → Loop → bool;
  getExpandableAccesses : Loop → bool → list AffAcc;
  (** [expandAllAt(accs, L, Point, Cond, ..., intersectChecks, boundChecks)]:
      the expanded accesses and the value written into [Cond] *)
  expandAllAt : list AffAcc → Loop → bool → bool →
                list ExpandedAffAcc * option Value;
  getLI : LoopInfo
}.

(** ** Gain estimation *)

Section GainEstimator.
Context (flags : Flags) (AAA : AffineAccess).

(** [getEstExpandCost]: the loop runs for [i = 1 .. dim - 1]. *)
Definition getEstExpandCost (A : AffAcc) (dim : Z) : Z :=
  let cost := 0 in
  let cost := wrap_int (cost + getExpressionSize (getBaseAddr AAA A dim)) in
  fold_left (fun cost i =>
      let cost := wrap_int (cost + getExpressionSize (getStep AAA A i)) in
      let cost := wrap_int (cost + getExpressionSize (getRep AAA A i)) in
      let cost := wrap_int (cost + EST_MUL_COST) in
      if 1 <? i then wrap_int (cost + 1) else cost)
    (seqZ 1 (dim - 1)) cost.

(** The [switch] over the conflicts of [A] in [getEstGain]. *)
Definition conflictStep (accs vis : gset AffAcc) (L : Loop)
    (gain : Z) (p : AffAcc * AffAccConflict) : option Z :=
  match p.2 with
  | NoConflict => Some gain
  | MustNotIntersect =>
      let B := p.1 in
      if decide (B ∈ vis) then Some gain
      else
        let dimB := loopToDimension AAA B L in
        let gain :=
          if decide (B ∈ accs) then gain
          else wrap_int (gain - getEstExpandCost B dimB) in
        Some (wrap_int (gain - 4))
  | Bad => None
  end.

Fixpoint conflictLoop (accs vis : gset AffAcc) (L : Loop)
    (ps : list (AffAcc * AffAccConflict)) (gain : Z) : option Z :=
  match ps with
  | [] => Some gain
  | p :: ps =>
      gain ← conflictStep accs vis L gain p;
      conflictLoop accs vis L ps gain
  end.

(** The estimated trip count of dimension [d]. *)
Definition estLoopTC (A : AffAcc) (d : Z) : Z :=
  let loopTC := EST_LOOP_TC in
  if isSCEVConstant (getRep AAA A d)
  then getLimitedValue (getAPInt (getRep AAA A d)) INT_MAX
  else loopTC.

(** The loop [for (d = dim; d >= 1; d--)] of [getEstGain]: the running
    product [reps] and the loops that contribute a dimension. *)
Definition repsLoop (A : AffAcc) (dim : Z) (contLoops : gset Loop)
    : Z * gset Loop :=
  fold_left (fun '(reps, contLoops) d =>
      let loopTC := estLoopTC A d in
      let reps := Z.max (wrap_int (reps * loopTC)) reps in
      (reps, {[ getLoop AAA A d ]} ∪ contLoops))
    (reverse (seqZ 1 dim)) (1, contLoops).

(** The body of the loop over [Accs] in [getEstGain]; [memop_cost] is
    [EST_MEMOP_COST]. *)
Definition estGainStep (memop_cost : Z) (accs : gset AffAcc) (L : Loop)
    (st : Z * gset AffAcc * gset Loop) (A : AffAcc)
    : option (Z * gset AffAcc * gset Loop) :=
  let '(gain, vis, contLoops) := st in
  let vis := {[ A ]} ∪ vis in
  let dim := loopToDimension AAA A L in
  let gain := wrap_int (gain - getEstExpandCost A dim) in
  gain ← (if SSRNoIntersectCheck flags then Some gain
          else conflictLoop accs vis L (getConflicts AAA A L) gain);
  let gain := if SSRNoTCDMCheck flags then gain else wrap_int (gain - 4) in
  let '(reps, contLoops) := repsLoop A dim contLoops in
  let gain := wrap_int (gain + wrap_int (memop_cost * reps)) in
  Some (gain, vis, contLoops).

Fixpoint estGainLoop (memop_cost : Z) (accs : gset AffAcc) (L : Loop)
    (Accs : list AffAcc) (st : Z * gset AffAcc * gset Loop)
    : option (Z * gset AffAcc * gset Loop) :=
  match Accs with
  | [] => Some st
  | A :: Accs =>
      st ← estGainStep memop_cost accs L st A;
      estGainLoop memop_cost accs L Accs st
  end.

(** [getEstGain] with the cost of a memory operation as a parameter. *)
Definition getEstGainWith (memop_cost : Z) (Accs : list AffAcc) (L : Loop)
    : option Z :=
  let gain := 0 in
  let accs : gset AffAcc := list_to_set Accs in
  '(gain, _, contLoops) ← estGainLoop memop_cost accs L Accs (gain, ∅, ∅);
  let gain :=
    if SSRNoBoundCheck flags then gain
    else wrap_int (gain - wrap_unsigned (2 * Z.of_nat (size contLoops))) in
  Some gain.

Definition getEstGain (Accs : list AffAcc) (L : Loop) : option Z :=
  getEstGainWith EST_MEMOP_COST Accs L.

End GainEstimator.

(** ** The conflict tree *)

(** [DenseMap::insert]: no effect when the key is already bound. *)
Definition dense_insert `{Countable K} {V} (k : K) (v : V) (m : gmap K V)
    : gmap K V :=
  match m !! k with
  | Some _ => m
  | None => <[k := v]> m
  end.

Record ConflictTree := {
  values : gmap Loop Z;
  children : gmap Loop (list Loop);
  Root : option Loop
}.

Definition emptyTree : ConflictTree :=
  {| values := ∅; children := ∅; Root := None |}.

(** [Parent = None] is the null pointer. *)
Definition insertNode (ct : ConflictTree) (Node : Loop) (value : Z)
    (Parent : option Loop) : option ConflictTree :=
  if bool_decide (values ct !! Node = None ∨ children ct !! Node = None) then
    let vals := dense_insert Node value (values ct) in
    let chd := dense_insert Node [] (children ct) in
    match Parent with
    | None =>
        match Root ct with
        | None => Some {| values := vals; children := chd; Root := Some Node |}
        | Some _ => None
        end
    | Some P =>
        match chd !! P with
        | None => None
        | Some chs =>
            Some {| values := vals;
                    children := <[P := chs ++ [Node]]> chd;
                    Root := Root ct |}
        end
    end
  else None.

(** A loop that may abort, over a list. *)
Fixpoint foldM {A B} (f : B → A → option B) (l : list A) (b : B) : option B :=
  match l with
  | [] => Some b
  | a :: l => b ← f b a; foldM f l b
  end.

(** The private, recursive [findBest(N, combineFunc, res)].  [fuel] bounds
    the depth of the recursion; [res] is the vector passed by reference. *)
Fixpoint findBestRec (fuel : nat) (ct : ConflictTree)
    (combineFunc : Z → Z → Z) (N : Loop) (res : list Loop)
    : option (Z * list Loop) :=
  match fuel with
  | O => None
  | S fuel =>
      let size := length res in
      let val := 0 in
      chs ← children ct !! N;
      '(val, res) ← foldM (fun '(val, res) C =>
                       '(v, res) ← findBestRec fuel ct combineFunc C res;
                       Some (combineFunc val v, res)) chs (val, res);
      nval ← values ct !! N;
      if nval <? val then Some (val, res)
      else Some (nval, take size res ++ [N])
  end.

Definition findBest (fuel : nat) (ct : ConflictTree)
    (combineFunc : Z → Z → Z) : option (list Loop) :=
  let res := [] in
  match Root ct with
  | None => Some res
  | Some R => '(_, res) ← findBestRec fuel ct combineFunc R res; Some res
  end.

(** [C] is in the child vector of [P]. *)
Definition isChild (ct : ConflictTree) (P C : Loop) : Prop :=
  ∃ chs, children ct !! P = Some chs ∧ C ∈ chs.

(** [A] is a proper ancestor of [B] in the tree. *)
Definition isAncestor (ct : ConflictTree) : relation Loop := tc (isChild ct).

(** The trees that [insertNode] can build. *)
Inductive built : ConflictTree → Prop :=
  | built_empty : built emptyTree
  | built_insert ct Node value Parent ct' :
      built ct → insertNode ct Node value Parent = Some ct' → built ct'.

(** ** [std::sort] *)

(** A strict weak ordering, the requirement of [std::sort] on [comp]. *)
Definition StrictWeakOrder {A} (comp : A → A → bool) : Prop :=
  (∀ x y, comp x y = true → comp y x = false) ∧
  (∀ x y z, comp x y = false → comp y z = false → comp x z = false).

(** [std::sort] is taken by its contract: the result is a permutation of the
    input in which no element is less than an earlier one. *)
Class StdSort := {
  std_sort : ∀ {A}, (A → A → bool) → list A → list A;
  std_sort_perm : ∀ A (comp : A → A → bool) l, std_sort comp l ≡ₚ l;
  std_sort_sorted : ∀ A (comp : A → A → bool) l,
    StrictWeakOrder comp →
    StronglySorted (fun x y => comp y x = false) (std_sort comp l)
}.

(** One implementation of the contract. *)
Definition notLess {A} (comp : A → A → bool) : relation A :=
  fun x y => comp y x = false.

Global Instance notLess_dec {A} (comp : A → A → bool) x y :
  Decision (notLess comp x y).
Proof. unfold notLess. apply _. Defined.

Definition merge_std_sort {A} (comp : A → A → bool) (l : list A) : list A :=
  merge_sort (notLess comp) l.

(** ** Candidate selection per loop *)

Definition isStoreInst (I : Instruction) : bool :=
  match I with StoreInst _ _ => true | LoadInst _ _ => false end.

Definition instType (I : Instruction) : Ty :=
  match I with
  | LoadInst _ ty => ty
  | StoreInst _ _ => VoidTy
  end.

Section VisitLoop.
Context (flags : Flags) `{StdSort} (AAA : AffineAccess).

Definition getSingleExitBlock (L : Loop) : option BasicBlock :=
  match ExitBlock (getLI AAA) L with
  | Some Ex => Some Ex
  | None =>
      match ExitBlocks (getLI AAA) L with
      | [] => None
      | Ex :: exits =>
          if forallb (fun BB => bool_decide (Ex = BB)) exits
          then Some Ex else None
      end
  end.

(** [isValid]: [None] when an assertion or a [cast<StoreInst>] fails. *)
Definition isValid (A : AffAcc) (L : Loop) : option bool :=
  if isWellFormed AAA A L then
    let valid := true in
    let write := isWrite AAA A in
    valid ← foldM (fun valid I =>
               if write then
                 match I with
                 | StoreInst _ v => Some (valid && CHECK_TYPE (getType v))
                 | LoadInst _ _ => None
                 end
               else Some (valid && CHECK_TYPE (instType I)))
             (getAccesses AAA A) valid;
    Some (valid && (loopToDimension AAA A L <=? SSR_MAX_DIM))
  else None.

Definition isValidLoop (L : Loop) : bool :=
  if bool_decide (LoopPreheader (getLI AAA) L = None)
     || bool_decide (getSingleExitBlock L = None)
  then false else true.

(** The lambda [comp] of [visitLoop]. *)
Definition comp (L : Loop) (A B : AffAcc) : bool :=
  let dimA := loopToDimension AAA A L in
  let dimB := loopToDimension AAA B L in
  (dimA <? dimB) || ((dimA =? dimB) && (negb (isWrite AAA A) && isWrite AAA B)).

(** The loop [for (AffAcc *A : accs) if (isValid(A, L)) valid.push_back(A)]. *)
Fixpoint filterValid (L : Loop) (accs : list AffAcc) : option (list AffAcc) :=
  match accs with
  | [] => Some []
  | A :: accs =>
      ok ← isValid A L;
      valid ← filterValid L accs;
      Some (if (ok : bool) then A :: valid else valid)
  end.

(** The first part of [visitLoop]: the accesses that are pushed to
    [possible[L]], and the updated [isKnownInvalid]. *)
Definition selectCandidates (L : Loop) (isKnownInvalid : bool)
    : option (list AffAcc * bool) :=
  let accs := getExpandableAccesses AAA L (SSRConflictFreeOnly flags) in
  let '(accs, isKnownInvalid) :=
    if isKnownInvalid || negb (isValidLoop L) then (@nil AffAcc, true)
    else (accs, isKnownInvalid) in
  valid ← filterValid L accs;
  let valid := std_sort (comp L) valid in
  Some (take (Z.to_nat NUM_SSR) valid, isKnownInvalid).

(** [visitLoop]: the new [possible], the new [tree] and the result. *)
Definition visitLoop (L : Loop) (possible : gmap Loop (list AffAcc))
    (tree : ConflictTree) (isKnownInvalid : bool)
    : option (gmap Loop (list AffAcc) * ConflictTree * bool) :=
  '(candidates, isKnownInvalid) ← selectCandidates L isKnownInvalid;
  let possible := dense_insert L [] possible in
  l ← possible !! L;
  let l := l ++ candidates in
  let possible := <[L := l]> possible in
  gain ← getEstGain flags AAA l L;
  let val := wrap_unsigned (Z.max 0 gain) in
  tree ← insertNode tree L val
           (if isOutermost (getLI AAA) L then None
            else ParentLoop (getLI AAA) L);
  Some (possible, tree, negb isKnownInvalid).

(** The accesses the analysis hands out for [L] are well formed in [L],
    and the instructions of a write are stores. *)
Definition accessesOk (L : Loop) : Prop :=
  ∀ A, A ∈ getExpandableAccesses AAA L (SSRConflictFreeOnly flags) →
    isWellFormed AAA A L = true ∧
    (isWrite AAA A = true →
     Forall (fun I => isStoreInst I = true) (getAccesses AAA A)).

End VisitLoop.

(** ** Emission of the checks, the clone and the intrinsics *)

Inductive Intrinsic :=
  | riscv_ssr_barrier | riscv_ssr_disable | riscv_ssr_enable
  | riscv_ssr_setup_repetition | riscv_ssr_pop | riscv_ssr_push
  | riscv_ssr_read | riscv_ssr_read_imm | riscv_ssr_write
  | riscv_ssr_write_imm | riscv_ssr_setup_1d_r | riscv_ssr_setup_1d_w
  | riscv_ssr_setup_bound_stride_1d | riscv_ssr_setup_bound_stride_2d
  | riscv_ssr_setup_bound_stride_3d | riscv_ssr_setup_bound_stride_4d.

(** The instructions before which the pass inserts code. *)
Inductive InsertPoint :=
  | Terminator (BB : BasicBlock)
  | FirstInsertionPt (BB : BasicBlock)
  (** the branch that ends the block split off before [EndBefore] by
      [cloneRegion] *)
  | FuseBranch (EndBefore : InsertPoint)
  | AtInst (I : Instruction).

(** What the pass does to the function body, in program order.  Code
    inserted before the same instruction appears in the block in the order
    of its insertion.  [EmInst] is an instruction that the pass asks the
    builder for: the builder inserts none where it folds the operation on
    constants. *)
Inductive Emitted :=
  | EmCall (Point : InsertPoint) (callee : Intrinsic) (args : list Value)
  | EmInst (Point : InsertPoint) (v : Value)
  | EmErase (I : Instruction)
  | EmReplaceWithPop (I : Instruction) (dmid : Value)
  | EmCloneRegion (BeginWith EndBefore : InsertPoint)
  | EmSetCondition (Cond : Value)
  | EmExpandAllAt (accs : list AffAcc) (L : Loop) (Point : InsertPoint).

Definition i32 : Ty := IntegerTy 32.

Definition bitsOf (ty : Ty) : Z :=
  match ty with
  | IntegerTy b => Z.pos b
  | DoubleTy => 64
  | FloatTy => 32
  | PointerTy => 32
  | VoidTy => 0
  end.

(** The zero-extended value of [ConstantInt::get(ty, v)]. *)
Definition constValue (ty : Ty) (v : Z) : Z := v mod 2 ^ bitsOf ty.

(** [GenerateTCDMCheck]: the three instructions and the returned value.
    The builder is taken to insert what it is asked for; where it would
    fold an instruction on constants, the folded constant has the run-time
    value of the instruction ([evalValue] below). *)
Definition GenerateTCDMCheck (E : ExpandedAffAcc) (Point : InsertPoint)
    : list Emitted * Value :=
  let c1 := VICmpULE (VConstantInt (getType (LowerBound E)) SSR_SCRATCHPAD_BEGIN)
                     (LowerBound E) in
  let c2 := VICmpULE (UpperBound E)
                     (VConstantInt (getType (UpperBound E)) SSR_SCRATCHPAD_END) in
  ([EmInst Point c1; EmInst Point c2; EmInst Point (VAnd c1 c2)], VAnd c1 c2).

(** The check that [GenerateTCDMCheck] returns for [E]. *)
Definition tcdmCheck (E : ExpandedAffAcc) : Value :=
  VAnd (VICmpULE (VConstantInt (getType (LowerBound E)) 0x100000)
                 (LowerBound E))
       (VICmpULE (UpperBound E)
                 (VConstantInt (getType (UpperBound E)) 0x120000)).

(** The run-time value of a [Value]: the unsigned number held in the bits
    of its type; [ρ] gives the values computed elsewhere. *)
Fixpoint evalValue (ρ : nat → Z) (v : Value) : Z :=
  match v with
  | VConstantInt ty c => constValue ty c
  | VOpaque id ty => ρ id mod 2 ^ bitsOf ty
  | VICmpULE a b => if evalValue ρ a <=? evalValue ρ b then 1 else 0
  | VAnd a b => Z.land (evalValue ρ a) (evalValue ρ b)
  | VSub a b => (evalValue ρ a - evalValue ρ b) mod 2 ^ bitsOf (getType a)
  end.

Definition boundStrideFunctions : list Intrinsic :=
  [riscv_ssr_setup_bound_stride_1d; riscv_ssr_setup_bound_stride_2d;
   riscv_ssr_setup_bound_stride_3d; riscv_ssr_setup_bound_stride_4d].

Section Emission.
Context (flags : Flags) (AAA : AffineAccess).

(** [printInfo]: the text written to stderr is left out.  What remains is
    that it reads [getAccesses()[0]] for the debug location, which fails
    for an access without memory instruction. *)
Definition printInfo (E : ExpandedAffAcc) : option unit :=
  match getAccesses AAA (Access E) with
  | [] => None
  | _ :: _ => Some ()
  end.

(** [GenerateSSRSetup]: the calls in the order of their insertion.  Under
    [SSRVerbose] it calls [printInfo] first. *)
Definition GenerateSSRSetup (E : ExpandedAffAcc) (dmid : Z)
    (Point : InsertPoint) : option (list Emitted) :=
  let dim := getDimension E in
  _ ← (if SSRVerbose flags then printInfo E else Some ());
  if dim <=? SSR_MAX_DIM then
    let Dim := VConstantInt i32 (wrap_unsigned (dim - 1)) in
    let DMid := VConstantInt i32 dmid in
    let isStore := isWrite AAA (Access E) in
    bs ← foldM (fun ems i =>
            Stride ← Steps E !! i;
            '(pre, Stride) ←
               match i with
               | O => Some ([], Stride)
               | S j => P ← PrefixSumRanges E !! j;
                        Some ([EmInst Point (VSub Stride P)], VSub Stride P)
               end;
            Bound ← Reps E !! i;
            SSRBoundStrideSetup ← boundStrideFunctions !! i;
            Some (ems ++ pre ++
                  [EmCall Point SSRBoundStrideSetup [DMid; Bound; Stride]]))
          (seq 0 (length (Steps E))) [];
    '(body, n_reps) ←
       (if isStore then
          foldM (fun '(ems, n_reps) I =>
              match I with
              | StoreInst _ v =>
                  Some (ems ++ [EmCall (AtInst I) riscv_ssr_push [DMid; v];
                                EmErase I],
                        wrap_unsigned (n_reps + 1))
              | LoadInst _ _ => None
              end)
            (getAccesses AAA (Access E)) ([], 0)
        else
          foldM (fun '(ems, n_reps) I =>
              Some (ems ++ [EmCall (AtInst I) riscv_ssr_pop [DMid];
                            EmReplaceWithPop I DMid],
                    wrap_unsigned (n_reps + 1)))
            (getAccesses AAA (Access E)) ([], 0));
    let Rep := VConstantInt i32 (wrap_unsigned (n_reps - 1)) in
    let SSRSetup :=
      if negb isStore then riscv_ssr_read_imm else riscv_ssr_write_imm in
    Some (bs ++ body ++
          [EmCall Point riscv_ssr_setup_repetition [DMid; Rep];
           EmCall Point SSRSetup [DMid; Dim; Addr E]])
  else None.

Definition generateSSRBarrier (InsertBefore : InsertPoint) (dmid : Z)
    : list Emitted :=
  [EmCall InsertBefore riscv_ssr_barrier [VConstantInt i32 dmid]].

Definition generateSSREnDis (PhP ExP : InsertPoint) : list Emitted :=
  [EmCall PhP riscv_ssr_enable []; EmCall ExP riscv_ssr_disable []].

(** [cloneRegion] is kept abstract: one event, and the branch that ends
    the split-off block before [EndBefore].  The function body is not
    modelled as blocks of instructions, so the assertions of [splitAt] and
    [copyPHIsFromPred] and the look-ups in [clones] are not checked here:
    what is proved of [cloneAndSetup] with a [Cond] that is no constant
    is proved of the calls that return. *)
Definition cloneRegion (BeginWith EndBefore : InsertPoint)
    : list Emitted * InsertPoint :=
  ([EmCloneRegion BeginWith EndBefore], FuseBranch EndBefore).

(** [expandInLoop]: the expanded accesses, [Cond] and the emitted code. *)
Definition expandInLoop (accs : list AffAcc) (L : Loop)
    : option (list ExpandedAffAcc * Value * list Emitted) :=
  if bool_decide (accs = []) then None
  else if NUM_SSR <? Z.of_nat (length accs) then None
  else
    Ph ← LoopPreheader (getLI AAA) L;
    let PhT := Terminator Ph in
    let '(exp, Cond) :=
      expandAllAt AAA accs L (negb (SSRNoIntersectCheck flags))
                  (negb (SSRNoBoundCheck flags)) in
    Cond ← Cond;
    let '(ems, Cond) :=
      if negb (SSRNoTCDMCheck flags) then
        fold_left (fun '(ems, Cond) E =>
            let '(chk_ems, chk) := GenerateTCDMCheck E PhT in
            (ems ++ chk_ems ++ [EmInst PhT (VAnd Cond chk)], VAnd Cond chk))
          exp ([], Cond)
      else ([], Cond) in
    if bool_decide (getType Cond = IntegerTy 1)
    then Some (exp, Cond, EmExpandAllAt accs L PhT :: ems)
    else None.

(** The first part of [cloneAndSetup]: [None] is the early [return],
    otherwise the emitted code and the new [ExP]. *)
Definition cloneIfNeeded (PhT ExP : InsertPoint) (Cond : Value)
    : option (list Emitted * InsertPoint) :=
  match Cond with
  | VConstantInt ty v =>
      if constValue ty v =? 0 then None else Some ([], ExP)
  | _ =>
      let '(ems, BRFuse) := cloneRegion PhT ExP in
      Some (ems ++ [EmSetCondition Cond], BRFuse)
  end.

(** The loop [for (auto &E : exp)] of [cloneAndSetup]. *)
Definition setupStep (PhT ExP : InsertPoint) (st : list Emitted * Z)
    (E : ExpandedAffAcc) : option (list Emitted * Z) :=
  let '(ems, dmid) := st in
  setup ← GenerateSSRSetup E dmid PhT;
  let dmid := wrap_unsigned (dmid + 1) in
  let barrier :=
    if SSRBarrier flags then generateSSRBarrier ExP dmid else [] in
  Some (ems ++ setup ++ barrier, dmid).

Definition cloneAndSetup (PhT ExP : InsertPoint) (Cond : Value)
    (exp : list ExpandedAffAcc) : option (list Emitted) :=
  if NUM_SSR <? Z.of_nat (length exp) then None
  else if bool_decide (exp = []) then Some []
  else
    match cloneIfNeeded PhT ExP Cond with
    | None => Some []
    | Some (ems, ExP) =>
        let dmid := 0 in
        '(setups, _) ← foldM (setupStep PhT ExP) exp ([], dmid);
        Some (ems ++ setups ++ generateSSREnDis PhT ExP)
    end.

End Emission.

(** The events of [cloneRegion] and of the branch on [Cond]. *)
Definition isCloneEvent (e : Emitted) : bool :=
  match e with
  | EmCloneRegion _ _ | EmSetCondition _ => true
  | _ => false
  end.

(** The instruction before which an event inserts code. *)
Definition insertedBefore (e : Emitted) : option InsertPoint :=
  match e with
  | EmCall Point _ _ | EmInst Point _ => Some Point
  | _ => None
  end.

(** An event that is no part of a clone and inserts, if at all, before
    [PhT], before [ExP] or before a memory instruction of an access. *)
Definition emittedInPlace (PhT ExP : InsertPoint) (e : Emitted) : Prop :=
  isCloneEvent e = false
  ∧ ∀ p, insertedBefore e = Some p → p = PhT ∨ p = ExP ∨ ∃ I, p = AtInst I.

(** What [GenerateSSRSetup] needs of an expanded access: at most
    [SSR_MAX_DIM] dimensions, a bound per dimension, a prefix sum per
    dimension but the first, stores only behind a write, and under
    [SSRVerbose] a memory instruction for [printInfo] to read. *)
Definition expandedOk (flags : Flags) (AAA : AffineAccess)
    (E : ExpandedAffAcc) : Prop :=
  (length (Steps E) <= 4)%nat
  ∧ (length (Steps E) <= length (Reps E))%nat
  ∧ (length (Steps E) <= S (length (PrefixSumRanges E)))%nat
  ∧ (isWrite AAA (Access E) = true →
     Forall (fun I => isStoreInst I = true) (getAccesses AAA (Access E)))
  ∧ (SSRVerbose flags = true → getAccesses AAA (Access E) ≠ []).

(** ** The pass driver *)

(** A function, as far as the pass reads and changes it: its attributes and
    the changes made to its body. *)
Record Function := {
  fnStringAttrs : gset string;
  fnNoInline : bool;
  fnChanges : list Emitted
}.

Inductive PreservedAnalyses := PreservedAll | PreservedNone.

Definition hasFnAttribute (F : Function) (a : string) : bool :=
  bool_decide (a ∈ fnStringAttrs F).

(** The local variables of [SSRGenerationPass::run]. *)
Record RunState := {
  changed : bool;
  trees : gmap Loop ConflictTree;
  bestLoops : gmap Loop (list Loop);
  possible : gmap Loop (list AffAcc);
  conds : gmap Loop Value;
  exps : gmap Loop (list ExpandedAffAcc);
  emitted : list Emitted
}.

Section Pass.
Context (flags : Flags) `{StdSort}.
(** [findLoopsWithSSR] is taken as given: the pass only tests membership
    in its result. *)
Context (findLoopsWithSSR : Function → LoopInfo → gset Loop).
Context (AAA : AffineAccess).

(** The work-list loop over the sub-tree of a top-level loop. *)
Fixpoint traverse (fuel : nat) (ssrInvalidLoops : gset Loop)
    (worklist : list Loop) (possible : gmap Loop (list AffAcc))
    (tree : ConflictTree)
    : option (gmap Loop (list AffAcc) * ConflictTree) :=
  match worklist with
  | [] => Some (possible, tree)
  | L :: worklist =>
      match fuel with
      | O => None
      | S fuel =>
          '(possible, tree, _) ←
             visitLoop flags AAA L possible tree
                       (bool_decide (L ∈ ssrInvalidLoops));
          traverse fuel ssrInvalidLoops
                   (worklist ++ SubLoops (getLI AAA) L) possible tree
      end
  end.

(** The body of [for (const Loop *L : best)] in the first phase. *)
Definition expandStep (st : RunState) (L : Loop) : option RunState :=
  acc ← possible st !! L;
  if bool_decide (acc = []) then Some st
  else
    '(exp, Cond, ems) ← expandInLoop flags AAA acc L;
    Some {| changed := true;
            trees := trees st;
            bestLoops := bestLoops st;
            possible := possible st;
            conds := dense_insert L Cond (conds st);
            exps := dense_insert L exp (exps st);
            emitted := emitted st ++ ems |}.

(** The body of the first [for (const Loop *T : toploops)]. *)
Definition analyseTopLoop (fuel : nat) (ssrInvalidLoops : gset Loop)
    (st : RunState) (T : Loop) : option RunState :=
  let trees1 := dense_insert T emptyTree (trees st) in
  tree ← trees1 !! T;
  '(possible1, tree) ←
     traverse fuel ssrInvalidLoops [T] (possible st) tree;
  let f := fun a b => wrap_unsigned (a + b) in
  best ← findBest fuel tree f;
  st ← foldM expandStep best
         {| changed := changed st;
            trees := <[T := tree]> trees1;
            bestLoops := bestLoops st;
            possible := possible1;
            conds := conds st;
            exps := exps st;
            emitted := emitted st |};
  Some {| changed := changed st;
          trees := trees st;
          bestLoops := dense_insert T best (bestLoops st);
          possible := possible st;
          conds := conds st;
          exps := exps st;
          emitted := emitted st |}.

(** The body of [for (const Loop *L : best)] in the second phase. *)
Definition setupLoop (st : RunState) (ems : list Emitted) (L : Loop)
    : option (list Emitted) :=
  match conds st !! L with
  | None => Some ems
  | Some Cond =>
      Ex ← getSingleExitBlock AAA L;
      Ph ← LoopPreheader (getLI AAA) L;
      exp ← exps st !! L;
      e ← cloneAndSetup flags AAA (Terminator Ph) (FirstInsertionPt Ex)
            Cond exp;
      Some (ems ++ e)
  end.

(** The body of the second [for (const Loop *T : toploops)]. *)
Definition setupTopLoop (st : RunState) (ems : list Emitted) (T : Loop)
    : option (list Emitted) :=
  best ← bestLoops st !! T;
  foldM (setupLoop st) best ems.

(** [SSRGenerationPass::run]. *)
Definition run (fuel : nat) (F : Function)
    : option (Function * PreservedAnalyses) :=
  if negb (InferSSR flags) then Some (F, PreservedAll)
  else if hasFnAttribute F SSRFnAttr then Some (F, PreservedAll)
  else
    let toploops := TopLevelLoops (getLI AAA) in
    let ssrInvalidLoops := findLoopsWithSSR F (getLI AAA) in
    st ← foldM (analyseTopLoop fuel ssrInvalidLoops) toploops
           {| changed := false; trees := ∅; bestLoops := ∅;
              possible := ∅; conds := ∅; exps := ∅;
              emitted := fnChanges F |};
    ems ← foldM (setupTopLoop st) toploops (emitted st);
    if negb (changed st)
    then Some ({| fnStringAttrs := fnStringAttrs F;
                  fnNoInline := fnNoInline F;
                  fnChanges := ems |}, PreservedAll)
    else Some ({| fnStringAttrs := {[ SSRFnAttr ]} ∪ fnStringAttrs F;
                  fnNoInline :=
                    if SSRNoInline flags then true else fnNoInline F;
                  fnChanges := ems |}, PreservedNone).

End Pass.

(** ** The terms of the gain formula *)

Definition sumZ (l : list Z) : Z := foldr Z.add 0 l.

Section GainFormula.
Context (flags : Flags) (AAA : AffineAccess).

(** The cost charged for dimension [d] of [A]. *)
Definition dimCost (A : AffAcc) (d : Z) : Z :=
  getExpressionSize (getStep AAA A d) + getExpressionSize (getRep AAA A d)
  + EST_MUL_COST + (if 1 <? d then 1 else 0).

(** The size of the base address plus the cost of the dimensions
    [1 .. last]. *)
Definition expandCostUpTo (A : AffAcc) (dim last : Z) : Z :=
  getExpressionSize (getBaseAddr AAA A dim) + sumZ (dimCost A <$> seqZ 1 last).

(** The saturating product of the trip counts of [A] at [L]. *)
Definition tripProduct (A : AffAcc) (L : Loop) : Z :=
  (repsLoop AAA A (loopToDimension AAA A L) ∅).1.

(** The sum of the trip products of the accesses. *)
Definition tripSum (Accs : list AffAcc) (L : Loop) : Z :=
  sumZ ((fun A => tripProduct A L) <$> Accs).

(** The cost of one conflict of an access: [None] for a [Bad] one. *)
Definition conflictCost (accs vis : gset AffAcc) (L : Loop)
    (p : AffAcc * AffAccConflict) : option Z :=
  match p.2 with
  | NoConflict => Some 0
  | MustNotIntersect =>
      if decide (p.1 ∈ vis) then Some 0
      else Some ((if decide (p.1 ∈ accs) then 0
                  else getEstExpandCost AAA p.1 (loopToDimension AAA p.1 L))
                 + 4)
  | Bad => None
  end.

Fixpoint conflictsCost (accs vis : gset AffAcc) (L : Loop)
    (ps : list (AffAcc * AffAccConflict)) : option Z :=
  match ps with
  | [] => Some 0
  | p :: ps =>
      c ← conflictCost accs vis L p;
      cs ← conflictsCost accs vis L ps;
      Some (c + cs)
  end.

(** The intersection and TCDM checks charged to the accesses, the
    accesses before [A] being in [vis]. *)
Fixpoint checksCost (accs vis : gset AffAcc) (L : Loop)
    (Accs : list AffAcc) : option Z :=
  match Accs with
  | [] => Some 0
  | A :: Accs =>
      let vis := {[ A ]} ∪ vis in
      c ← (if SSRNoIntersectCheck flags then Some 0
           else conflictsCost accs vis L (getConflicts AAA A L));
      cs ← checksCost accs vis L Accs;
      Some (c + (if SSRNoTCDMCheck flags then 0 else 4) + cs)
  end.

(** The loops that contribute a dimension to one of the accesses. *)
Definition contributingLoops (Accs : list AffAcc) (L : Loop) : gset Loop :=
  fold_left (fun contLoops A =>
      (repsLoop AAA A (loopToDimension AAA A L) contLoops).2) Accs ∅.

Definition boundChecksCost (Accs : list AffAcc) (L : Loop) : Z :=
  if SSRNoBoundCheck flags then 0
  else 2 * Z.of_nat (size (contributingLoops Accs L)).

(** The gain with the expansion cost of dimensions [1 .. dim a + extra];
    the code has [extra = -1]. *)
Definition gainFormula (memop_cost extra : Z) (Accs : list AffAcc)
    (L : Loop) : option Z :=
  checks ← checksCost (list_to_set Accs) ∅ L Accs;
  Some (sumZ ((fun A =>
                 let dim := loopToDimension AAA A L in
                 memop_cost * tripProduct A L
                 - expandCostUpTo A dim (dim + extra)) <$> Accs)
        - checks - boundChecksCost Accs L).

End GainFormula.


(** ** Loop nests as trees *)

(** The shape of a loop nest: a loop and the nests of its sub-loops, in
    order.  It is the shape that [LoopInfo] and a conflict tree share. *)
Unset Elimination Schemes.
Inductive Nest := NestNode (L : Loop) (subs : list Nest).
Set Elimination Schemes.

Definition nestRoot (t : Nest) : Loop :=
  match t with NestNode L _ => L end.

Definition nestSubs (t : Nest) : list Nest :=
  match t with NestNode _ subs => subs end.

(** The loops of a nest, the outer loop first. *)
Fixpoint nestLoops (t : Nest) : list Loop :=
  match t with
  | NestNode L subs => L :: concat (nestLoops <$> subs)
  end.

Fixpoint nestHeight (t : Nest) : nat :=
  match t with
  | NestNode _ subs => S (foldr Nat.max O (nestHeight <$> subs))
  end.

(** The nest with the new leaf [N] as the last sub-loop of [P]. *)
Fixpoint nestInsert (P N : Loop) (t : Nest) : Nest :=
  match t with
  | NestNode L subs =>
      if decide (L = P) then NestNode L (subs ++ [NestNode N []])
      else NestNode L (nestInsert P N <$> subs)
  end.

(** The maps of the conflict tree hold the nest [t]: every loop of [t] has
    a value, and its child vector lists its sub-loops. *)
Unset Elimination Schemes.
Inductive treeIn (ct : ConflictTree) : Nest → Prop :=
  | treeIn_node L subs :
      is_Some (values ct !! L) →
      children ct !! L = Some (nestRoot <$> subs) →
      Forall (treeIn ct) subs →
      treeIn ct (NestNode L subs).

(** What the recursive [findBest] does at the root of the nest [t] with
    [fuel]: it returns, extends [res] by loops of [t], no loop twice and no
    loop an ancestor of another. *)
Definition selectsIn (ct : ConflictTree) (f : Z → Z → Z) (fuel : nat)
    (t : Nest) : Prop :=
  ∀ res, ∃ v sel,
    findBestRec fuel ct f (nestRoot t) res = Some (v, res ++ sel)
    ∧ (∀ a, a ∈ sel → a ∈ nestLoops t)
    ∧ NoDup sel
    ∧ (∀ a b, a ∈ sel → b ∈ sel → ¬ isAncestor ct a b).

(** The invariant of the trees built by [insertNode]: the two maps have
    the same keys, and once a root is set the maps hold a nest below it
    whose loops are all different. *)
Definition treeInv (ct : ConflictTree) : Prop :=
  (∀ L, is_Some (values ct !! L) ↔ is_Some (children ct !! L))
  ∧ ∀ R, Root ct = Some R →
      ∃ t, nestRoot t = R ∧ treeIn ct t ∧ NoDup (nestLoops t)
           ∧ ∀ L, L ∈ nestLoops t → is_Some (values ct !! L).

(** [LoopInfo] holds the nest [t] below the parent [parent]. *)
Inductive nestIn (LI : LoopInfo) : option Loop → Nest → Prop :=
  | nestIn_node parent L subs :
      ParentLoop LI L = parent →
      SubLoops LI L = nestRoot <$> subs →
      Forall (nestIn LI (Some L)) subs →
      nestIn LI parent (NestNode L subs).
Set Elimination Schemes.

(** The loop forest of a function: the nests of the top-level loops, no
    loop occurring twice. *)
Definition loopForest (LI : LoopInfo) (ts : list Nest) : Prop :=
  TopLevelLoops LI = nestRoot <$> ts
  ∧ Forall (nestIn LI None) ts
  ∧ NoDup (concat (nestLoops <$> ts)).

(** ** Runs without candidates *)

(** Every loop of the nests has an empty candidate set. *)
Definition noCandidates (flags : Flags) `{StdSort} (AAA : AffineAccess)
    (ssrInvalidLoops : gset Loop) (ts : list Nest) : Prop :=
  ∀ L, L ∈ concat (nestLoops <$> ts) →
    ∃ b, selectCandidates flags AAA L (bool_decide (L ∈ ssrInvalidLoops))
         = Some ([], b).

Definition allEmpty (possible : gmap Loop (list AffAcc)) : Prop :=
  ∀ K l, possible !! K = Some l → l = [].

(** A state of [run] in which nothing was expanded. *)
Definition nothingExpanded (F : Function) (st : RunState) : Prop :=
  changed st = false ∧ conds st = ∅ ∧ emitted st = fnChanges F
  ∧ allEmpty (possible st).


(** ** Fixtures: one loop with one affine access *)

Definition mergeSort : StdSort.
Proof.
  refine {| std_sort := @merge_std_sort |}.
  - intros A comp l. apply merge_sort_Permutation.
  - intros A comp l [Hasym Hneg]. apply StronglySorted_merge_sort.
    + intros x y z Hxy Hyz. unfold notLess in *.
      destruct (comp z x) eqn:Hzx; [|done].
      destruct (comp y x) eqn:E1; [done|].
      destruct (comp z y) eqn:E2; [done|].
      by rewrite (Hneg z y x E2 E1) in Hzx.
    + intros x y. unfold notLess.
      destruct (comp y x) eqn:E; [|by left]. right. by apply Hasym.
Defined.

(** [infer-ssr] alone. *)
Definition defaultFlags : Flags :=
  {| InferSSR := true; SSRNoIntersectCheck := false;
     SSRNoTCDMCheck := false; SSRNoBoundCheck := false;
     SSRConflictFreeOnly := false; SSRNoInline := false;
     SSRBarrier := false; SSRVerbose := false |}.

(** [infer-ssr] with the three run-time checks switched off. *)
Definition noCheckFlags : Flags :=
  {| InferSSR := true; SSRNoIntersectCheck := true;
     SSRNoTCDMCheck := true; SSRNoBoundCheck := true;
     SSRConflictFreeOnly := false; SSRNoInline := false;
     SSRBarrier := false; SSRVerbose := false |}.

(** As [noCheckFlags], with [ssr-barrier]. *)
Definition barrierFlags : Flags :=
  {| InferSSR := true; SSRNoIntersectCheck := true;
     SSRNoTCDMCheck := true; SSRNoBoundCheck := true;
     SSRConflictFreeOnly := false; SSRNoInline := false;
     SSRBarrier := true; SSRVerbose := false |}.

Definition symbolicSCEV (size : Z) : SCEV :=
  {| getSCEVType := scUnknown; getExpressionSize := size; getAPInt := 0 |}.

Definition constantSCEV (v : Z) : SCEV :=
  {| getSCEVType := scConstant; getExpressionSize := 1; getAPInt := v |}.

(** The loop [0] with preheader [10] and exit block [11], and no other. *)
Definition oneLoop : LoopInfo :=
  {| TopLevelLoops := [0%nat];
     SubLoops := fun _ => [];
     ParentLoop := fun _ => None;
     LoopPreheader := fun _ => Some 10%nat;
     ExitBlock := fun _ => Some 11%nat;
     ExitBlocks := fun _ => [11%nat] |}.

Definition oneExpanded (A : AffAcc) : ExpandedAffAcc :=
  {| Access := A;
     Addr := VOpaque 1 PointerTy;
     Steps := [VOpaque 2 i32];
     Reps := [VOpaque 3 i32];
     PrefixSumRanges := [];
     LowerBound := VOpaque 4 i32;
     UpperBound := VOpaque 5 i32 |}.

(** One access [0] of dimension 1 in loop [0], with one instruction: a
    load of a double, or the store of a double when [write]. *)
Definition oneAccess (write : bool) (baseSize : Z) (rep : SCEV)
    (cond : Value) : AffineAccess :=
  {| isWrite := fun _ => write;
     getAccesses := fun _ =>
       if write then [StoreInst 100 (VOpaque 6 DoubleTy)]
       else [LoadInst 100 DoubleTy];
     loopToDimension := fun _ _ => 1;
     getBaseAddr := fun _ _ => symbolicSCEV baseSize;
     getStep := fun _ _ => symbolicSCEV 1;
     getRep := fun _ _ => rep;
     getLoop := fun _ _ => 0%nat;
     getConflicts := fun _ _ => [];
     isWellFormed := fun _ _ => true;
     getExpandableAccesses := fun _ _ => [0%nat];
     expandAllAt := fun accs _ _ _ => (oneExpanded <$> accs, Some cond);
     getLI := oneLoop |}.

(** The same loop without any expandable access. *)
Definition noAccess : AffineAccess :=
  {| isWrite := fun _ => false;
     getAccesses := fun _ => [];
     loopToDimension := fun _ _ => 1;
     getBaseAddr := fun _ _ => symbolicSCEV 1;
     getStep := fun _ _ => symbolicSCEV 1;
     getRep := fun _ _ => symbolicSCEV 1;
     getLoop := fun _ _ => 0%nat;
     getConflicts := fun _ _ => [];
     isWellFormed := fun _ _ => true;
     getExpandableAccesses := fun _ _ => [];
     expandAllAt := fun accs _ _ _ => ([], None);
     getLI := oneLoop |}.

(** Two reads in loop [0]: access [0] of dimension 1 and access [1] of
    dimension 2; the analysis lists the access of dimension 2 first. *)
Definition twoReads : AffineAccess :=
  {| isWrite := fun _ => false;
     getAccesses := fun A => [LoadInst (100 + A) DoubleTy];
     loopToDimension := fun A _ => if decide (A = 0%nat) then 1 else 2;
     getBaseAddr := fun _ _ => symbolicSCEV 1;
     getStep := fun _ _ => symbolicSCEV 1;
     getRep := fun _ _ => symbolicSCEV 1;
     getLoop := fun _ d => Z.to_nat d;
     getConflicts := fun _ _ => [];
     isWellFormed := fun _ _ => true;
     getExpandableAccesses := fun _ _ => [1%nat; 0%nat];
     expandAllAt := fun accs _ _ _ => ([], None);
     getLI := oneLoop |}.

Definition trueCond : Value := VConstantInt (IntegerTy 1) 1.
Definition falseCond : Value := VConstantInt (IntegerTy 1) 0.
Definition runtimeCond : Value := VOpaque 0 (IntegerTy 1).

Definition emptyFunction : Function :=
  {| fnStringAttrs := ∅; fnNoInline := false; fnChanges := [] |}.

(** The conflict tree of a loop [0] (value 5) with the sub-loops [1]
    (value 3) and [2] (value 4), built by [insertNode]. *)
Definition oneLoopTree : ConflictTree :=
  default emptyTree (insertNode emptyTree 0%nat 5 None).

Definition twoLoopTree : ConflictTree :=
  default emptyTree (insertNode oneLoopTree 1%nat 3 (Some 0%nat)).

Definition threeLoopTree : ConflictTree :=
  default emptyTree (insertNode twoLoopTree 2%nat 4 (Some 0%nat)).

(** What the pass makes of [emptyFunction] for one read in one loop with a
    run-time guard: the expansion and the scratchpad check in the
    preheader, the clone, the stream and its bracket. *)
Definition streamedFunction : Function :=
  let lower := VICmpULE (VConstantInt i32 0x100000) (VOpaque 4 i32) in
  let upper := VICmpULE (VOpaque 5 i32) (VConstantInt i32 0x120000) in
  let guard := VAnd runtimeCond (VAnd lower upper) in
  let dm0 := VConstantInt i32 0 in
  {| fnStringAttrs := {[ SSRFnAttr ]};
     fnNoInline := false;
     fnChanges :=
       [EmExpandAllAt [0%nat] 0%nat (Terminator 10%nat);
        EmInst (Terminator 10%nat) lower;
        EmInst (Terminator 10%nat) upper;
        EmInst (Terminator 10%nat) (VAnd lower upper);
        EmInst (Terminator 10%nat) guard;
        EmCloneRegion (Terminator 10%nat) (FirstInsertionPt 11%nat);
        EmSetCondition guard;
        EmCall (Terminator 10%nat) riscv_ssr_setup_bound_stride_1d
          [dm0; VOpaque 3 i32; VOpaque 2 i32];
        EmCall (AtInst (LoadInst 100 DoubleTy)) riscv_ssr_pop [dm0];
        EmReplaceWithPop (LoadInst 100 DoubleTy) dm0;
        EmCall (Terminator 10%nat) riscv_ssr_setup_repetition
          [dm0; VConstantInt i32 0];
        EmCall (Terminator 10%nat) riscv_ssr_read_imm
          [dm0; VConstantInt i32 0; VOpaque 1 PointerTy];
        EmCall (Terminator 10%nat) riscv_ssr_enable [];
        EmCall (FuseBranch (FirstInsertionPt 11%nat)) riscv_ssr_disable []] |}.

(** No loop is known to hold SSR code. *)
Definition noLoopsWithSSR (F : Function) (LI : LoopInfo) : gset Loop := ∅.

(** ** The stream setup, as the specification lists it *)

(** An instruction that the builder is asked for to compute a value.
    Where the builder folds constants it inserts nothing for it, so what
    is said of the emitted calls is said of the log without these. *)
Definition isBuilderInst (e : Emitted) : bool :=
  match e with
  | EmInst _ _ => true
  | _ => false
  end.

Definition withoutInsts (ems : list Emitted) : list Emitted :=
  filter (fun e => isBuilderInst e = false) ems.

(** Section 4.7, step 1: the stride of dimension [i + 1]; above the first
    dimension it is [Steps[i] - PrefixSumRanges[i - 1]]. *)
Definition specStride (E : ExpandedAffAcc) (i : nat) : option Value :=
  Step ← Steps E !! i;
  match i with
  | O => Some Step
  | S j => P ← PrefixSumRanges E !! j; Some (VSub Step P)
  end.

(** Section 4.7, step 1: the bound/stride setup of dimension [i + 1] on
    the data mover [DMid]. *)
Definition specBoundStrideSetup (E : ExpandedAffAcc) (DMid : Value)
    (Point : InsertPoint) (i : nat) : list Emitted :=
  match specStride E i, Reps E !! i, boundStrideFunctions !! i with
  | Some Stride, Some Bound, Some fn => [EmCall Point fn [DMid; Bound; Stride]]
  | _, _, _ => []
  end.

(** Section 4.7, step 2: at an access site of a write the stored value is
    pushed before the store and the store is deleted; at an access site of
    a read a pop is put before the instruction and replaces it. *)
Definition specAccessSiteRewrite (isStore : bool) (DMid : Value)
    (I : Instruction) : list Emitted :=
  if isStore then
    match I with
    | StoreInst _ v => [EmCall (AtInst I) riscv_ssr_push [DMid; v]; EmErase I]
    | LoadInst _ _ => []
    end
  else [EmCall (AtInst I) riscv_ssr_pop [DMid]; EmReplaceWithPop I DMid].

(** Section 4.7, steps 1 to 4: the setup of the stream of [E] on the data
    mover [dmid], with the calls of steps 1, 3 and 4 before [Point]. *)
Definition specStreamSetup (AAA : AffineAccess) (E : ExpandedAffAcc) (dmid : Z)
    (Point : InsertPoint) : list Emitted :=
  let DMid := VConstantInt i32 dmid in
  let isStore := isWrite AAA (Access E) in
  let sites := getAccesses AAA (Access E) in
  flat_map (specBoundStrideSetup E DMid Point) (seq 0 (length (Steps E)))
  ++ flat_map (specAccessSiteRewrite isStore DMid) sites
  ++ [EmCall Point riscv_ssr_setup_repetition
        [DMid; VConstantInt i32 (wrap_unsigned (Z.of_nat (length sites) - 1))];
      EmCall Point
        (if isStore then riscv_ssr_write_imm else riscv_ssr_read_imm)
        [DMid; VConstantInt i32 (wrap_unsigned (getDimension E - 1));
         Addr E]].

(** ** Definitions for the further properties *)

(** While nothing is expanded no condition is recorded and nothing is
    emitted; whatever is emitted extends the log. *)
Definition runFrame_holds (ems0 : list Emitted) (st : RunState) : Prop :=
  ems0 `prefix_of` emitted st
  ∧ (changed st = false → conds st = ∅ ∧ emitted st = ems0).

(** The intrinsic that an event calls. *)
Definition calleeOf (e : Emitted) : option Intrinsic :=
  match e with
  | EmCall _ callee _ => Some callee
  | _ => None
  end.

(** The first argument of a call. *)
Definition firstArg (e : Emitted) : option Value :=
  match e with
  | EmCall _ _ args => head args
  | _ => None
  end.

(** The events with which [cloneAndSetup] starts, and the instruction
    before which it puts the disable: nothing and [ExP] for a constant
    [Cond], the clone and the branch of the split-off block otherwise. *)
Definition cloneEvents (PhT ExP : InsertPoint) (Cond : Value)
    : list Emitted * InsertPoint :=
  match Cond with
  | VConstantInt _ _ => ([], ExP)
  | _ => ([EmCloneRegion PhT ExP; EmSetCondition Cond], FuseBranch ExP)
  end.

Definition isConstantFalse (Cond : Value) : bool :=
  match Cond with
  | VConstantInt ty v => constValue ty v =? 0
  | _ => false
  end.

(** The value of a loop in the conflict tree, and the combined value of a
    selection under addition. *)
Definition valueOf (ct : ConflictTree) (L : Loop) : Z :=
  default 0 (values ct !! L).

Definition selValue (ct : ConflictTree) (sel : list Loop) : Z :=
  sumZ (valueOf ct <$> sel).

(** All values of the tree added up. *)
Definition totalValue (ct : ConflictTree) : Z :=
  sumZ (snd <$> map_to_list (values ct)).

(** [unsigned] values are not negative. *)
Definition valuesUnsigned (ct : ConflictTree) : Prop :=
  map_Forall (fun _ v => 0 <= v) (values ct).

(** Every loop of [ls] without children has one of [sel] on its path. *)
Definition coversInnermost (ct : ConflictTree) (ls sel : list Loop) : Prop :=
  ∀ x, x ∈ ls → children ct !! x = Some [] →
       ∃ a, a ∈ sel ∧ rtc (isChild ct) a x.

(** No selection of different loops of [ls], none an ancestor of another,
    has a combined value above [v]. *)
Definition bestAmong (ct : ConflictTree) (ls : list Loop) (v : Z) : Prop :=
  ∀ sel', NoDup sel' → (∀ a, a ∈ sel' → a ∈ ls) →
          (∀ a b, a ∈ sel' → b ∈ sel' → ¬ isAncestor ct a b) →
          selValue ct sel' <= v.

(** What the recursive [findBest] does at the root of the nest [t]: the
    selection covers the innermost loops of [t], and when [combineFunc] is
    the addition of [unsigned] and the values of [t] add up without
    overflow, the returned value is the combined value of the selection,
    no selection does better, and the root is taken when it does as well
    as its sub-loops. *)
Definition selectsBest (ct : ConflictTree) (f : Z → Z → Z) (fuel : nat)
    (t : Nest) : Prop :=
  ∀ res, ∃ v sel,
    findBestRec fuel ct f (nestRoot t) res = Some (v, res ++ sel)
    ∧ (∀ a, a ∈ sel → a ∈ nestLoops t)
    ∧ coversInnermost ct (nestLoops t) sel
    ∧ ((∀ a b, f a b = wrap_unsigned (a + b)) →
       selValue ct (nestLoops t) < 2 ^ 32 →
       v = selValue ct sel
       ∧ v <= selValue ct (nestLoops t)
       ∧ bestAmong ct (nestLoops t) v
       ∧ (v <= valueOf ct (nestRoot t) → sel = [nestRoot t])).

(** The type that a memory instruction of an access moves: the type of the
    stored value for a write, of the instruction otherwise; [None] where
    [cast<StoreInst>] fails. *)
Definition streamedType (write : bool) (I : Instruction) : option Ty :=
  if write then
    match I with
    | StoreInst _ v => Some (getType v)
    | LoadInst _ _ => None
    end
  else Some (instType I).

(** The gain of the candidates of [L] can be estimated: no conflict of an
    expandable access is [Bad], unless the intersection checks are off. *)
Definition conflictsOk (flags : Flags) (AAA : AffineAccess) (L : Loop)
    : Prop :=
  SSRNoIntersectCheck flags = true
  ∨ ∀ A, A ∈ getExpandableAccesses AAA L (SSRConflictFreeOnly flags) →
         ∀ p, p ∈ getConflicts AAA A L → p.2 ≠ Bad.

(** What [visitLoop] leaves behind for [L]: the candidates in [possible]
    and their gain, clamped at 0, as the value of [L] in the tree. *)
Definition loopAnalysed (flags : Flags) `{StdSort} (AAA : AffineAccess)
    (ssrInvalidLoops : gset Loop) (possible : gmap Loop (list AffAcc))
    (ct : ConflictTree) (L : Loop) : Prop :=
  ∃ l b gain,
    selectCandidates flags AAA L (bool_decide (L ∈ ssrInvalidLoops))
    = Some (l, b)
    ∧ possible !! L = Some l
    ∧ getEstGain flags AAA l L = Some gain
    ∧ values ct !! L = Some (Z.max 0 gain).

(** [expandInLoop] returns for what the pass hands to it: one to three
    expandable accesses of a loop with a preheader. *)
Definition expansionReturns (flags : Flags) (AAA : AffineAccess) : Prop :=
  ∀ (L : Loop) accs,
    accs ≠ [] → (length accs <= 3)%nat →
    (∀ A, A ∈ accs →
          A ∈ getExpandableAccesses AAA L (SSRConflictFreeOnly flags)) →
    is_Some (LoopPreheader (getLI AAA) L) →
    is_Some (expandInLoop flags AAA accs L).

(** [cloneAndSetup] returns for what [expandInLoop] has handed back for a
    loop with a preheader and a single exit block. *)
Definition setupReturns (flags : Flags) (AAA : AffineAccess) : Prop :=
  ∀ (L : Loop) accs exp Cond ems Ph Ex,
    expandInLoop flags AAA accs L = Some (exp, Cond, ems) →
    LoopPreheader (getLI AAA) L = Some Ph →
    getSingleExitBlock AAA L = Some Ex →
    is_Some (cloneAndSetup flags AAA (Terminator Ph) (FirstInsertionPt Ex)
               Cond exp).

(** The state between the two phases of [run] is fit for the second one:
    the condition and the expanded accesses recorded for a loop are those
    that [expandInLoop] has returned for it, and the loop has a single
    exit block. *)
Definition streamsReady (flags : Flags) (AAA : AffineAccess)
    (st : RunState) : Prop :=
  (∀ L Cond, conds st !! L = Some Cond →
     ∃ accs exp ems,
       expandInLoop flags AAA accs L = Some (exp, Cond, ems)
       ∧ exps st !! L = Some exp
       ∧ is_Some (getSingleExitBlock AAA L))
  ∧ (∀ L, conds st !! L = None → exps st !! L = None).

(** ** [findLoopsWithSSR] *)

Global Instance Intrinsic_eq_dec : EqDecision Intrinsic.
Proof. solve_decision. Defined.

(** The identifier of an intrinsic: an SSR intrinsic or any other one. *)
Inductive IntrinsicID :=
  | SSRIntrinsicID (i : Intrinsic)
  | OtherIntrinsicID (id : nat).

Global Instance IntrinsicID_eq_dec : EqDecision IntrinsicID.
Proof. solve_decision. Defined.

Definition riscSSRIntrinsics : list IntrinsicID :=
  SSRIntrinsicID <$>
    [riscv_ssr_barrier; riscv_ssr_disable; riscv_ssr_enable;
     riscv_ssr_setup_repetition; riscv_ssr_pop; riscv_ssr_push;
     riscv_ssr_read; riscv_ssr_read_imm; riscv_ssr_write;
     riscv_ssr_write_imm; riscv_ssr_setup_1d_r; riscv_ssr_setup_1d_w;
     riscv_ssr_setup_bound_stride_1d; riscv_ssr_setup_bound_stride_2d;
     riscv_ssr_setup_bound_stride_3d; riscv_ssr_setup_bound_stride_4d].

(** An instruction of a block as [findLoopsWithSSR] looks at it: a
    [CallBase] with the answers of [hasFnAttr(SSRFnAttr)], of
    [dyn_cast<IntrinsicInst>] with [getIntrinsicID], and of [isInlineAsm];
    or any other instruction. *)
Inductive BlockInst :=
  | CallBase (hasSSRFnAttr : bool) (intrinsicID : option IntrinsicID)
             (isInlineAsm : bool)
  | OtherInst.

(** The body of a function: the entry block, the instructions and the
    successors of a block, and [LoopInfo::getLoopFor]. *)
Record FunctionBody := {
  getEntryBlock : BasicBlock;
  instructionsOf : BasicBlock → list BlockInst;
  successors : BasicBlock → list BasicBlock;
  getLoopFor : BasicBlock → option Loop
}.

(** [while (L) { invalid.insert(L); L = L->getParentLoop(); }]; [depth]
    bounds the number of loops on the way up. *)
Fixpoint markLoops (depth : nat) (LI : LoopInfo) (L : option Loop)
    (invalid : gset Loop) : option (gset Loop) :=
  match L with
  | None => Some invalid
  | Some l =>
      match depth with
      | O => None
      | S depth => markLoops depth LI (ParentLoop LI l) ({[ l ]} ∪ invalid)
      end
  end.

(** The scan of a marked block: a call of [riscv_ssr_disable] removes the
    mark and ends the scan. *)
Fixpoint scanMarked (insts : list BlockInst) (marked : bool) : bool :=
  match insts with
  | [] => marked
  | i :: insts =>
      let marked :=
        match i with
        | CallBase _ (Some id) _ =>
            if bool_decide (id = SSRIntrinsicID riscv_ssr_disable)
            then false else marked
        | _ => marked
        end in
      if negb marked then marked else scanMarked insts marked
  end.

(** The body of the scan of a block that is not marked. *)
Definition scanUnmarked (depth : nat) (LI : LoopInfo) (F : FunctionBody)
    (BB : BasicBlock) (st : gset Loop * bool) (i : BlockInst)
    : option (gset Loop * bool) :=
  let '(invalid, marked) := st in
  match i with
  | CallBase attr intr asm =>
      invalid ← (if attr then markLoops depth LI (getLoopFor F BB) invalid
                 else Some invalid);
      let marked :=
        match intr with
        | Some id => if bool_decide (id ∈ riscSSRIntrinsics) then true
                     else marked
        | None => marked
        end in
      let marked := if asm then true else marked in
      Some (invalid, marked)
  | OtherInst => Some (invalid, marked)
  end.

(** The variables of [findLoopsWithSSR]; a null block pointer is [None]. *)
Record WorkState := {
  worklist : list (option BasicBlock * bool);
  visUnmarked : gset BasicBlock;
  visMarked : gset BasicBlock;
  invalid : gset Loop
}.

(** The body of [while (!worklist.empty())] for the pair [(BB, marked)]
    taken from the front of the work list. *)
Definition worklistBody (depth : nat) (LI : LoopInfo) (F : FunctionBody)
    (BB : option BasicBlock) (marked : bool) (st : WorkState)
    : option WorkState :=
  match BB with
  | None => Some st
  | Some BB =>
      if marked then
        if bool_decide (BB ∈ visMarked st) then Some st
        else
          let visMarked1 := {[ BB ]} ∪ visMarked st in
          invalid1 ← markLoops depth LI (getLoopFor F BB) (invalid st);
          let marked := scanMarked (instructionsOf F BB) marked in
          Some {| worklist :=
                    worklist st
                    ++ ((fun BB2 => (Some BB2, marked)) <$> successors F BB);
                  visUnmarked := visUnmarked st;
                  visMarked := visMarked1;
                  invalid := invalid1 |}
      else
        if bool_decide (BB ∈ visUnmarked st) then Some st
        else
          let visUnmarked1 := {[ BB ]} ∪ visUnmarked st in
          '(invalid1, marked) ←
             foldM (scanUnmarked depth LI F BB) (instructionsOf F BB)
                   (invalid st, marked);
          let worklist1 :=
            if (marked : bool) then worklist st ++ [(Some BB, true)]
            else worklist st in
          Some {| worklist :=
                    worklist1
                    ++ ((fun BB2 => (Some BB2, marked)) <$> successors F BB);
                  visUnmarked := visUnmarked1;
                  visMarked := visMarked st;
                  invalid := invalid1 |}
  end.

(** The [while] loop; [fuel] bounds the number of iterations. *)
Fixpoint worklistLoop (fuel depth : nat) (LI : LoopInfo) (F : FunctionBody)
    (st : WorkState) : option (gset Loop) :=
  match worklist st with
  | [] => Some (invalid st)
  | (BB, marked) :: rest =>
      match fuel with
      | O => None
      | S fuel =>
          st ← worklistBody depth LI F BB marked
                 {| worklist := rest;
                    visUnmarked := visUnmarked st;
                    visMarked := visMarked st;
                    invalid := invalid st |};
          worklistLoop fuel depth LI F st
      end
  end.

(** [findLoopsWithSSR]: the loops already affected by SSR. *)
Definition findLoopsWithSSR (fuel depth : nat) (F : FunctionBody)
    (LI : LoopInfo) : option (gset Loop) :=
  worklistLoop fuel depth LI F
    {| worklist := [(Some (getEntryBlock F), false)];
       visUnmarked := ∅; visMarked := ∅; invalid := ∅ |}.

(** The loops from [L] upwards, when there are at most [depth]. *)
Fixpoint parentChain (depth : nat) (LI : LoopInfo) (L : option Loop)
    : option (list Loop) :=
  match L with
  | None => Some []
  | Some l =>
      match depth with
      | O => None
      | S depth => (l ::.) <$> parentChain depth LI (ParentLoop LI l)
      end
  end.

Definition isSuccessor (F : FunctionBody) : relation BasicBlock :=
  fun a b => b ∈ successors F a.

Definition reachable (F : FunctionBody) (B : BasicBlock) : Prop :=
  rtc (isSuccessor F) (getEntryBlock F) B.

(** The loop [K] contains the block [B]: it is the innermost loop of [B]
    or one of the loops around it. *)
Definition loopContains (LI : LoopInfo) (F : FunctionBody) (K : Loop)
    (B : BasicBlock) : Prop :=
  ∃ L, getLoopFor F B = Some L
       ∧ rtc (fun a b => ParentLoop LI a = Some b) L K.

(** A call of a function with the SSR attribute, of an SSR intrinsic, or
    of inline assembly. *)
Definition touchesSSR (i : BlockInst) : bool :=
  match i with
  | CallBase attr intr asm =>
      attr
      || match intr with
         | Some id => bool_decide (id ∈ riscSSRIntrinsics)
         | None => false
         end
      || asm
  | OtherInst => false
  end.

(** The block [B] is reachable from a reachable block that touches SSR. *)
Definition afterSSR (F : FunctionBody) (B : BasicBlock) : Prop :=
  ∃ B0 i, reachable F B0 ∧ i ∈ instructionsOf F B0 ∧ touchesSSR i = true
          ∧ rtc (isSuccessor F) B0 B.

(** The blocks of the function are among [blocks], none has more than [D]
    successors, and no block lies in more than [depth] loops. *)
Definition bodyWithin (LI : LoopInfo) (F : FunctionBody)
    (blocks : list BasicBlock) (D depth : nat) : Prop :=
  getEntryBlock F ∈ blocks
  ∧ Forall (fun B =>
      successors F B ⊆ blocks
      ∧ (length (successors F B) <= D)%nat
      ∧ is_Some (parentChain depth LI (getLoopFor F B))) blocks.

(** The invariant of the loop of [findLoopsWithSSR] for what it marks:
    the loops around a block visited as marked are invalid; a block
    visited as unmarked that touches SSR has its loops invalid or is (to
    be) visited as marked; and the successors of a visited block and the
    entry block are visited or on the work list. *)
Definition marksSSR (LI : LoopInfo) (F : FunctionBody) (st : WorkState)
    : Prop :=
  (∀ B K, B ∈ visMarked st → loopContains LI F K B → K ∈ invalid st)
  ∧ (∀ B i, B ∈ visUnmarked st → i ∈ instructionsOf F B →
            touchesSSR i = true →
            B ∈ visMarked st ∨ (Some B, true) ∈ worklist st
            ∨ ∀ K, loopContains LI F K B → K ∈ invalid st)
  ∧ (∀ B B2, B ∈ visUnmarked st ∪ visMarked st → B2 ∈ successors F B →
             B2 ∈ visUnmarked st ∪ visMarked st
             ∨ ∃ m, (Some B2, m) ∈ worklist st)
  ∧ (getEntryBlock F ∈ visUnmarked st ∪ visMarked st
     ∨ ∃ m, (Some (getEntryBlock F), m) ∈ worklist st).

(** The invariant for what it does not mark: the blocks on the work list
    are reachable, the marked ones after a block that touches SSR, and
    every invalid loop contains such a block. *)
Definition marksOnlySSR (LI : LoopInfo) (F : FunctionBody) (st : WorkState)
    : Prop :=
  (∀ B m, (Some B, m) ∈ worklist st →
          reachable F B ∧ (m = true → afterSSR F B))
  ∧ (∀ K, K ∈ invalid st → ∃ B, afterSSR F B ∧ loopContains LI F K B).

(** The measure that bounds the iterations of the loop. *)
Definition unvisited (blocks : list BasicBlock) (vis : gset BasicBlock)
    : nat :=
  length (filter (fun B => B ∉ vis) blocks).

Definition workLeft (blocks : list BasicBlock) (D : nat) (st : WorkState)
    : nat :=
  length (worklist st)
  + (D + 2) * (unvisited blocks (visUnmarked st)
               + unvisited blocks (visMarked st)).

(** A call of an SSR intrinsic or of inline assembly: what sets the mark
    in a block that is not marked. *)
Definition startsSSR (i : BlockInst) : bool :=
  match i with
  | CallBase _ intr asm =>
      match intr with
      | Some id => bool_decide (id ∈ riscSSRIntrinsics)
      | None => false
      end
      || asm
  | OtherInst => false
  end.

(** A call of [riscv_ssr_disable]: what removes the mark. *)
Definition isDisable (i : BlockInst) : bool :=
  match i with
  | CallBase _ (Some id) _ =>
      bool_decide (id = SSRIntrinsicID riscv_ssr_disable)
  | _ => false
  end.

(** The blocks of a streaming region: a reachable block that starts SSR,
    and the successors of a block of the region without a call of
    [riscv_ssr_disable]. *)
Inductive inStream (F : FunctionBody) : BasicBlock → Prop :=
  | inStream_start B i :
      reachable F B → i ∈ instructionsOf F B → startsSSR i = true →
      inStream F B
  | inStream_step B B2 :
      inStream F B →
      (∀ i, i ∈ instructionsOf F B → isDisable i = false) →
      B2 ∈ successors F B →
      inStream F B2.

(** The invariant of the loop of [findLoopsWithSSR] for a streaming
    region, on top of [marksSSR]: the successors of a block without
    disable that was visited as marked, and a block that starts SSR and
    was visited as unmarked, are visited as marked or on the work list as
    marked. *)
Definition marksStream (LI : LoopInfo) (F : FunctionBody) (st : WorkState)
    : Prop :=
  marksSSR LI F st
  ∧ (∀ B B2, B ∈ visMarked st →
             (∀ i, i ∈ instructionsOf F B → isDisable i = false) →
             B2 ∈ successors F B →
             B2 ∈ visMarked st ∨ (Some B2, true) ∈ worklist st)
  ∧ (∀ B i, B ∈ visUnmarked st → i ∈ instructionsOf F B →
            startsSSR i = true →
            B ∈ visMarked st ∨ (Some B, true) ∈ worklist st).

(** A function of two blocks: the entry block [0] falls into block [1],
    the one block of the loop [0] of [oneLoop], which pushes to a stream
    and branches back to itself. *)
Definition streamingBody : FunctionBody :=
  {| getEntryBlock := 0%nat;
     instructionsOf := fun B =>
       if decide (B = 1%nat)
       then [CallBase false (Some (SSRIntrinsicID riscv_ssr_push)) false]
       else [OtherInst];
     successors := fun _ => [1%nat];
     getLoopFor := fun B => if decide (B = 1%nat) then Some 0%nat else None |}.

(** The number of calls of the intrinsic [f] among the events. *)
Definition callsOf (f : Intrinsic) (ems : list Emitted) : nat :=
  length (filter (fun e => calleeOf e = Some f) ems).

(** The candidates recorded in [possible] belong to loops that are not
    known to be invalid and that have a preheader and a single exit. *)
Definition candidatesSound (AAA : AffineAccess) (ssrInvalidLoops : gset Loop)
    (possible : gmap Loop (list AffAcc)) : Prop :=
  ∀ L l, possible !! L = Some l → l ≠ [] →
         (L ∉ ssrInvalidLoops) ∧ isValidLoop AAA L = true.

(** The expansions among the events, apart from those of [ems0], are
    expansions of one to three accesses before the terminator of the
    preheader of such a loop. *)
Definition expansionsSound (AAA : AffineAccess) (ssrInvalidLoops : gset Loop)
    (ems0 ems : list Emitted) : Prop :=
  ∀ accs L P, EmExpandAllAt accs L P ∈ ems →
    EmExpandAllAt accs L P ∈ ems0
    ∨ ((L ∉ ssrInvalidLoops) ∧ isValidLoop AAA L = true
       ∧ accs ≠ [] ∧ (length accs <= 3)%nat
       ∧ ∃ Ph, LoopPreheader (getLI AAA) L = Some Ph ∧ P = Terminator Ph).

Definition isExpansion (e : Emitted) : bool :=
  match e with
  | EmExpandAllAt _ _ _ => true
  | _ => false
  end.

(** A call that addresses a data mover names one of the [NUM_SSR] data
    movers 0, 1, 2 as its first argument; a barrier waits for the number
    that follows the one of the data mover just set up. *)
Definition usesDataMovers (e : Emitted) : Prop :=
  match e with
  | EmCall _ f args =>
      match f with
      | riscv_ssr_enable | riscv_ssr_disable => True
      | riscv_ssr_barrier =>
          ∃ d, args = [VConstantInt i32 d] ∧ 1 <= d <= NUM_SSR
      | _ => ∃ d, head args = Some (VConstantInt i32 d) ∧ 0 <= d < NUM_SSR
      end
  | _ => True
  end.
(** * Properties *)

(** ** Arithmetic modulo 2^32 *)

(** Linear arithmetic with the wrap-arounds unfolded to their quotient and
    remainder. *)
Ltac wrap_lia :=
  unfold wrap_int, wrap_unsigned, in_int_range, INT_MIN, INT_MAX in *;
  Z.to_euclidean_division_equations; lia.

Lemma wrap_int_range z : in_int_range (wrap_int z).
Proof. wrap_lia. Qed.

Lemma wrap_int_id z : in_int_range z → wrap_int z = z.
Proof. intros Hz. wrap_lia. Qed.

Lemma wrap_int_add_l a b : wrap_int (wrap_int a + b) = wrap_int (a + b).
Proof. wrap_lia. Qed.

Lemma wrap_int_add_r a b : wrap_int (a + wrap_int b) = wrap_int (a + b).
Proof. wrap_lia. Qed.

Lemma wrap_int_sub_l a b : wrap_int (wrap_int a - b) = wrap_int (a - b).
Proof. wrap_lia. Qed.

Lemma wrap_int_sub_r a b : wrap_int (a - wrap_int b) = wrap_int (a - b).
Proof. wrap_lia. Qed.

Lemma wrap_int_sub_unsigned a b :
  wrap_int (a - wrap_unsigned b) = wrap_int (a - b).
Proof. wrap_lia. Qed.

Lemma wrap_unsigned_id z : 0 <= z < 2 ^ 32 → wrap_unsigned z = z.
Proof. intros Hz. wrap_lia. Qed.

(** ** The gain estimator *)

Lemma sumZ_cons x l : sumZ (x :: l) = x + sumZ l.
Proof. done. Qed.

Lemma sumZ_app l k : sumZ (l ++ k) = sumZ l + sumZ k.
Proof.
  induction l as [|x l IH]; [done|].
  rewrite <- app_comm_cons, !sumZ_cons. lia.
Qed.

Section GainProps.
Context (flags : Flags) (AAA : AffineAccess).

Lemma expandCost_fold A l c :
  fold_left (fun cost i =>
      let cost := wrap_int (cost + getExpressionSize (getStep AAA A i)) in
      let cost := wrap_int (cost + getExpressionSize (getRep AAA A i)) in
      let cost := wrap_int (cost + EST_MUL_COST) in
      if 1 <? i then wrap_int (cost + 1) else cost) l (wrap_int c)
  = wrap_int (c + sumZ (dimCost AAA A <$> l)).
Proof.
  revert c. induction l as [|i l IH]; intros c.
  - simpl. f_equal. lia.
  - rewrite fmap_cons, sumZ_cons. cbn [fold_left].
    unfold dimCost at 1, EST_MUL_COST.
    destruct (1 <? i); rewrite IH;
      generalize (sumZ (dimCost AAA A <$> l)) as rest;
      generalize (getExpressionSize (getStep AAA A i)) as s;
      generalize (getExpressionSize (getRep AAA A i)) as r;
      intros r s rest; wrap_lia.
Qed.

Lemma getEstExpandCost_closed A dim :
  getEstExpandCost AAA A dim
  = wrap_int (expandCostUpTo AAA A dim (dim - 1)).
Proof.
  unfold getEstExpandCost, expandCostUpTo. rewrite expandCost_fold.
  f_equal.
Qed.

Lemma conflictStep_cost accs vis L g p :
  conflictStep AAA accs vis L (wrap_int g) p
  = c ← conflictCost AAA accs vis L p; Some (wrap_int (g - c)).
Proof.
  unfold conflictStep, conflictCost. destruct p as [B []]; simpl; try done.
  - by rewrite Z.sub_0_r.
  - destruct (decide (B ∈ vis)); simpl; [by rewrite Z.sub_0_r|].
    destruct (decide (B ∈ accs)); simpl; f_equal.
    + wrap_lia.
    + generalize (getEstExpandCost AAA B (loopToDimension AAA B L)).
      intros. wrap_lia.
Qed.

Lemma conflictLoop_cost accs vis L ps g :
  conflictLoop AAA accs vis L ps (wrap_int g)
  = c ← conflictsCost AAA accs vis L ps; Some (wrap_int (g - c)).
Proof.
  revert g. induction ps as [|p ps IH]; intros g; simpl.
  - by rewrite Z.sub_0_r.
  - rewrite conflictStep_cost.
    destruct (conflictCost AAA accs vis L p) as [c|]; simpl; [|done].
    rewrite IH.
    destruct (conflictsCost AAA accs vis L ps) as [cs|]; simpl; [|done].
    do 2 f_equal. lia.
Qed.

Lemma repsLoop_fold A l reps (cl : gset Loop) :
  fold_left (fun '(reps, contLoops) d =>
      let loopTC := estLoopTC AAA A d in
      let reps := Z.max (wrap_int (reps * loopTC)) reps in
      (reps, {[ getLoop AAA A d ]} ∪ contLoops)) l (reps, cl)
  = (fold_left (fun reps d =>
       Z.max (wrap_int (reps * estLoopTC AAA A d)) reps) l reps,
     fold_left (fun contLoops d => {[ getLoop AAA A d ]} ∪ contLoops) l cl).
Proof.
  revert reps cl. induction l as [|d l IH]; intros reps cl; simpl; [done|].
  apply IH.
Qed.

Lemma repsLoop_fst A dim cl :
  (repsLoop AAA A dim cl).1 = (repsLoop AAA A dim ∅).1.
Proof. unfold repsLoop. by rewrite !repsLoop_fold. Qed.

(** The running product never drops below its start value. *)
Lemma reps_fold_ge A l reps :
  reps <= fold_left (fun reps d =>
            Z.max (wrap_int (reps * estLoopTC AAA A d)) reps) l reps.
Proof.
  revert reps. induction l as [|d l IH]; intros reps; simpl; [lia|].
  etrans; [|apply IH]. lia.
Qed.

Lemma tripProduct_ge_1 A L : 1 <= tripProduct AAA A L.
Proof.
  unfold tripProduct, repsLoop. rewrite repsLoop_fold. simpl.
  apply reps_fold_ge.
Qed.

Lemma tripSum_ge Accs L : Z.of_nat (length Accs) <= tripSum AAA Accs L.
Proof.
  unfold tripSum. induction Accs as [|A Accs IH]; [simpl; lia|].
  rewrite fmap_cons, sumZ_cons, length_cons, Nat2Z.inj_succ.
  pose proof (tripProduct_ge_1 A L). lia.
Qed.

Lemma estGainLoop_formula m accs L Accs g vis cl :
  estGainLoop flags AAA m accs L Accs (wrap_int g, vis, cl)
  = cs ← checksCost flags AAA accs vis L Accs;
    Some (wrap_int (g + sumZ ((fun A =>
                         let dim := loopToDimension AAA A L in
                         m * tripProduct AAA A L
                         - expandCostUpTo AAA A dim (dim + -1)) <$> Accs)
                    - cs),
          list_to_set Accs ∪ vis,
          fold_left (fun contLoops A =>
            (repsLoop AAA A (loopToDimension AAA A L) contLoops).2) Accs cl).
Proof.
  revert g vis cl. induction Accs as [|A Accs IH]; intros g vis cl.
  - simpl. unfold sumZ. simpl. rewrite Z.add_0_r, Z.sub_0_r.
    by rewrite (left_id_L ∅ (∪)).
  - rewrite fmap_cons, sumZ_cons.
    cbn [estGainLoop checksCost fold_left list_to_set].
    unfold estGainStep.
    rewrite getEstExpandCost_closed, wrap_int_sub_r, wrap_int_sub_l.
    set (dim := loopToDimension AAA A L).
    set (vis1 := {[A]} ∪ vis).
    assert (Hgain :
      (if SSRNoIntersectCheck flags
       then Some (wrap_int (g - expandCostUpTo AAA A dim (dim - 1)))
       else conflictLoop AAA accs vis1 L (getConflicts AAA A L)
              (wrap_int (g - expandCostUpTo AAA A dim (dim - 1))))
      = c ← (if SSRNoIntersectCheck flags then Some 0
             else conflictsCost AAA accs vis1 L (getConflicts AAA A L));
        Some (wrap_int (g - expandCostUpTo AAA A dim (dim - 1) - c))).
    { destruct (SSRNoIntersectCheck flags); simpl.
      - by rewrite Z.sub_0_r.
      - apply conflictLoop_cost. }
    rewrite Hgain. clear Hgain.
    destruct (if SSRNoIntersectCheck flags then Some 0
              else conflictsCost AAA accs vis1 L (getConflicts AAA A L))
      as [c|]; simpl; [|done].
    destruct (repsLoop AAA A dim cl) as [reps cl1] eqn:Hreps.
    assert (Hr : reps = tripProduct AAA A L).
    { unfold tripProduct. fold dim. rewrite <- (repsLoop_fst A dim cl).
      by rewrite Hreps. }
    assert (Hstep : ∀ x,
      wrap_int ((if SSRNoTCDMCheck flags then wrap_int x
                 else wrap_int (wrap_int x - 4))
                + wrap_int (m * reps))
      = wrap_int (x - (if SSRNoTCDMCheck flags then 0 else 4) + m * reps)).
    { intros x. generalize (m * reps). intros.
      destruct (SSRNoTCDMCheck flags); wrap_lia. }
    rewrite Hstep. cbn [mbind option_bind]. rewrite IH. clear Hstep IH.
    destruct (checksCost flags AAA accs vis1 L Accs) as [cs|]; simpl; [|done].
    subst reps vis1.
    rewrite (assoc_L (∪)), (comm_L (∪) (list_to_set Accs) {[A]}).
    replace (dim + -1) with (dim - 1) by lia.
    do 4 f_equal. lia.
Qed.

(** The estimator computes the formula, up to the wrap-around of [int]. *)
Lemma getEstGainWith_formula m Accs L :
  getEstGainWith flags AAA m Accs L
  = wrap_int <$> gainFormula flags AAA m (-1) Accs L.
Proof.
  unfold getEstGainWith, gainFormula.
  change 0 with (wrap_int 0) at 1. rewrite estGainLoop_formula.
  destruct (checksCost flags AAA (list_to_set Accs) ∅ L Accs) as [cs|];
    simpl; [|done].
  unfold boundChecksCost, contributingLoops.
  destruct (SSRNoBoundCheck flags); simpl.
  - do 2 f_equal; lia.
  - rewrite wrap_int_sub_unsigned, wrap_int_sub_l. do 2 f_equal; lia.
Qed.

End GainProps.

(** *** C1 *)

(** C1, as stated, fails.  One access of dimension 1, all checks off: the
    code charges the base address only (gain 2 * 25 - 1 = 49); with the
    dimensions 1 .. dim charged the gain would be 44. *)
Lemma getEstGain_not_up_to_dim :
  getEstExpandCost (oneAccess false 1 (symbolicSCEV 1) trueCond) 0%nat 1 = 1
  ∧ expandCostUpTo (oneAccess false 1 (symbolicSCEV 1) trueCond) 0%nat 1 1 = 6
  ∧ getEstGain noCheckFlags (oneAccess false 1 (symbolicSCEV 1) trueCond)
      [0%nat] 0%nat = Some 49
  ∧ wrap_int <$> gainFormula noCheckFlags
      (oneAccess false 1 (symbolicSCEV 1) trueCond) EST_MEMOP_COST 0
      [0%nat] 0%nat = Some 44.
Proof. by vm_compute. Qed.

(** C1, amended: for every candidate set at loop L the estimator subtracts,
    per access a, the expression size of baseAddr(a) plus, for every
    dimension d from 1 to dim(a) - 1 inclusive, expression_size(step(a,d)) +
    expression_size(rep(a,d)) + MUL_COST, plus 1 for each d > 1 (in 32-bit
    int arithmetic). *)
Theorem getEstGain_subtracts_expand_cost flags AAA Accs L :
  getEstGain flags AAA Accs L
  = wrap_int <$> gainFormula flags AAA EST_MEMOP_COST (-1) Accs L
  ∧ ∀ A dim, getEstExpandCost AAA A dim
             = wrap_int (expandCostUpTo AAA A dim (dim - 1)).
Proof.
  split.
  - apply getEstGainWith_formula.
  - apply getEstExpandCost_closed.
Qed.

(** *** C9 *)

Lemma gain_terms_split AAA m (cost : AffAcc → Z) Accs L :
  sumZ ((fun A => m * tripProduct AAA A L - cost A) <$> Accs)
  = m * tripSum AAA Accs L - sumZ (cost <$> Accs).
Proof.
  unfold tripSum. induction Accs as [|A Accs IH]; [simpl; lia|].
  rewrite !fmap_cons, !sumZ_cons, IH. lia.
Qed.

(** How the gain moves with the cost of a memory operation. *)
Lemma getEstGainWith_shift flags AAA Accs L m1 m2 g1 :
  getEstGainWith flags AAA m1 Accs L = Some g1 →
  getEstGainWith flags AAA m2 Accs L
  = Some (wrap_int (g1 + (m2 - m1) * tripSum AAA Accs L)).
Proof.
  rewrite !getEstGainWith_formula. unfold gainFormula.
  destruct (checksCost flags AAA (list_to_set Accs) ∅ L Accs) as [cs|];
    simpl; [|done].
  intros [= <-]. f_equal.
  rewrite !(gain_terms_split AAA _
    (fun A => expandCostUpTo AAA A (loopToDimension AAA A L)
                (loopToDimension AAA A L + -1))).
  generalize (sumZ ((fun A => expandCostUpTo AAA A (loopToDimension AAA A L)
                (loopToDimension AAA A L + -1)) <$> Accs)) as C.
  generalize (boundChecksCost flags AAA Accs L) as B.
  generalize (tripSum AAA Accs L) as R. intros R B C.
  replace (m2 * R - C - cs - B)
    with (m1 * R - C - cs - B + (m2 - m1) * R) by lia.
  generalize ((m2 - m1) * R) as d. generalize (m1 * R) as e. intros.
  wrap_lia.
Qed.

(** C9, as stated, fails.  One access whose trip count is the constant
    10^9: with a memory operation at 2 the gain is 2 * 10^9 - 1, with 3 the
    product 3 * 10^9 wraps around and the gain is negative. *)
Lemma getEstGain_not_monotone :
  getEstGainWith noCheckFlags
    (oneAccess false 1 (constantSCEV 1000000000) trueCond) 2 [0%nat] 0%nat
  = Some 1999999999
  ∧ getEstGainWith noCheckFlags
      (oneAccess false 1 (constantSCEV 1000000000) trueCond) 3 [0%nat] 0%nat
    = Some (-1294967297).
Proof. by vm_compute. Qed.

(** C9, amended: for a fixed candidate set and loop, raising MEMOP_COST from
    m1 to m2 never decreases the reported gain as long as the raised gain,
    g1 + (m2 - m1) * (sum of the trip products), still fits an int; every
    trip product is at least 1. *)
Theorem getEstGain_monotone_without_overflow flags AAA Accs L m1 m2 g1 :
  m1 <= m2 →
  getEstGainWith flags AAA m1 Accs L = Some g1 →
  g1 + (m2 - m1) * tripSum AAA Accs L <= INT_MAX →
  (∀ A, 1 <= tripProduct AAA A L)
  ∧ ∃ g2, getEstGainWith flags AAA m2 Accs L = Some g2 ∧ g1 <= g2.
Proof.
  intros Hm Hg1 Hfit. split; [intros A; apply tripProduct_ge_1|].
  eexists. split; [by apply getEstGainWith_shift|].
  pose proof (tripSum_ge AAA Accs L) as HR.
  assert (Hg1r : in_int_range g1).
  { rewrite getEstGainWith_formula in Hg1.
    destruct (gainFormula flags AAA m1 (-1) Accs L); simplify_eq/=.
    apply wrap_int_range. }
  assert (0 <= (m2 - m1) * tripSum AAA Accs L) by nia.
  rewrite wrap_int_id; [lia|]. unfold in_int_range in *. lia.
Qed.

Lemma getEstGain_monotone_without_overflow_witness :
  (∀ A, 1 <= tripProduct (oneAccess false 1 (symbolicSCEV 1) runtimeCond)
               A 0%nat)
  ∧ ∃ g2, getEstGainWith defaultFlags
            (oneAccess false 1 (symbolicSCEV 1) runtimeCond) 3
            [0%nat] 0%nat = Some g2 ∧ 43 <= g2.
Proof.
  apply (getEstGain_monotone_without_overflow defaultFlags
           (oneAccess false 1 (symbolicSCEV 1) runtimeCond)
           [0%nat] 0%nat 2 3 43).
  - lia.
  - vm_compute. reflexivity.
  - vm_compute. discriminate.
Defined.

(** ** Candidate selection *)

Section CandidateProps.
Context (flags : Flags) `{StdSort} (AAA : AffineAccess).

Lemma comp_strict_weak L : StrictWeakOrder (comp AAA L).
Proof.
  unfold StrictWeakOrder, comp. split.
  - intros x y.
    destruct (isWrite AAA x), (isWrite AAA y); simpl;
      rewrite ?andb_false_r, ?andb_true_r, ?orb_false_r;
      repeat match goal with
             | |- context [?a <? ?b] => destruct (Z.ltb_spec a b)
             | |- context [?a =? ?b] => destruct (Z.eqb_spec a b)
             end; simpl; intros; try done; lia.
  - intros x y z.
    destruct (isWrite AAA x), (isWrite AAA y), (isWrite AAA z); simpl;
      rewrite ?andb_false_r, ?andb_true_r, ?orb_false_r;
      repeat match goal with
             | |- context [?a <? ?b] => destruct (Z.ltb_spec a b)
             | |- context [?a =? ?b] => destruct (Z.eqb_spec a b)
             end; simpl; intros; try done; lia.
Qed.

Lemma isValid_returns A L :
  isWellFormed AAA A L = true →
  (isWrite AAA A = true →
   Forall (fun I => isStoreInst I = true) (getAccesses AAA A)) →
  is_Some (isValid AAA A L).
Proof.
  intros Hwf Hst. unfold isValid. rewrite Hwf.
  destruct (isWrite AAA A) eqn:Hw.
  - specialize (Hst eq_refl).
    match goal with |- is_Some (foldM ?f ?l ?b ≫= _) =>
      assert (Hf : ∀ valid, is_Some (foldM f l valid)) end.
    { induction Hst as [|I Is HI _ IH]; intros valid; simpl; [done|].
      destruct I; [discriminate HI|]. simpl. apply IH. }
    by destruct (Hf true) as [v ->].
  - match goal with |- is_Some (foldM ?f ?l ?b ≫= _) =>
      assert (Hf : ∀ valid, is_Some (foldM f l valid)) end.
    { clear Hst. induction (getAccesses AAA A) as [|I Is IH];
        intros valid; simpl; [done|apply IH]. }
    by destruct (Hf true) as [v ->].
Qed.

Lemma filterValid_returns L accs :
  (∀ A, A ∈ accs → is_Some (isValid AAA A L)) →
  is_Some (filterValid AAA L accs).
Proof.
  induction accs as [|A accs IH]; intros Hok; simpl; [done|].
  destruct (Hok A) as [ok ->]; [left|]. simpl.
  destruct IH as [valid ->]; [|done].
  intros B HB. apply Hok. by right.
Qed.

Lemma selectCandidates_returns L known :
  accessesOk flags AAA L → is_Some (selectCandidates flags AAA L known).
Proof.
  intros Hok. unfold selectCandidates.
  destruct (known || negb (isValidLoop AAA L)); simpl.
  - done.
  - destruct (filterValid_returns L
      (getExpandableAccesses AAA L (SSRConflictFreeOnly flags)))
      as [valid ->]; [|done].
    intros A HA. destruct (Hok A HA). by apply isValid_returns.
Qed.

Lemma selectCandidates_sorted L known l b :
  selectCandidates flags AAA L known = Some (l, b) →
  ∃ valid, l = take (Z.to_nat NUM_SSR) valid
           ∧ StronglySorted (fun x y => comp AAA L y x = false) valid.
Proof.
  unfold selectCandidates.
  destruct (known || negb (isValidLoop AAA L)); simpl; intros Hsel.
  - injection Hsel as <- <-. eexists. split; [done|].
    apply std_sort_sorted, comp_strict_weak.
  - destruct (filterValid AAA L _) as [valid|]; simplify_eq/=.
    eexists. split; [done|]. apply std_sort_sorted, comp_strict_weak.
Qed.

Lemma StronglySorted_lookup {A} (R : relation A) l i j x y :
  StronglySorted R l → (i < j)%nat →
  l !! i = Some x → l !! j = Some y → R x y.
Proof.
  intros Hs. revert i j. induction Hs as [|a l Hs IH Hall]; intros i j Hij Hi Hj.
  - done.
  - destruct j as [|j]; [lia|]. destruct i as [|i]; simpl in *.
    + injection Hi as <-. rewrite Forall_forall in Hall.
      apply Hall. by eapply list_elem_of_lookup_2.
    + apply (IH i j); [lia|done..].
Qed.

End CandidateProps.

(** *** C3 *)

(** C3, as stated, fails in its last part.  With two reads of dimension 1
    and 2 the candidate set is the access of dimension 1 followed by the
    access of dimension 2: the smaller dimension comes first. *)
Lemma selectCandidates_smaller_dimension_first :
  selectCandidates (H := mergeSort) defaultFlags twoReads 0%nat false
  = Some ([0%nat; 1%nat], false)
  ∧ loopToDimension twoReads 0%nat 0%nat = 1
  ∧ loopToDimension twoReads 1%nat 0%nat = 2.
Proof. by vm_compute. Qed.

(** C3, amended: for every loop L the candidate set built for L holds at
    most 3 (NUM_STREAMS) accesses and is ordered so that accesses of smaller
    dimension precede those of larger dimension, and reads precede writes
    when the dimensions tie. *)
Theorem selectCandidates_at_most_three_sorted
    flags `{StdSort} AAA (L : Loop) (known : bool) :
  accessesOk flags AAA L →
  ∃ l b, selectCandidates flags AAA L known = Some (l, b)
    ∧ (length l <= 3)%nat
    ∧ ∀ (i j : nat) (A B : AffAcc), (i < j)%nat →
        l !! i = Some A → l !! j = Some B →
        loopToDimension AAA A L <= loopToDimension AAA B L
        ∧ (loopToDimension AAA A L = loopToDimension AAA B L →
           isWrite AAA A = true → isWrite AAA B = true).
Proof.
  intros Hok.
  destruct (selectCandidates_returns flags AAA L known Hok) as [[l b] Hsel].
  exists l, b. split; [done|].
  destruct (selectCandidates_sorted flags AAA L known l b Hsel)
    as (valid & -> & Hsorted).
  split.
  - rewrite length_take. change (Z.to_nat NUM_SSR) with 3%nat. lia.
  - intros i j A B Hij Hi Hj.
    apply lookup_take_Some in Hi as [Hi _].
    apply lookup_take_Some in Hj as [Hj _].
    pose proof (StronglySorted_lookup _ _ _ _ _ _ Hsorted Hij Hi Hj) as Hc.
    simpl in Hc. unfold comp in Hc.
    apply orb_false_iff in Hc as [Hlt Heq].
    apply Z.ltb_ge in Hlt. split; [done|].
    intros Hd HwA. rewrite Hd, Z.eqb_refl, HwA in Heq. simpl in Heq.
    by destruct (isWrite AAA B).
Qed.

Lemma selectCandidates_at_most_three_sorted_witness :
  ∃ l b, selectCandidates (H := mergeSort) defaultFlags twoReads 0%nat false
         = Some (l, b)
    ∧ (length l <= 3)%nat
    ∧ ∀ (i j : nat) (A B : AffAcc), (i < j)%nat →
        l !! i = Some A → l !! j = Some B →
        loopToDimension twoReads A 0%nat <= loopToDimension twoReads B 0%nat
        ∧ (loopToDimension twoReads A 0%nat = loopToDimension twoReads B 0%nat →
           isWrite twoReads A = true → isWrite twoReads B = true).
Proof.
  apply (selectCandidates_at_most_three_sorted defaultFlags (H := mergeSort)
           twoReads 0%nat false).
  intros A _. split; [reflexivity|]. simpl. discriminate.
Defined.

(** ** The scratchpad guard *)

Lemma bitsOf_nonneg ty : 0 <= bitsOf ty.
Proof. destruct ty; simpl; lia. Qed.

Lemma land_lt_pow2 a b n :
  0 <= n → 0 <= a < 2 ^ n → 0 <= b → 0 <= Z.land a b < 2 ^ n.
Proof.
  intros Hn Ha Hb.
  rewrite <- (Z.mod_small a (2 ^ n)) by done.
  rewrite <- Z.land_ones, <- Z.land_assoc, (Z.land_comm (Z.ones n) b),
    Z.land_assoc, Z.land_ones by done.
  apply Z.mod_pos_bound. lia.
Qed.

(** A value fits the bits of its type. *)
Lemma evalValue_range ρ v : 0 <= evalValue ρ v < 2 ^ bitsOf (getType v).
Proof.
  induction v as [ty c|id ty|a IHa b IHb|a IHa b IHb|a IHa b IHb]; simpl.
  - unfold constValue. apply Z.mod_pos_bound.
    pose proof (bitsOf_nonneg ty). lia.
  - apply Z.mod_pos_bound. pose proof (bitsOf_nonneg ty). lia.
  - destruct (_ <=? _); lia.
  - apply land_lt_pow2; [apply bitsOf_nonneg|done|lia].
  - apply Z.mod_pos_bound. pose proof (bitsOf_nonneg (getType a)). lia.
Qed.

Lemma evalValue_i1 ρ v :
  getType v = IntegerTy 1 → evalValue ρ v = 0 ∨ evalValue ρ v = 1.
Proof.
  intros Hty. pose proof (evalValue_range ρ v) as Hr.
  rewrite Hty in Hr. simpl in Hr. lia.
Qed.

Lemma evalValue_tcdmCheck ρ E :
  21 <= bitsOf (getType (LowerBound E)) →
  21 <= bitsOf (getType (UpperBound E)) →
  (evalValue ρ (tcdmCheck E) = 0 ∨ evalValue ρ (tcdmCheck E) = 1)
  ∧ (evalValue ρ (tcdmCheck E) = 1 ↔
     0x100000 <= evalValue ρ (LowerBound E)
     ∧ evalValue ρ (UpperBound E) <= 0x120000).
Proof.
  intros Hl Hu. unfold tcdmCheck. cbn [evalValue]. unfold constValue.
  assert (Hpow : ∀ n, 21 <= n → 2 ^ 21 <= 2 ^ n).
  { intros n Hn. apply Z.pow_le_mono_r; lia. }
  rewrite !Z.mod_small by (split; [lia|]; eapply Z.lt_le_trans;
                           [|apply Hpow; eassumption]; lia).
  destruct (Z.leb_spec 0x100000 (evalValue ρ (LowerBound E)));
    destruct (Z.leb_spec (evalValue ρ (UpperBound E)) 0x120000);
    simpl; split; try tauto; try lia; split; try lia; done.
Qed.

Lemma tcdm_fold_snd PhT exp ems Cond0 :
  (fold_left (fun '(ems, Cond) E =>
      let '(chk_ems, chk) := GenerateTCDMCheck E PhT in
      (ems ++ chk_ems ++ [EmInst PhT (VAnd Cond chk)], VAnd Cond chk))
    exp (ems, Cond0)).2
  = fold_left (fun C E => VAnd C (tcdmCheck E)) exp Cond0.
Proof.
  revert ems Cond0. induction exp as [|E exp IH]; intros ems Cond0; [done|].
  simpl. apply IH.
Qed.

Lemma guard_fold_type exp Cond0 :
  getType (fold_left (fun C E => VAnd C (tcdmCheck E)) exp Cond0)
  = getType Cond0.
Proof.
  revert Cond0. induction exp as [|E exp IH]; intros Cond0; [done|].
  simpl. by rewrite IH.
Qed.

Lemma guard_fold_eval ρ exp Cond0 :
  (evalValue ρ Cond0 = 0 ∨ evalValue ρ Cond0 = 1) →
  (∀ E, E ∈ exp → 21 <= bitsOf (getType (LowerBound E))
                  ∧ 21 <= bitsOf (getType (UpperBound E))) →
  evalValue ρ (fold_left (fun C E => VAnd C (tcdmCheck E)) exp Cond0) = 1
  ↔ evalValue ρ Cond0 = 1
    ∧ ∀ E, E ∈ exp → 0x100000 <= evalValue ρ (LowerBound E)
                     ∧ evalValue ρ (UpperBound E) <= 0x120000.
Proof.
  revert Cond0. induction exp as [|E exp IH]; intros Cond0 Hc Hbits.
  - simpl. split; [intros ->; split; [done|]|tauto].
    intros E HE. by apply elem_of_nil in HE.
  - cbn [fold_left].
    destruct (Hbits E) as [Hl Hu]; [left|].
    destruct (evalValue_tcdmCheck ρ E Hl Hu) as [Hchk Hiff].
    rewrite IH.
    + cbn [evalValue]. split.
      * intros [Hand Hrest].
        assert (evalValue ρ Cond0 = 1 ∧ evalValue ρ (tcdmCheck E) = 1)
          as [H1 H2].
        { destruct Hc as [Hc|Hc], Hchk as [Hk|Hk];
            rewrite Hc, Hk in Hand; simpl in Hand; try done; lia. }
        split; [done|]. intros E' [->|HE']%elem_of_cons; [by apply Hiff|].
        by apply Hrest.
      * intros [H1 Hall]. split.
        -- assert (evalValue ρ (tcdmCheck E) = 1) as ->
             by (apply Hiff, Hall; left).
           by rewrite H1.
        -- intros E' HE'. apply Hall. by right.
    + cbn [evalValue]. destruct Hc as [->| ->], Hchk as [->| ->]; simpl; tauto.
    + intros E' HE'. apply Hbits. by right.
Qed.

(** *** C8 *)

(** C8: with address-range checks enabled, the guard emitted for each
    expanded access is the conjunction of the unsigned comparisons
    0x100000 <= LowerBound and UpperBound <= 0x120000 (both bounds
    inclusive), and it is ANDed into Cond: Cond holds at run time iff the
    condition of the analysis holds and every access lies in the
    scratchpad. *)
Theorem expandInLoop_scratchpad_guard flags AAA accs (L : Loop) exp Cond ems :
  SSRNoTCDMCheck flags = false →
  expandInLoop flags AAA accs L = Some (exp, Cond, ems) →
  ∃ Cond0,
    expandAllAt AAA accs L (negb (SSRNoIntersectCheck flags))
                (negb (SSRNoBoundCheck flags)) = (exp, Some Cond0)
    ∧ Cond = fold_left (fun C E =>
               VAnd C (VAnd (VICmpULE
                               (VConstantInt (getType (LowerBound E)) 0x100000)
                               (LowerBound E))
                            (VICmpULE
                               (UpperBound E)
                               (VConstantInt (getType (UpperBound E)) 0x120000))))
             exp Cond0
    ∧ ∀ ρ,
        (∀ E, E ∈ exp → 21 <= bitsOf (getType (LowerBound E))
                        ∧ 21 <= bitsOf (getType (UpperBound E))) →
        (evalValue ρ Cond = 1 ↔
         evalValue ρ Cond0 = 1
         ∧ ∀ E, E ∈ exp → 0x100000 <= evalValue ρ (LowerBound E)
                          ∧ evalValue ρ (UpperBound E) <= 0x120000).
Proof.
  intros Hflag. unfold expandInLoop. rewrite Hflag. simpl.
  destruct (bool_decide (accs = [])); [done|].
  destruct (NUM_SSR <? _); [done|].
  destruct (LoopPreheader (getLI AAA) L) as [Ph|]; [|done]. simpl.
  destruct (expandAllAt AAA accs L _ _) as [exp0 [Cond0|]]; [|done]. simpl.
  match goal with |- context [fold_left ?f exp0 ?i] =>
    destruct (fold_left f exp0 i) as [ems1 Cond1] eqn:Hp end.
  assert (Hsnd : Cond1 = fold_left (fun C E => VAnd C (tcdmCheck E)) exp0 Cond0).
  { change Cond1 with ((ems1, Cond1).2). rewrite <- Hp.
    exact (tcdm_fold_snd (Terminator Ph) exp0 [] Cond0). }
  subst Cond1. clear Hp.
  case_bool_decide as Hty; [|done]. intros [= -> <- <-].
  exists Cond0. split; [done|]. split; [done|].
  intros ρ Hbits. apply guard_fold_eval; [|done].
  apply evalValue_i1. by rewrite <- Hty, guard_fold_type.
Qed.

Lemma expandInLoop_scratchpad_guard_witness :
  ∃ exp Cond ems,
    expandInLoop defaultFlags
      (oneAccess false 1 (symbolicSCEV 1) runtimeCond) [0%nat] 0%nat
    = Some (exp, Cond, ems)
    ∧ ∃ Cond0,
      (oneExpanded <$> [0%nat], Some runtimeCond) = (exp, Some Cond0)
      ∧ Cond = fold_left (fun C E =>
               VAnd C (VAnd (VICmpULE
                               (VConstantInt (getType (LowerBound E)) 0x100000)
                               (LowerBound E))
                            (VICmpULE
                               (UpperBound E)
                               (VConstantInt (getType (UpperBound E)) 0x120000))))
             exp Cond0
      ∧ ∀ ρ,
        (∀ E, E ∈ exp → 21 <= bitsOf (getType (LowerBound E))
                        ∧ 21 <= bitsOf (getType (UpperBound E))) →
        (evalValue ρ Cond = 1 ↔
         evalValue ρ Cond0 = 1
         ∧ ∀ E, E ∈ exp → 0x100000 <= evalValue ρ (LowerBound E)
                          ∧ evalValue ρ (UpperBound E) <= 0x120000).
Proof.
  eexists _, _, _. split; [vm_compute; reflexivity|].
  eapply (expandInLoop_scratchpad_guard defaultFlags
            (oneAccess false 1 (symbolicSCEV 1) runtimeCond) [0%nat] 0%nat).
  - reflexivity.
  - vm_compute. reflexivity.
Defined.

(** ** Emission of the intrinsics *)

Lemma foldM_invariant {A B} (P : B → Prop) (f : B → A → option B) l b :
  P b →
  (∀ b a, a ∈ l → P b → ∃ b', f b a = Some b' ∧ P b') →
  ∃ b', foldM f l b = Some b' ∧ P b'.
Proof.
  revert b. induction l as [|a l IH]; intros b Hb Hstep; simpl; [by eauto|].
  destruct (Hstep b a) as (b1 & -> & Hb1); [left|done|]. simpl.
  apply IH; [done|]. intros b2 a2 Ha2. apply Hstep. by right.
Qed.

Lemma foldM_app {A B} (f : B → A → option B) l k b :
  foldM f (l ++ k) b = (b' ← foldM f l b; foldM f k b').
Proof.
  revert b. induction l as [|a l IH]; intros b; simpl; [done|].
  destruct (f b a) as [b1|]; simpl; [apply IH|done].
Qed.

Lemma emittedInPlace_call PhT ExP p f args :
  p = PhT ∨ p = ExP ∨ (∃ I, p = AtInst I) →
  emittedInPlace PhT ExP (EmCall p f args).
Proof. intros Hp. split; [done|]. by intros q [= <-]. Qed.

Lemma emittedInPlace_inst PhT ExP p v :
  p = PhT ∨ p = ExP ∨ (∃ I, p = AtInst I) →
  emittedInPlace PhT ExP (EmInst p v).
Proof. intros Hp. split; [done|]. by intros q [= <-]. Qed.

Lemma emittedInPlace_erase PhT ExP I : emittedInPlace PhT ExP (EmErase I).
Proof. by split. Qed.

Lemma emittedInPlace_replace PhT ExP I v :
  emittedInPlace PhT ExP (EmReplaceWithPop I v).
Proof. by split. Qed.

(** Events put at the end of a log that is in place. *)
Ltac in_place :=
  repeat (apply Forall_app; split; [try done|]);
  repeat first
    [ apply Forall_nil_2
    | apply Forall_cons_2;
      [ first [ apply emittedInPlace_erase
              | apply emittedInPlace_replace
              | apply emittedInPlace_call; by eauto
              | apply emittedInPlace_inst; by eauto ] | ] ].

Section EmissionProps.
Context (flags : Flags) (AAA : AffineAccess).

Lemma GenerateSSRSetup_in_place E dmid PhT ExP :
  expandedOk flags AAA E →
  ∃ ems, GenerateSSRSetup flags AAA E dmid PhT = Some ems
         ∧ Forall (emittedInPlace PhT ExP) ems.
Proof.
  intros (Hdim & Hreps & Hpsr & Hstores & Hverbose). unfold GenerateSSRSetup.
  assert ((if SSRVerbose flags then printInfo AAA E else Some ()) = Some ())
    as ->.
  { destruct (SSRVerbose flags); [|done]. unfold printInfo.
    destruct (getAccesses AAA (Access E)); [by destruct Hverbose|done]. }
  cbn [mbind option_bind].
  assert ((getDimension E <=? SSR_MAX_DIM) = true) as ->.
  { unfold getDimension, SSR_MAX_DIM. apply Z.leb_le. lia. }
  set (DMid := VConstantInt i32 dmid).
  match goal with |- context [foldM ?f (seq 0 _) []] =>
    destruct (foldM_invariant (Forall (emittedInPlace PhT ExP)) f
                (seq 0 (length (Steps E))) []) as (bs & -> & Hbs) end.
  { constructor. }
  { intros ems i Hi%elem_of_seq Hems.
    destruct (lookup_lt_is_Some_2 (Steps E) i) as [Stride HS]; [lia|].
    destruct (lookup_lt_is_Some_2 (Reps E) i) as [Bound HB]; [lia|].
    destruct (lookup_lt_is_Some_2 boundStrideFunctions i) as [fn Hfn];
      [simpl; lia|].
    remember boundStrideFunctions as fns eqn:Hfns.
    destruct i as [|j]; rewrite HS; simpl.
    - rewrite HB. simpl. rewrite Hfn. simpl. eexists. split; [done|].
      simpl. in_place.
    - destruct (lookup_lt_is_Some_2 (PrefixSumRanges E) j) as [P ->]; [lia|].
      simpl. rewrite HB. simpl. rewrite Hfn. simpl. eexists. split; [done|].
      simpl. in_place. }
  simpl.
  assert (Hbody : ∃ body n_reps,
    (if isWrite AAA (Access E)
     then foldM (fun '(ems, n_reps) I =>
              match I with
              | LoadInst _ _ => None
              | StoreInst _ v =>
                  Some (ems ++ [EmCall (AtInst I) riscv_ssr_push [DMid; v];
                                EmErase I], wrap_unsigned (n_reps + 1))
              end) (getAccesses AAA (Access E)) ([], 0)
     else foldM (fun '(ems, n_reps) I =>
              Some (ems ++ [EmCall (AtInst I) riscv_ssr_pop [DMid];
                            EmReplaceWithPop I DMid],
                    wrap_unsigned (n_reps + 1)))
            (getAccesses AAA (Access E)) ([], 0))
    = Some (body, n_reps) ∧ Forall (emittedInPlace PhT ExP) body).
  { destruct (isWrite AAA (Access E)).
    - match goal with |- context [foldM ?f ?l ?b] =>
        destruct (foldM_invariant
          (fun st => Forall (emittedInPlace PhT ExP) st.1) f l b)
          as ([body n] & -> & Hbody) end; [constructor| |by eauto].
      intros [ems n] I HI Hems.
      specialize (Hstores eq_refl). rewrite Forall_forall in Hstores.
      specialize (Hstores I HI). destruct I as [|id v]; [done|].
      eexists. split; [done|]. simpl. in_place.
    - match goal with |- context [foldM ?f ?l ?b] =>
        destruct (foldM_invariant
          (fun st => Forall (emittedInPlace PhT ExP) st.1) f l b)
          as ([body n] & -> & Hbody) end; [constructor| |by eauto].
      intros [ems n] I HI Hems.
      eexists. split; [done|]. simpl. in_place. }
  destruct Hbody as (body & n_reps & -> & Hbody). simpl.
  eexists. split; [done|]. in_place.
Qed.

Lemma setupStep_in_place PhT ExP ems dmid E :
  expandedOk flags AAA E →
  Forall (emittedInPlace PhT ExP) ems →
  ∃ ems', setupStep flags AAA PhT ExP (ems, dmid) E
          = Some (ems', wrap_unsigned (dmid + 1))
          ∧ Forall (emittedInPlace PhT ExP) ems'.
Proof.
  intros HE Hems. unfold setupStep.
  destruct (GenerateSSRSetup_in_place E dmid PhT ExP HE) as (s & -> & Hs).
  simpl. eexists. split; [done|].
  unfold generateSSRBarrier. destruct (SSRBarrier flags); in_place.
Qed.

Lemma setupLoop_in_place PhT ExP exp :
  Forall (expandedOk flags AAA) exp →
  ∃ setups n, foldM (setupStep flags AAA PhT ExP) exp ([], 0)
              = Some (setups, n)
              ∧ Forall (emittedInPlace PhT ExP) setups.
Proof.
  intros Hexp.
  destruct (foldM_invariant
    (fun st => Forall (emittedInPlace PhT ExP) st.1)
    (setupStep flags AAA PhT ExP) exp ([], 0))
    as ([setups n] & Hfold & Hs); [constructor| |by eauto].
  intros [ems dmid] E HE Hems. rewrite Forall_forall in Hexp.
  destruct (setupStep_in_place PhT ExP ems dmid E (Hexp E HE) Hems)
    as (ems' & -> & Hems'). by eauto.
Qed.

End EmissionProps.

(** *** C2 *)

(** One round of the loop of [cloneAndSetup] with the barrier flag on: the
    stream is set up on data mover [dmid], the barrier is emitted for
    [dmid + 1]. *)
Lemma setupStep_barrier_after_increment
    flags AAA PhT ExP ems (dmid : Z) E ems' dmid' :
  SSRBarrier flags = true →
  setupStep flags AAA PhT ExP (ems, dmid) E = Some (ems', dmid') →
  ∃ setup,
    GenerateSSRSetup flags AAA E dmid PhT = Some setup
    ∧ dmid' = wrap_unsigned (dmid + 1)
    ∧ ems' = ems ++ setup
             ++ [EmCall ExP riscv_ssr_barrier
                   [VConstantInt i32 (wrap_unsigned (dmid + 1))]].
Proof.
  intros Hflag. unfold setupStep. rewrite Hflag.
  destruct (GenerateSSRSetup flags AAA E dmid PhT) as [setup|]; [|done].
  simpl. intros [= <- <-]. by exists setup.
Qed.

(** C2 at one access with the barrier flag on: the stream is set up with
    data-mover index 0 and the barrier before the disable is emitted for
    index 1; no barrier is emitted for index 0. *)
Theorem cloneAndSetup_barrier_index :
  cloneAndSetup barrierFlags (oneAccess false 1 (symbolicSCEV 1) trueCond)
    (Terminator 10%nat) (FirstInsertionPt 11%nat) trueCond [oneExpanded 0%nat]
  = Some
      [EmCall (Terminator 10%nat) riscv_ssr_setup_bound_stride_1d
         [VConstantInt i32 0; VOpaque 3 i32; VOpaque 2 i32];
       EmCall (AtInst (LoadInst 100 DoubleTy)) riscv_ssr_pop
         [VConstantInt i32 0];
       EmReplaceWithPop (LoadInst 100 DoubleTy) (VConstantInt i32 0);
       EmCall (Terminator 10%nat) riscv_ssr_setup_repetition
         [VConstantInt i32 0; VConstantInt i32 0];
       EmCall (Terminator 10%nat) riscv_ssr_read_imm
         [VConstantInt i32 0; VConstantInt i32 0; VOpaque 1 PointerTy];
       EmCall (FirstInsertionPt 11%nat) riscv_ssr_barrier
         [VConstantInt i32 1];
       EmCall (Terminator 10%nat) riscv_ssr_enable [];
       EmCall (FirstInsertionPt 11%nat) riscv_ssr_disable []].
Proof. by vm_compute. Qed.

(** ** The conflict tree *)

(** Induction over a nest, with the hypothesis for every sub-nest. *)
Lemma Nest_ind (P : Nest → Prop) :
  (∀ L subs, Forall P subs → P (NestNode L subs)) → ∀ t, P t.
Proof.
  intros Hnode. fix IH 1. intros [L subs]. apply Hnode.
  induction subs as [|s subs IHsubs]; constructor; [apply IH|apply IHsubs].
Qed.

Lemma elem_of_concat {A} (x : A) (ls : list (list A)) :
  x ∈ concat ls ↔ ∃ l, x ∈ l ∧ l ∈ ls.
Proof.
  induction ls as [|l ls IH]; simpl.
  - split; [by intros ?%elem_of_nil|]. by intros (l & _ & ?%elem_of_nil).
  - rewrite elem_of_app, IH. split.
    + intros [Hx|(l' & Hx & Hl')]; [exists l|exists l']; split; try done;
        [left|by right].
    + intros (l' & Hx & [->|Hl']%elem_of_cons); [by left|right; by eauto].
Qed.

Lemma elem_of_nestLoops_subs L subs a :
  a ∈ nestLoops (NestNode L subs) ↔
  a = L ∨ ∃ s, s ∈ subs ∧ a ∈ nestLoops s.
Proof.
  simpl. rewrite elem_of_cons, elem_of_concat.
  split; intros [->|Ha]; try by left.
  - right. destruct Ha as (l & Hl & Ha).
    apply list_elem_of_fmap in Ha as (s & -> & Hs). by eauto.
  - right. destruct Ha as (s & Hs & Ha). exists (nestLoops s).
    split; [done|]. apply list_elem_of_fmap. by eauto.
Qed.

Lemma nestRoot_in_nestLoops t : nestRoot t ∈ nestLoops t.
Proof. destruct t. simpl. left. Qed.

Lemma nestHeight_sub L subs s :
  s ∈ subs → (nestHeight s < nestHeight (NestNode L subs))%nat.
Proof.
  intros Hs. cbn [nestHeight]. apply Nat.lt_succ_r.
  induction Hs as [s subs|s s' subs _ IH]; rewrite fmap_cons; cbn [foldr]; lia.
Qed.

Lemma nestHeight_le_length t : (nestHeight t <= length (nestLoops t))%nat.
Proof.
  induction t as [L subs IH] using Nest_ind. cbn [nestHeight nestLoops length].
  apply le_n_S.
  induction IH as [|s subs Hs _ IHsubs]; [simpl; lia|].
  rewrite !fmap_cons. cbn [foldr concat]. rewrite length_app. lia.
Qed.

Section TreeProps.
Context (ct : ConflictTree).

Lemma treeIn_inv L subs :
  treeIn ct (NestNode L subs) →
  is_Some (values ct !! L)
  ∧ children ct !! L = Some (nestRoot <$> subs)
  ∧ Forall (treeIn ct) subs.
Proof. by inversion 1. Qed.

(** The loops of a nest held by the tree are closed under [isChild]. *)
Lemma treeIn_child_closed t a b :
  treeIn ct t → a ∈ nestLoops t → isChild ct a b → b ∈ nestLoops t.
Proof.
  induction t as [L subs IH] using Nest_ind.
  intros (Hval & Hch & Hsubs)%treeIn_inv Ha Hab.
  apply elem_of_nestLoops_subs in Ha as [->|(s & Hs & Ha)].
  - destruct Hab as (chs & Hchs & Hb). rewrite Hch in Hchs.
    injection Hchs as <-. apply list_elem_of_fmap in Hb as (s & -> & Hs).
    apply elem_of_nestLoops_subs. right. exists s. split; [done|].
    apply nestRoot_in_nestLoops.
  - apply elem_of_nestLoops_subs. right. exists s. split; [done|].
    rewrite Forall_forall in IH, Hsubs. by apply IH; auto.
Qed.

Lemma treeIn_descendant_closed t a b :
  treeIn ct t → a ∈ nestLoops t → rtc (isChild ct) a b → b ∈ nestLoops t.
Proof.
  intros Ht Ha Hab. induction Hab as [|a c b Hac _ IH]; [done|].
  apply IH. by eapply treeIn_child_closed.
Qed.

Lemma treeIn_acyclic t a :
  treeIn ct t → NoDup (nestLoops t) → a ∈ nestLoops t →
  ¬ isAncestor ct a a.
Proof.
  induction t as [L subs IH] using Nest_ind.
  intros Ht Hnd Ha Hcyc.
  pose proof Ht as (Hval & Hch & Hsubs)%treeIn_inv.
  simpl in Hnd. apply NoDup_cons in Hnd as [HL Hnd].
  apply elem_of_nestLoops_subs in Ha as [->|(s & Hs & Ha)].
  - unfold isAncestor in Hcyc.
    inversion Hcyc as [x y Hxy|x y z Hxy Hyz]; subst.
    + destruct Hxy as (chs & Hchs & Hb). rewrite Hch in Hchs.
      injection Hchs as <-. apply list_elem_of_fmap in Hb as (s & HLs & Hs).
      apply HL. apply elem_of_concat. exists (nestLoops s).
      split; [rewrite HLs; apply nestRoot_in_nestLoops|].
      apply list_elem_of_fmap. by eauto.
    + destruct Hxy as (chs & Hchs & Hb). rewrite Hch in Hchs.
      injection Hchs as <-. apply list_elem_of_fmap in Hb as (s & -> & Hs).
      apply HL. apply elem_of_concat. exists (nestLoops s).
      split; [|apply list_elem_of_fmap; by eauto].
      rewrite Forall_forall in Hsubs.
      eapply treeIn_descendant_closed;
        [by apply Hsubs|apply nestRoot_in_nestLoops|by apply tc_rtc].
  - rewrite Forall_forall in IH, Hsubs.
    apply (IH s Hs); [by apply Hsubs| |done|done].
    clear -Hnd Hs. induction Hs as [s subs|s s' subs _ IHs]; simpl in Hnd;
      apply NoDup_app in Hnd as (H1 & _ & H2); auto.
Qed.

Lemma findBest_children f fuel subs :
  Forall (treeIn ct) subs →
  Forall (selectsIn ct f fuel) subs →
  NoDup (concat (nestLoops <$> subs)) →
  ∀ val res, ∃ v sel,
    foldM (fun '(val, res) C =>
             '(v, res) ← findBestRec fuel ct f C res;
             Some (f val v, res)) (nestRoot <$> subs) (val, res)
    = Some (v, res ++ sel)
    ∧ (∀ a, a ∈ sel → ∃ s, s ∈ subs ∧ a ∈ nestLoops s)
    ∧ NoDup sel
    ∧ (∀ a b, a ∈ sel → b ∈ sel → ¬ isAncestor ct a b).
Proof.
  intros Hin Hsel. revert Hin.
  induction Hsel as [|s subs Hs _ IH]; intros Hin Hnd val res.
  - exists val, []. rewrite app_nil_r. simpl. split; [done|].
    split; [by intros a ?%elem_of_nil|]. split; [constructor|].
    by intros a b ?%elem_of_nil.
  - apply Forall_cons in Hin as [Hs_in Hin].
    rewrite fmap_cons in Hnd. cbn [concat] in Hnd.
    apply NoDup_app in Hnd as (Hnd_s & Hdisj & Hnd).
    destruct (Hs res) as (v1 & sel1 & Hrec & Hincl1 & Hnd1 & Hanti1).
    destruct (IH Hin Hnd (f val v1) (res ++ sel1))
      as (v & sel2 & Hfold & Hincl2 & Hnd2 & Hanti2).
    exists v, (sel1 ++ sel2). rewrite fmap_cons. cbn [foldM].
    rewrite Hrec. cbn [mbind option_bind]. rewrite Hfold, (assoc_L (++)).
    split; [done|].
    assert (Hrest : ∀ b, b ∈ sel2 → b ∈ concat (nestLoops <$> subs)).
    { intros b (s' & Hs' & Hb)%Hincl2. apply elem_of_concat.
      exists (nestLoops s'). split; [done|]. apply list_elem_of_fmap. eauto. }
    split; [|split].
    + intros a [Ha|Ha]%elem_of_app.
      * exists s. split; [left|by apply Hincl1].
      * destruct (Hincl2 a Ha) as (s' & Hs' & Ha'). exists s'.
        split; [by right|done].
    + apply NoDup_app. split; [done|]. split; [|done].
      intros a Ha1 Ha2. apply (Hdisj a); [by apply Hincl1|by apply Hrest].
    + intros a b [Ha|Ha]%elem_of_app [Hb|Hb]%elem_of_app Hab.
      * by apply (Hanti1 a b).
      * apply (Hdisj b); [|by apply Hrest].
        eapply treeIn_descendant_closed;
          [done|by apply Hincl1|by apply tc_rtc].
      * destruct (Hincl2 a Ha) as (s' & Hs' & Ha').
        apply (Hdisj b); [by apply Hincl1|].
        apply elem_of_concat. exists (nestLoops s').
        split; [|apply list_elem_of_fmap; by eauto].
        rewrite Forall_forall in Hin.
        eapply treeIn_descendant_closed;
          [by apply Hin|done|by apply tc_rtc].
      * by apply (Hanti2 a b).
Qed.

Lemma findBestRec_nest f t :
  treeIn ct t → NoDup (nestLoops t) →
  ∀ fuel, (nestHeight t <= fuel)%nat → selectsIn ct f fuel t.
Proof.
  induction t as [L subs IH] using Nest_ind.
  intros Ht Hnd fuel Hfuel res.
  pose proof Ht as (Hval & Hch & Hsubs)%treeIn_inv.
  destruct fuel as [|fuel]; [simpl in Hfuel; lia|].
  cbn [findBestRec nestRoot]. rewrite Hch. cbn [mbind option_bind].
  pose proof Hnd as Hnd'. cbn [nestLoops] in Hnd'.
  apply NoDup_cons in Hnd' as [HL Hnd_subs].
  assert (Hsel : Forall (selectsIn ct f fuel) subs).
  { rewrite Forall_forall in IH, Hsubs. apply Forall_forall. intros s Hs.
    apply IH; [done|by apply Hsubs| |].
    - clear -Hnd_subs Hs.
      induction Hs as [s subs|s s' subs _ IHs]; simpl in Hnd_subs;
        apply NoDup_app in Hnd_subs as (H1 & _ & H2); auto.
    - pose proof (nestHeight_sub L subs s Hs). lia. }
  destruct (findBest_children f fuel subs Hsubs Hsel Hnd_subs 0 res)
    as (val & sel & -> & Hincl & Hnd_sel & Hanti).
  cbn [mbind option_bind]. destruct Hval as [nval ->].
  cbn [mbind option_bind]. destruct (nval <? val).
  - exists val, sel. split; [done|]. split; [|done].
    intros a (s & Hs & Ha)%Hincl. apply elem_of_nestLoops_subs. by eauto.
  - exists nval, [L]. rewrite take_app_length. split; [done|].
    split; [|split].
    + intros a ->%list_elem_of_singleton. left.
    + apply NoDup_singleton.
    + intros a b ->%list_elem_of_singleton ->%list_elem_of_singleton.
      apply (treeIn_acyclic (NestNode L subs)); [done..|left].
Qed.

End TreeProps.

(** *** Trees built by [insertNode] *)

Lemma NoDup_concat_sub {A} (l : list A) (ls : list (list A)) :
  NoDup (concat ls) → l ∈ ls → NoDup l.
Proof.
  intros Hnd Hl. induction Hl as [l ls|l l' ls _ IH]; simpl in Hnd;
    apply NoDup_app in Hnd as (H1 & _ & H2); auto.
Qed.

Lemma NoDup_nestLoops_sub L subs s :
  NoDup (nestLoops (NestNode L subs)) → s ∈ subs → NoDup (nestLoops s).
Proof.
  cbn [nestLoops]. intros [_ Hnd]%NoDup_cons Hs.
  apply (NoDup_concat_sub _ _ Hnd). by apply list_elem_of_fmap_2.
Qed.

Lemma treeIn_ext ct ct' t :
  treeIn ct t →
  (∀ L, L ∈ nestLoops t →
        is_Some (values ct' !! L) ∧ children ct' !! L = children ct !! L) →
  treeIn ct' t.
Proof.
  induction t as [L subs IH] using Nest_ind.
  intros (Hval & Hch & Hsubs)%treeIn_inv Hext.
  destruct (Hext L) as [HvL HcL]; [left|].
  constructor; [done|by rewrite HcL|].
  rewrite Forall_forall in IH, Hsubs. apply Forall_forall. intros s Hs.
  apply IH; [done|by apply Hsubs|]. intros L' HL'. apply Hext.
  apply elem_of_nestLoops_subs. by eauto.
Qed.

Lemma nestRoot_nestInsert P N t : nestRoot (nestInsert P N t) = nestRoot t.
Proof. destruct t as [L subs]. simpl. by destruct (decide (L = P)). Qed.

Lemma nestInsert_not_in P N t : P ∉ nestLoops t → nestInsert P N t = t.
Proof.
  induction t as [L subs IH] using Nest_ind. intros HP. cbn [nestInsert].
  destruct (decide (L = P)) as [->|HLP]; [by destruct HP; left|].
  f_equal. rewrite Forall_forall in IH.
  rewrite <- (list_fmap_id subs) at 2. apply list_fmap_ext.
  intros i s Hs%list_elem_of_lookup_2. apply IH; [done|].
  intros HPs. apply HP. apply elem_of_nestLoops_subs. by eauto.
Qed.

Lemma nestLoops_nestInsert P N t :
  P ∈ nestLoops t → NoDup (nestLoops t) →
  nestLoops (nestInsert P N t) ≡ₚ N :: nestLoops t.
Proof.
  induction t as [L subs IH] using Nest_ind. intros HP Hnd.
  cbn [nestInsert]. destruct (decide (L = P)) as [->|HLP].
  - cbn [nestLoops]. rewrite fmap_app, concat_app. simpl.
    rewrite ?app_nil_r, (Permutation_app_comm _ [N]). simpl.
    apply perm_swap.
  - cbn [nestLoops]. rewrite perm_swap. apply perm_skip.
    apply elem_of_nestLoops_subs in HP as [->|(s0 & Hs0 & HP)]; [done|].
    cbn [nestLoops] in Hnd. apply NoDup_cons in Hnd as [_ Hnd].
    clear HLP L. revert s0 Hs0 HP Hnd.
    induction IH as [|s subs Hs _ IHsubs]; intros s0 Hs0 HP Hnd.
    { by apply elem_of_nil in Hs0. }
    rewrite !fmap_cons in *. cbn [concat] in *.
    apply NoDup_app in Hnd as (Hnd_s & Hdisj & Hnd_rest).
    destruct (decide (P ∈ nestLoops s)) as [HPs|HPs].
    + rewrite (Hs HPs Hnd_s).
      assert (Hrest : nestInsert P N <$> subs = subs).
      { rewrite <- (list_fmap_id subs) at 2. apply list_fmap_ext.
        intros i s' Hs'%list_elem_of_lookup_2. apply nestInsert_not_in.
        intros HPs'. apply (Hdisj P HPs). apply elem_of_concat.
        exists (nestLoops s'). split; [done|]. by apply list_elem_of_fmap_2. }
      by rewrite Hrest.
    + rewrite (nestInsert_not_in P N s HPs).
      apply elem_of_cons in Hs0 as [->|Hs0]; [done|].
      rewrite (IHsubs s0 Hs0 HP Hnd_rest). symmetry. apply Permutation_middle.
Qed.

Lemma treeIn_nestInsert ct ct' P N chs t :
  treeIn ct t → NoDup (nestLoops t) → N ∉ nestLoops t → P ≠ N →
  children ct !! P = Some chs →
  (∀ L, is_Some (values ct !! L) → is_Some (values ct' !! L)) →
  is_Some (values ct' !! N) →
  children ct' !! N = Some [] →
  children ct' !! P = Some (chs ++ [N]) →
  (∀ L, L ≠ P → L ≠ N → children ct' !! L = children ct !! L) →
  treeIn ct' (nestInsert P N t).
Proof.
  intros Ht Hnd HN HPN HP Hvals HvN HcN HcP Hother. revert Ht Hnd HN.
  induction t as [L subs IH] using Nest_ind.
  intros (Hval & Hch & Hsubs)%treeIn_inv Hnd HN.
  assert (Hkeep : ∀ s, s ∈ subs → P ∉ nestLoops s → treeIn ct' s).
  { intros s Hs HPs. rewrite Forall_forall in Hsubs.
    apply (treeIn_ext ct); [by apply Hsubs|]. intros L' HL'.
    assert (is_Some (values ct !! L')) as HvL'.
    { specialize (Hsubs s Hs). clear -Hsubs HL'. revert Hsubs HL'.
      induction s as [L subs IH] using Nest_ind.
      intros (Hval & _ & Hsubs)%treeIn_inv
             [->|(s' & Hs' & HL')]%elem_of_nestLoops_subs; [done|].
      rewrite Forall_forall in IH, Hsubs. by apply (IH s'); auto. }
    split; [by apply Hvals|]. apply Hother.
    - by intros ->.
    - intros ->. apply HN. apply elem_of_nestLoops_subs. by eauto. }
  cbn [nestInsert]. destruct (decide (L = P)) as [->|HLP].
  - constructor; [by apply Hvals| |].
    + rewrite HcP, fmap_app. rewrite Hch in HP. by injection HP as <-.
    + apply Forall_app. split.
      * apply Forall_forall. intros s Hs. apply Hkeep; [done|].
        intros HPs. cbn [nestLoops] in Hnd. apply NoDup_cons in Hnd as [HPn _].
        apply HPn. apply elem_of_concat. exists (nestLoops s).
        split; [done|]. by apply list_elem_of_fmap_2.
      * repeat constructor; done.
  - assert (HLN : L ≠ N) by (intros ->; apply HN; left).
    constructor; [by apply Hvals| |].
    + rewrite Hother, Hch by done. f_equal. rewrite <- list_fmap_compose.
      apply list_fmap_ext. intros i s _. simpl. by rewrite nestRoot_nestInsert.
    + apply Forall_fmap, Forall_forall. intros s Hs. simpl.
      destruct (decide (P ∈ nestLoops s)) as [HPs|HPs].
      * rewrite Forall_forall in IH, Hsubs.
        apply IH; [done|by apply Hsubs|by eapply NoDup_nestLoops_sub|].
        intros HNs. apply HN. apply elem_of_nestLoops_subs. by eauto.
      * rewrite nestInsert_not_in by done. by apply Hkeep.
Qed.

Lemma dense_insert_fresh `{Countable K} {V} (k : K) (v : V) (m : gmap K V) :
  m !! k = None → dense_insert k v m = <[k := v]> m.
Proof. unfold dense_insert. by intros ->. Qed.

Lemma insertNode_inv ct Node value Parent ct' :
  treeInv ct → insertNode ct Node value Parent = Some ct' → treeInv ct'.
Proof.
  intros [Hdom Hroot]. unfold insertNode.
  case_bool_decide as Hfresh; [|done].
  assert (values ct !! Node = None ∧ children ct !! Node = None)
    as [HvN HcN].
  { destruct Hfresh as [Hv|Hc].
    - split; [done|]. apply eq_None_not_Some. rewrite <- Hdom.
      by rewrite Hv; intros [].
    - split; [|done]. apply eq_None_not_Some. rewrite Hdom.
      by rewrite Hc; intros []. }
  rewrite !dense_insert_fresh by done.
  destruct Parent as [P|].
  - destruct (<[Node:=[]]> (children ct) !! P) as [chs|] eqn:HP; [|done].
    intros [= <-]. split; simpl.
    + intros L. rewrite !lookup_insert_is_Some'.
      destruct (decide (P = L)) as [->|HPL].
      * rewrite Hdom.
        assert (is_Some (<[Node:=[]]> (children ct) !! L)) as Hsome by eauto.
        rewrite lookup_insert_is_Some' in Hsome. tauto.
      * rewrite Hdom. tauto.
    + intros R HR. destruct (Hroot R HR) as (t & Ht_root & Ht & Hnd & Hvals).
      assert (HNt : Node ∉ nestLoops t).
      { intros HN. destruct (Hvals Node HN) as [x Hx]. congruence. }
      destruct (decide (P ∈ nestLoops t)) as [HPt|HPt].
      * assert (HPN : P ≠ Node) by (intros ->; done).
        rewrite lookup_insert_ne in HP by done.
        exists (nestInsert P Node t).
        split; [by rewrite nestRoot_nestInsert|].
        split; [|split].
        -- eapply (treeIn_nestInsert ct _ P Node chs); simpl; try done.
           ++ intros L HL. rewrite lookup_insert_is_Some'. tauto.
           ++ by rewrite lookup_insert_eq.
           ++ by rewrite lookup_insert_ne, lookup_insert_eq.
           ++ by rewrite lookup_insert_eq.
           ++ intros L HLP HLN. by rewrite !lookup_insert_ne.
        -- rewrite nestLoops_nestInsert by done. by apply NoDup_cons.
        -- intros L HL. rewrite nestLoops_nestInsert in HL by done.
           simpl. rewrite lookup_insert_is_Some'.
           apply elem_of_cons in HL as [->|HL]; [by left|].
           destruct (decide (Node = L)); [by left|right; by auto].
      * exists t. split; [done|]. split; [|split; [done|]].
        -- apply (treeIn_ext ct); [done|]. intros L HL. simpl.
           assert (L ≠ Node) by (by intros ->).
           assert (L ≠ P) by (by intros ->).
           split; [|by rewrite !lookup_insert_ne].
           rewrite lookup_insert_is_Some'. right. by auto.
        -- intros L HL. simpl. rewrite lookup_insert_is_Some'.
           destruct (decide (Node = L)); [by left|right; by auto].
  - destruct (Root ct) eqn:HR; [done|]. intros [= <-]. split; simpl.
    + intros L. rewrite !lookup_insert_is_Some', Hdom. tauto.
    + intros R [= <-]. exists (NestNode Node []). split; [done|].
      split; [|split].
      * constructor; simpl; [by rewrite lookup_insert_eq| |constructor].
        by rewrite lookup_insert_eq.
      * simpl. apply NoDup_singleton.
      * intros L ->%list_elem_of_singleton. simpl. by rewrite lookup_insert_eq.
Qed.

Lemma built_treeInv ct : built ct → treeInv ct.
Proof.
  induction 1 as [|ct Node value Parent ct' _ IH Hins].
  - split; [|done]. intros L. simpl. rewrite !lookup_empty. by split; intros [].
  - by eapply insertNode_inv.
Qed.

Lemma NoDup_length_le_size (l : list Loop) (m : gmap Loop Z) :
  NoDup l → (∀ x, x ∈ l → is_Some (m !! x)) → (length l <= size m)%nat.
Proof.
  intros Hnd Hin. rewrite <- (size_list_to_set (C := gset Loop) l) by done.
  rewrite <- size_dom. apply subseteq_size. intros x Hx.
  apply elem_of_list_to_set in Hx. apply elem_of_dom. by apply Hin.
Qed.

(** [findBest] on a tree that satisfies the invariant. *)
Lemma findBest_treeInv ct f fuel :
  treeInv ct → (size (values ct) <= fuel)%nat →
  ∃ res, findBest fuel ct f = Some res
    ∧ NoDup res
    ∧ (∀ a, a ∈ res → is_Some (values ct !! a))
    ∧ (∀ a b, a ∈ res → b ∈ res → ¬ isAncestor ct a b).
Proof.
  intros [Hdom Hroot] Hfuel. unfold findBest.
  destruct (Root ct) as [R|] eqn:HR.
  - destruct (Hroot R eq_refl) as (t & <- & Ht & Hnd & Hvals).
    destruct (findBestRec_nest ct f t Ht Hnd fuel) with (res := @nil Loop)
      as (v & sel & -> & Hincl & Hnd_sel & Hanti).
    { pose proof (nestHeight_le_length t).
      pose proof (NoDup_length_le_size _ _ Hnd Hvals). lia. }
    simpl. exists sel. split; [done|]. split; [done|]. split; [|done].
    intros a Ha. by apply Hvals, Hincl.
  - exists []. split; [done|]. split; [constructor|].
    split; [by intros a ?%elem_of_nil|by intros a b ?%elem_of_nil].
Qed.

(** *** C5 *)

(** C5: for every conflict tree (built by insertNode) and every combining
    function, findBest returns, and no loop of the returned sequence is an
    ancestor of another one (nor listed twice). *)
Theorem findBest_no_ancestor_pair ct (combineFunc : Z → Z → Z) (fuel : nat) :
  built ct → (size (values ct) <= fuel)%nat →
  ∃ res, findBest fuel ct combineFunc = Some res
    ∧ NoDup res
    ∧ ∀ a b, a ∈ res → b ∈ res → ¬ isAncestor ct a b.
Proof.
  intros Hbuilt Hfuel.
  destruct (findBest_treeInv ct combineFunc fuel (built_treeInv ct Hbuilt) Hfuel)
    as (res & Hres & Hnd & _ & Hanti).
  by eauto.
Qed.

Lemma findBest_no_ancestor_pair_witness :
  ∃ res, findBest 3 threeLoopTree Z.add = Some res
    ∧ NoDup res
    ∧ ∀ a b, a ∈ res → b ∈ res → ¬ isAncestor threeLoopTree a b.
Proof.
  apply (findBest_no_ancestor_pair threeLoopTree Z.add 3).
  - apply (built_insert twoLoopTree 2%nat 4 (Some 0%nat));
      [|vm_compute; reflexivity].
    apply (built_insert oneLoopTree 1%nat 3 (Some 0%nat));
      [|vm_compute; reflexivity].
    apply (built_insert emptyTree 0%nat 5 None);
      [apply built_empty|vm_compute; reflexivity].
  - vm_compute. lia.
Defined.

(** ** The pass driver *)

Lemma getEstGain_nil flags AAA (L : Loop) : getEstGain flags AAA [] L = Some 0.
Proof.
  unfold getEstGain, getEstGainWith. cbn [estGainLoop mbind option_bind].
  destruct (SSRNoBoundCheck flags); [done|].
  by rewrite size_empty.
Qed.

Lemma getEstGain_range flags AAA Accs (L : Loop) gain :
  getEstGain flags AAA Accs L = Some gain → in_int_range gain.
Proof.
  unfold getEstGain. rewrite getEstGainWith_formula.
  destruct (gainFormula _ _ _ _ _ _); intros [= <-]. apply wrap_int_range.
Qed.

Lemma insertNode_values ct Node value Parent ct' :
  treeInv ct → insertNode ct Node value Parent = Some ct' →
  values ct !! Node = None
  ∧ children ct !! Node = None
  ∧ values ct' = <[Node := value]> (values ct).
Proof.
  intros [Hdom _]. unfold insertNode.
  case_bool_decide as Hfresh; [|done].
  assert (values ct !! Node = None ∧ children ct !! Node = None)
    as [HvN HcN].
  { destruct Hfresh as [Hv|Hc].
    - split; [done|]. apply eq_None_not_Some. rewrite <- Hdom.
      by rewrite Hv; intros [].
    - split; [|done]. apply eq_None_not_Some. rewrite Hdom.
      by rewrite Hc; intros []. }
  rewrite !dense_insert_fresh by done.
  destruct Parent as [P|].
  - destruct (_ !! P); [|done]. by intros [= <-].
  - destruct (Root ct); [done|]. by intros [= <-].
Qed.

Lemma insertNode_returns ct Node value Parent :
  treeInv ct → values ct !! Node = None →
  match Parent with
  | None => Root ct = None
  | Some P => P = Node ∨ is_Some (children ct !! P)
  end →
  ∃ ct', insertNode ct Node value Parent = Some ct'
    ∧ ∀ L, is_Some (children ct' !! L) ↔ L = Node ∨ is_Some (children ct !! L).
Proof.
  intros [Hdom _] HvN HP. unfold insertNode.
  rewrite bool_decide_eq_true_2 by (by left).
  assert (children ct !! Node = None) as HcN.
  { apply eq_None_not_Some. rewrite <- Hdom. by rewrite HvN; intros []. }
  rewrite !dense_insert_fresh by done.
  destruct Parent as [P|].
  - assert (is_Some (<[Node:=[]]> (children ct) !! P)) as [chs ->].
    { rewrite lookup_insert_is_Some'. destruct HP; [left|right]; done. }
    eexists. split; [done|]. intros L. simpl.
    rewrite !lookup_insert_is_Some'. split.
    + intros [->|[->|HL]]; [|by left|by right].
      destruct HP as [->|HP]; [by left|by right].
    + intros [->|HL]; right; [by left|by right].
  - rewrite HP. eexists. split; [done|]. intros L. simpl.
    rewrite lookup_insert_is_Some'. split; intros [->|HL]; auto.
Qed.

Lemma insertNode_empty_root (L : Loop) v :
  insertNode emptyTree L v None
  = Some {| values := {[ L := v ]}; children := {[ L := [] ]};
            Root := Some L |}.
Proof.
  unfold insertNode, emptyTree. cbn [values children Root].
  rewrite bool_decide_eq_true_2 by (left; apply lookup_empty).
  by rewrite !dense_insert_fresh by apply lookup_empty.
Qed.

Lemma findBest_single (L : Loop) v f fuel :
  0 <= v →
  findBest (S fuel)
    {| values := {[ L := v ]}; children := {[ L := [] ]}; Root := Some L |} f
  = Some [L].
Proof.
  intros Hv. unfold findBest. cbn [Root findBestRec values children].
  rewrite !lookup_singleton_eq. cbn [mbind option_bind foldM].
  assert ((v <? 0) = false) as -> by lia. done.
Qed.

(** The estimated gain of that loop is negative. *)
Lemma negative_gain_fixture :
  getEstGain defaultFlags (oneAccess false 10 (constantSCEV 0) runtimeCond)
    [0%nat] 0%nat = Some (-14).
Proof. by vm_compute. Qed.

(** *** C7 *)

Section TaggedFunction.
Context (flags : Flags) `{StdSort}.
Context (findLoopsWithSSR : Function → LoopInfo → gset Loop).
Context (AAA : AffineAccess).

Lemma run_tagged fuel F :
  hasFnAttribute F SSRFnAttr = true →
  run flags findLoopsWithSSR AAA fuel F = Some (F, PreservedAll).
Proof. intros Htag. unfold run. rewrite Htag. by destruct (InferSSR flags). Qed.

Lemma run_changed_tags fuel F F' :
  run flags findLoopsWithSSR AAA fuel F = Some (F', PreservedNone) →
  hasFnAttribute F' SSRFnAttr = true.
Proof.
  unfold run. destruct (negb (InferSSR flags)); [done|].
  destruct (hasFnAttribute F SSRFnAttr); [done|].
  destruct (foldM _ _ _) as [st|]; [|done]. cbn [mbind option_bind].
  destruct (foldM _ _ _) as [ems|]; [|done]. cbn [mbind option_bind].
  destruct (negb (changed st)); [done|]. intros [= <-].
  unfold hasFnAttribute. simpl. apply bool_decide_eq_true_2. set_solver.
Qed.

End TaggedFunction.

(** C7: the pass run on a function that carries the SSR attribute changes
    nothing and preserves all analyses; a run that changed the function
    tags it, so a second run (with whatever flags and analysis results)
    produces no further change. *)
Theorem run_twice_no_further_change
    flags `{StdSort} findLoopsWithSSR AAA (fuel : nat) (F : Function) :
  (hasFnAttribute F SSRFnAttr = true →
   run flags findLoopsWithSSR AAA fuel F = Some (F, PreservedAll))
  ∧ (∀ F', run flags findLoopsWithSSR AAA fuel F = Some (F', PreservedNone) →
       hasFnAttribute F' SSRFnAttr = true
       ∧ ∀ flags' findLoopsWithSSR' AAA' fuel',
           run flags' findLoopsWithSSR' AAA' fuel' F' = Some (F', PreservedAll)).
Proof.
  split; [apply run_tagged|]. intros F' Hrun.
  pose proof (run_changed_tags _ _ _ _ _ _ Hrun) as Htag.
  split; [done|]. intros flags' find' AAA' fuel'. by apply run_tagged.
Qed.

(** *** Runs without candidates *)

Lemma foldM_fixed {A B} (f : B → A → option B) l b :
  (∀ a, a ∈ l → f b a = Some b) → foldM f l b = Some b.
Proof.
  induction l as [|a l IH]; intros Hf; simpl; [done|].
  rewrite (Hf a) by left. simpl. apply IH. intros a' Ha'. apply Hf. by right.
Qed.

Lemma nestLoops_length_pos t : (0 < length (nestLoops t))%nat.
Proof. destruct t. simpl. lia. Qed.

Section NoCandidates.
Context (flags : Flags) `{StdSort} (AAA : AffineAccess).
Context (ssrInvalidLoops : gset Loop).

Lemma visitLoop_no_candidates (L : Loop) possible tree tree' known b :
  selectCandidates flags AAA L known = Some ([], b) →
  allEmpty possible →
  insertNode tree L 0
    (if isOutermost (getLI AAA) L then None else ParentLoop (getLI AAA) L)
  = Some tree' →
  ∃ possible',
    visitLoop flags AAA L possible tree known = Some (possible', tree', negb b)
    ∧ allEmpty possible'
    ∧ ∀ K, is_Some (possible !! K) ∨ K = L → is_Some (possible' !! K).
Proof.
  intros Hsel Hempty Hins. unfold visitLoop. rewrite Hsel.
  cbn [mbind option_bind].
  assert (dense_insert L [] possible !! L = Some []) as ->.
  { unfold dense_insert. destruct (possible !! L) as [l|] eqn:Hl.
    - rewrite Hl. f_equal. by eapply Hempty.
    - by rewrite lookup_insert_eq. }
  cbn [mbind option_bind app]. rewrite getEstGain_nil.
  cbn [mbind option_bind].
  change (wrap_unsigned (Z.max 0 0)) with 0. rewrite Hins.
  cbn [mbind option_bind]. eexists. split; [done|]. split.
  - intros K l. destruct (decide (L = K)) as [->|HLK].
    + rewrite lookup_insert_eq. by intros [= <-].
    + rewrite lookup_insert_ne by done. unfold dense_insert.
      destruct (possible !! L); [by apply Hempty|].
      rewrite lookup_insert_ne by done. by apply Hempty.
  - intros K HK. rewrite lookup_insert_is_Some'.
    destruct HK as [HK| ->]; [|by left]. right. unfold dense_insert.
    destruct (possible !! L); [done|].
    rewrite lookup_insert_is_Some'. by right.
Qed.

Lemma nestIn_inv parent L subs :
  nestIn (getLI AAA) parent (NestNode L subs) →
  ParentLoop (getLI AAA) L = parent
  ∧ SubLoops (getLI AAA) L = nestRoot <$> subs
  ∧ Forall (nestIn (getLI AAA) (Some L)) subs.
Proof. by inversion 1. Qed.

(** The work-list loop over nests whose parents are in the tree. *)
Lemma traverse_no_candidates n :
  ∀ ws possible ct fuel,
    length (concat (nestLoops <$> ws)) = n →
    (n <= fuel)%nat →
    built ct →
    Forall (fun w => ∃ p, nestIn (getLI AAA) (Some p) w
                          ∧ is_Some (children ct !! p)) ws →
    NoDup (concat (nestLoops <$> ws)) →
    (∀ L, L ∈ concat (nestLoops <$> ws) → values ct !! L = None) →
    noCandidates flags AAA ssrInvalidLoops ws →
    allEmpty possible →
    (∀ K, is_Some (values ct !! K) → is_Some (possible !! K)) →
    ∃ possible' ct',
      traverse flags AAA fuel ssrInvalidLoops (nestRoot <$> ws) possible ct
      = Some (possible', ct')
      ∧ built ct'
      ∧ allEmpty possible'
      ∧ (∀ K, is_Some (values ct' !! K) → is_Some (possible' !! K))
      ∧ size (values ct') = (size (values ct) + n)%nat.
Proof.
  induction n as [|n IH];
    intros ws possible ct fuel Hlen Hfuel Hbuilt Hws Hnd Hfresh Hcand
           Hempty Hdom.
  - destruct ws as [|w ws].
    + exists possible, ct. destruct fuel; simpl; rewrite Nat.add_0_r; done.
    + rewrite fmap_cons in Hlen. cbn [concat] in Hlen.
      rewrite length_app in Hlen. pose proof (nestLoops_length_pos w). lia.
  - destruct ws as [|[L subs] rest]; [done|].
    destruct fuel as [|fuel]; [lia|].
    apply Forall_cons in Hws as [(p & HnestL & Hp) Hrest].
    apply nestIn_inv in HnestL as (Hparent & Hsubloops & Hsubs).
    rewrite fmap_cons in Hlen, Hnd, Hfresh. cbn [concat nestLoops] in *.
    assert (HvL : values ct !! L = None) by (apply Hfresh; left).
    destruct (Hcand L) as [b Hsel].
    { rewrite fmap_cons. cbn [concat nestLoops]. left. }
    assert (Hout : isOutermost (getLI AAA) L = false).
    { unfold isOutermost. apply bool_decide_eq_false_2. by rewrite Hparent. }
    destruct (insertNode_returns ct L 0 (Some p) (built_treeInv _ Hbuilt) HvL)
      as (ct1 & Hins & Hchildren); [by right|].
    destruct (insertNode_values _ _ _ _ _ (built_treeInv _ Hbuilt) Hins)
      as (_ & _ & Hvals).
    destruct (visitLoop_no_candidates L possible ct ct1
                (bool_decide (L ∈ ssrInvalidLoops)) b Hsel Hempty)
      as (possible1 & Hvisit & Hempty1 & Hdom1).
    { by rewrite Hout, Hparent. }
    rewrite fmap_cons. cbn [traverse nestRoot]. rewrite Hvisit.
    cbn [mbind option_bind]. rewrite Hsubloops, <- fmap_app.
    simpl in Hnd. apply NoDup_cons in Hnd as [HLnot Hnd].
    destruct (IH (rest ++ subs) possible1 ct1 fuel)
      as (possible' & ct' & Htrav & Hbuilt' & Hempty' & Hdom' & Hsize).
    + rewrite fmap_app, concat_app, length_app.
      simpl in Hlen. rewrite length_app in Hlen. lia.
    + lia.
    + by eapply built_insert.
    + apply Forall_app. split.
      * eapply Forall_impl; [exact Hrest|]. intros w (p' & Hw & Hp').
        exists p'. split; [done|]. apply Hchildren. by right.
      * eapply Forall_impl; [exact Hsubs|]. intros w Hw.
        exists L. split; [done|]. apply Hchildren. by left.
    + rewrite fmap_app, concat_app.
      by rewrite (Permutation_app_comm (concat (nestLoops <$> rest))).
    + intros K HK. rewrite Hvals.
      rewrite fmap_app, concat_app in HK.
      assert (K ≠ L).
      { intros ->. apply HLnot. apply elem_of_app.
        apply elem_of_app in HK as [HK|HK]; [by right|by left]. }
      rewrite lookup_insert_ne by done. apply Hfresh. right.
      apply elem_of_app. apply elem_of_app in HK as [HK|HK]; [by right|by left].
    + intros K HK. apply Hcand. rewrite fmap_cons. cbn [concat nestLoops].
      right. rewrite fmap_app, concat_app in HK. apply elem_of_app.
      apply elem_of_app in HK as [HK|HK]; [by right|by left].
    + done.
    + intros K. rewrite Hvals, lookup_insert_is_Some'.
      intros [->|HK]; apply Hdom1; [by right|left; by apply Hdom].
    + exists possible', ct'. split; [done|]. split; [done|].
      split; [done|]. split; [done|].
      rewrite Hsize, Hvals, map_size_insert_None by done. lia.
Qed.

(** The work-list loop from a top-level loop and the empty tree. *)
Lemma traverse_top_no_candidates t possible fuel :
  nestIn (getLI AAA) None t →
  NoDup (nestLoops t) →
  noCandidates flags AAA ssrInvalidLoops [t] →
  allEmpty possible →
  (length (nestLoops t) <= fuel)%nat →
  ∃ possible' ct',
    traverse flags AAA fuel ssrInvalidLoops [nestRoot t] possible emptyTree
    = Some (possible', ct')
    ∧ built ct'
    ∧ allEmpty possible'
    ∧ (∀ K, is_Some (values ct' !! K) → is_Some (possible' !! K))
    ∧ size (values ct') = length (nestLoops t).
Proof.
  destruct t as [T subs].
  intros (Hparent & Hsubloops & Hsubs)%nestIn_inv Hnd Hcand Hempty Hfuel.
  cbn [nestLoops length] in Hfuel. destruct fuel as [|fuel]; [lia|].
  destruct (Hcand T) as [b Hsel]; [simpl; left|].
  assert (Hout : isOutermost (getLI AAA) T = true).
  { unfold isOutermost. by apply bool_decide_eq_true_2. }
  set (ct1 := {| values := {[ T := 0 ]}; children := {[ T := [] ]};
                 Root := Some T |}).
  destruct (visitLoop_no_candidates T possible emptyTree ct1
              (bool_decide (T ∈ ssrInvalidLoops)) b Hsel Hempty)
    as (possible1 & Hvisit & Hempty1 & Hdom1).
  { rewrite Hout. apply insertNode_empty_root. }
  cbn [traverse nestRoot]. rewrite Hvisit. cbn [mbind option_bind app].
  rewrite Hsubloops.
  cbn [nestLoops] in Hnd. apply NoDup_cons in Hnd as [HTnot Hnd].
  destruct (traverse_no_candidates (length (concat (nestLoops <$> subs)))
              subs possible1 ct1 fuel)
    as (possible' & ct' & Htrav & Hbuilt' & Hempty' & Hdom' & Hsize);
    try done.
  - lia.
  - eapply built_insert; [apply built_empty|]. apply insertNode_empty_root.
  - eapply Forall_impl; [exact Hsubs|]. intros w Hw. exists T.
    split; [done|]. simpl. by rewrite lookup_singleton_eq.
  - intros L HL. simpl. apply lookup_singleton_ne. by intros ->.
  - intros L HL. apply Hcand. simpl. rewrite app_nil_r. by right.
  - intros K. simpl. rewrite lookup_singleton_is_Some. intros <-.
    apply Hdom1. by right.
  - exists possible', ct'. split; [done|]. split; [done|]. split; [done|].
    split; [done|]. rewrite Hsize. simpl. by rewrite map_size_singleton.
Qed.

End NoCandidates.

Section NoCandidatesRun.
Context (flags : Flags) `{StdSort} (AAA : AffineAccess).
Context (ssrInvalidLoops : gset Loop).

Lemma expandStep_empty st (L : Loop) :
  possible st !! L = Some [] → expandStep flags AAA st L = Some st.
Proof. intros HL. unfold expandStep. by rewrite HL. Qed.

Lemma dense_insert_is_Some `{Countable K} {V} (k k' : K) (v : V)
    (m : gmap K V) :
  is_Some (dense_insert k v m !! k') ↔ k = k' ∨ is_Some (m !! k').
Proof.
  unfold dense_insert. destruct (m !! k) as [x|] eqn:Hk.
  - split; [by right|]. intros [<-|Hk']; [by rewrite Hk|done].
  - apply lookup_insert_is_Some'.
Qed.

Lemma analyseTopLoop_no_candidates st t fuel :
  nestIn (getLI AAA) None t →
  NoDup (nestLoops t) →
  noCandidates flags AAA ssrInvalidLoops [t] →
  (length (nestLoops t) <= fuel)%nat →
  trees st !! nestRoot t = None →
  allEmpty (possible st) →
  ∃ st',
    analyseTopLoop flags AAA fuel ssrInvalidLoops st (nestRoot t) = Some st'
    ∧ changed st' = changed st
    ∧ conds st' = conds st
    ∧ emitted st' = emitted st
    ∧ allEmpty (possible st')
    ∧ (∀ K, is_Some (trees st' !! K) →
            K = nestRoot t ∨ is_Some (trees st !! K))
    ∧ (∀ K, K = nestRoot t ∨ is_Some (bestLoops st !! K) →
            is_Some (bestLoops st' !! K)).
Proof.
  intros Hnest Hnd Hcand Hfuel Hfresh Hempty. unfold analyseTopLoop.
  rewrite dense_insert_fresh by done. rewrite lookup_insert_eq.
  cbn [mbind option_bind].
  destruct (traverse_top_no_candidates flags AAA ssrInvalidLoops t
              (possible st) fuel Hnest Hnd Hcand Hempty Hfuel)
    as (possible1 & ct & -> & Hbuilt & Hempty1 & Hdom & Hsize).
  cbn [mbind option_bind].
  destruct (findBest_treeInv ct (fun a b => wrap_unsigned (a + b)) fuel
              (built_treeInv _ Hbuilt))
    as (best & -> & _ & Hbest & _); [lia|].
  cbn [mbind option_bind].
  rewrite foldM_fixed.
  - cbn [mbind option_bind changed conds emitted possible trees bestLoops].
    eexists. split; [done|]. repeat split; try done.
    + intros K. cbn [trees]. rewrite !lookup_insert_is_Some'.
      intros [<-|[<-|HK]]; [by left|by left|by right].
    + intros K HK. cbn [bestLoops]. apply dense_insert_is_Some.
      destruct HK as [->|HK]; [by left|by right].
  - intros L HL. apply expandStep_empty. cbn [possible].
    destruct (Hdom L (Hbest L HL)) as [l Hl]. rewrite Hl. f_equal.
    by eapply Hempty1.
Qed.

Lemma analyse_no_candidates ts : ∀ st fuel,
  Forall (nestIn (getLI AAA) None) ts →
  NoDup (concat (nestLoops <$> ts)) →
  noCandidates flags AAA ssrInvalidLoops ts →
  (length (concat (nestLoops <$> ts)) <= fuel)%nat →
  (∀ t, t ∈ ts → trees st !! nestRoot t = None) →
  allEmpty (possible st) →
  ∃ st',
    foldM (analyseTopLoop flags AAA fuel ssrInvalidLoops) (nestRoot <$> ts) st
    = Some st'
    ∧ changed st' = changed st
    ∧ conds st' = conds st
    ∧ emitted st' = emitted st
    ∧ (∀ K, K ∈ nestRoot <$> ts ∨ is_Some (bestLoops st !! K) →
            is_Some (bestLoops st' !! K)).
Proof.
  induction ts as [|t ts IH]; intros st fuel Hnest Hnd Hcand Hfuel Hfresh Hempty.
  - exists st. simpl. repeat split; try done.
    intros K [HK%elem_of_nil|HK]; done.
  - apply Forall_cons in Hnest as [Hnest_t Hnest].
    rewrite fmap_cons in Hnd, Hfuel. cbn [concat] in Hnd, Hfuel.
    rewrite length_app in Hfuel.
    apply NoDup_app in Hnd as (Hnd_t & Hdisj & Hnd).
    destruct (analyseTopLoop_no_candidates st t fuel)
      as (st1 & Hstep & Hch1 & Hco1 & Hem1 & Hempty1 & Htrees1 & Hbest1);
      try done.
    { intros L HL. apply Hcand. rewrite fmap_cons. cbn [concat].
      simpl in HL. rewrite app_nil_r in HL. apply elem_of_app. by left. }
    { lia. }
    { apply Hfresh. left. }
    destruct (IH st1 fuel) as (st' & Hfold & Hch & Hco & Hem & Hbest);
      try done.
    { intros L HL. apply Hcand. rewrite fmap_cons. cbn [concat].
      apply elem_of_app. by right. }
    { lia. }
    { intros t' Ht'. apply eq_None_not_Some. intros HK.
      destruct (Htrees1 _ HK) as [Heq|Hold].
      - apply (Hdisj (nestRoot t)); [apply nestRoot_in_nestLoops|].
        rewrite <- Heq. apply elem_of_concat. exists (nestLoops t').
        split; [apply nestRoot_in_nestLoops|by apply list_elem_of_fmap_2].
      - rewrite (Hfresh t') in Hold by (by right). by destruct Hold. }
    exists st'. rewrite fmap_cons. cbn [foldM]. rewrite Hstep.
    cbn [mbind option_bind]. split; [done|].
    split; [congruence|]. split; [congruence|]. split; [congruence|].
    intros K HK. apply Hbest.
    destruct HK as [[->|HK]%elem_of_cons|HK]; [right|by left|right];
      apply Hbest1; [by left|by right].
Qed.

Lemma setup_no_conds st toploops ems :
  conds st = ∅ →
  (∀ T, T ∈ toploops → is_Some (bestLoops st !! T)) →
  foldM (setupTopLoop flags AAA st) toploops ems = Some ems.
Proof.
  intros Hconds Hbest. apply foldM_fixed. intros T HT.
  unfold setupTopLoop. destruct (Hbest T HT) as [best ->].
  cbn [mbind option_bind]. apply foldM_fixed. intros L _.
  unfold setupLoop. by rewrite Hconds, lookup_empty.
Qed.

End NoCandidatesRun.

(** *** C4 *)

(** C4, as stated, fails.  The only loop of the function has a candidate
    whose estimated gain is -14; the pass records the value 0, selects the
    loop, installs the stream and returns with no analysis preserved. *)
Lemma run_changes_despite_negative_gain :
  selectCandidates (H := mergeSort) defaultFlags
    (oneAccess false 10 (constantSCEV 0) runtimeCond) 0%nat false
  = Some ([0%nat], false)
  ∧ getEstGain defaultFlags (oneAccess false 10 (constantSCEV 0) runtimeCond)
      [0%nat] 0%nat = Some (-14)
  ∧ run (H := mergeSort) defaultFlags noLoopsWithSSR
      (oneAccess false 10 (constantSCEV 0) runtimeCond) 1 emptyFunction
    = Some (streamedFunction, PreservedNone)
  ∧ streamedFunction ≠ emptyFunction.
Proof.
  split; [by vm_compute|]. split; [by vm_compute|].
  split; [by vm_compute|]. intros Heq.
  apply (f_equal fnChanges) in Heq. discriminate Heq.
Qed.

(** C4, amended: if for every loop in the function the candidate set is
    empty, the pass makes no change and returns preserving all analyses (a
    negative estimated gain does not keep a loop from being selected). *)
Theorem run_no_candidates_no_change
    flags `{StdSort} findLoopsWithSSR AAA (ts : list Nest) (fuel : nat)
    (F : Function) :
  loopForest (getLI AAA) ts →
  noCandidates flags AAA (findLoopsWithSSR F (getLI AAA)) ts →
  (length (concat (nestLoops <$> ts)) <= fuel)%nat →
  run flags findLoopsWithSSR AAA fuel F = Some (F, PreservedAll).
Proof.
  intros (Htop & Hnest & Hnd) Hcand Hfuel. unfold run.
  destruct (negb (InferSSR flags)); [done|].
  destruct (hasFnAttribute F SSRFnAttr); [done|].
  rewrite Htop.
  match goal with |- context [foldM _ _ ?st0] =>
    destruct (analyse_no_candidates flags AAA
                (findLoopsWithSSR F (getLI AAA)) ts st0 fuel)
      as (st & -> & Hch & Hco & Hem & Hbest) end; try done.
  cbn [mbind option_bind].
  rewrite (setup_no_conds flags AAA st) by (by auto).
  cbn [mbind option_bind]. rewrite Hch. simpl in Hem. rewrite Hem.
  by destruct F.
Qed.

Lemma run_no_candidates_no_change_witness :
  run (H := mergeSort) defaultFlags noLoopsWithSSR noAccess 1 emptyFunction
  = Some (emptyFunction, PreservedAll).
Proof.
  apply (run_no_candidates_no_change defaultFlags (H := mergeSort)
           noLoopsWithSSR noAccess [NestNode 0%nat []] 1 emptyFunction).
  - split; [reflexivity|]. split.
    + repeat constructor.
    + simpl. apply NoDup_singleton.
  - intros L _. exists false. reflexivity.
  - simpl. lia.
Defined.

Lemma run_twice_no_further_change_witness :
  hasFnAttribute streamedFunction SSRFnAttr = true
  ∧ ∀ flags' findLoopsWithSSR' AAA' fuel',
      run (H := mergeSort) flags' findLoopsWithSSR' AAA' fuel' streamedFunction
      = Some (streamedFunction, PreservedAll).
Proof.
  apply (run_twice_no_further_change defaultFlags (H := mergeSort)
           noLoopsWithSSR (oneAccess false 10 (constantSCEV 0) runtimeCond)
           1 emptyFunction).
  vm_compute. reflexivity.
Defined.

(** * Further properties *)

(** ** The pass driver: what a run may change *)

Lemma foldM_preserves {A B} (P : B → Prop) (f : B → A → option B) l b b' :
  (∀ b a b', a ∈ l → f b a = Some b' → P b → P b') →
  P b → foldM f l b = Some b' → P b'.
Proof.
  revert b. induction l as [|a l IH]; intros b Hstep Hb; simpl.
  - by intros [= <-].
  - destruct (f b a) as [b1|] eqn:Hf; [|done]. simpl.
    apply IH; [|by eapply Hstep; [left|..]].
    intros b2 a2 b3 Ha2. apply Hstep. by right.
Qed.

Section RunFrame.
Context (flags : Flags) `{StdSort} (AAA : AffineAccess).

Lemma expandStep_frame ems0 st (L : Loop) st' :
  expandStep flags AAA st L = Some st' →
  runFrame_holds ems0 st → runFrame_holds ems0 st'.
Proof.
  unfold expandStep. destruct (possible st !! L) as [acc|]; [|done]. simpl.
  case_bool_decide; [by intros [= <-]|].
  destruct (expandInLoop flags AAA acc L) as [[[exp Cond] ems]|]; [|done].
  simpl. intros [= <-] [Hpre _]. split; simpl; [|done].
  by apply prefix_app_r.
Qed.

Lemma analyseTopLoop_frame ems0 fuel invalid st (T : Loop) st' :
  analyseTopLoop flags AAA fuel invalid st T = Some st' →
  runFrame_holds ems0 st → runFrame_holds ems0 st'.
Proof.
  unfold analyseTopLoop.
  destruct (dense_insert T emptyTree (trees st) !! T) as [tree|]; [|done].
  cbn [mbind option_bind].
  destruct (traverse _ _ _ _ _ _ _) as [[possible1 tree1]|]; [|done].
  cbn [mbind option_bind].
  destruct (findBest fuel tree1 _) as [best|]; [|done].
  cbn [mbind option_bind].
  destruct (foldM _ best _) as [st1|] eqn:Hfold; [|done].
  cbn [mbind option_bind]. intros [= <-] Hst.
  assert (runFrame_holds ems0 st1) as [Hpre Hquiet]; [|by split].
  eapply (foldM_preserves (runFrame_holds ems0)); [|
    |exact Hfold].
  - intros b a b' _. apply expandStep_frame.
  - destruct Hst as [Hpre Hquiet]. by split.
Qed.

Lemma setupLoop_extends st ems (L : Loop) ems' :
  setupLoop flags AAA st ems L = Some ems' →
  ems `prefix_of` ems' ∧ (conds st = ∅ → ems' = ems).
Proof.
  unfold setupLoop. destruct (conds st !! L) as [Cond|] eqn:HL.
  - destruct (getSingleExitBlock AAA L); [|done]. simpl.
    destruct (LoopPreheader (getLI AAA) L); [|done]. simpl.
    destruct (exps st !! L); [|done]. simpl.
    destruct (cloneAndSetup _ _ _ _ _ _) as [e|]; [|done]. simpl.
    intros [= <-]. split; [by apply prefix_app_r|].
    intros Hconds. by rewrite Hconds, lookup_empty in HL.
  - by intros [= <-].
Qed.

Lemma setupTopLoop_extends st ems (T : Loop) ems' :
  setupTopLoop flags AAA st ems T = Some ems' →
  ems `prefix_of` ems' ∧ (conds st = ∅ → ems' = ems).
Proof.
  unfold setupTopLoop. destruct (bestLoops st !! T) as [best|]; [|done].
  simpl. intros Hfold.
  eapply (foldM_preserves
            (fun e => ems `prefix_of` e ∧ (conds st = ∅ → e = ems)));
    [| |exact Hfold]; [|done].
  intros e L e' _ Hstep [Hpre Heq].
  destruct (setupLoop_extends _ _ _ _ Hstep) as [Hpre' Heq'].
  split; [by etrans|]. intros Hc. by rewrite (Heq' Hc), (Heq Hc).
Qed.

End RunFrame.

(** The pass reports that all analyses are preserved exactly when it hands
    back the function untouched; otherwise the changes of the body are
    appended to it, no attribute is dropped, and the function carries the
    SSR attribute (and NoInline under [ssr-no-inline]). *)
Theorem run_preserved_iff_unchanged
    flags `{StdSort} findLoopsWithSSR AAA (fuel : nat) (F F' : Function) pa :
  run flags findLoopsWithSSR AAA fuel F = Some (F', pa) →
  (pa = PreservedAll ↔ F' = F)
  ∧ fnChanges F `prefix_of` fnChanges F'
  ∧ fnStringAttrs F ⊆ fnStringAttrs F'
  ∧ (fnNoInline F = true → fnNoInline F' = true)
  ∧ (pa = PreservedNone →
     SSRFnAttr ∈ fnStringAttrs F'
     ∧ (SSRNoInline flags = true → fnNoInline F' = true)).
Proof.
  unfold run. destruct (negb (InferSSR flags)).
  { intros [= <- <-]. by repeat split. }
  destruct (hasFnAttribute F SSRFnAttr) eqn:Htag.
  { intros [= <- <-]. by repeat split. }
  destruct (foldM _ _ _) as [st|] eqn:Hphase1; [|done].
  cbn [mbind option_bind].
  destruct (foldM _ _ (emitted st)) as [ems|] eqn:Hphase2; [|done].
  cbn [mbind option_bind].
  assert (Hframe : runFrame_holds (fnChanges F) st).
  { eapply (foldM_preserves (runFrame_holds (fnChanges F))); [| |exact Hphase1].
    - intros b a b' _. apply analyseTopLoop_frame.
    - by split. }
  destruct Hframe as [Hpre Hquiet].
  assert (Hems : emitted st `prefix_of` ems ∧ (conds st = ∅ → ems = emitted st)).
  { eapply (foldM_preserves
              (fun e => emitted st `prefix_of` e
                        ∧ (conds st = ∅ → e = emitted st)));
      [| |exact Hphase2]; [|done].
    intros e T e' _ Hstep [Hp Heq].
    destruct (setupTopLoop_extends _ _ _ _ _ _ Hstep) as [Hp' Heq'].
    split; [by etrans|]. intros Hc. by rewrite (Heq' Hc), (Heq Hc). }
  destruct Hems as [Hpre2 Hsame].
  destruct (changed st) eqn:Hch; simpl; intros [= <- <-]; simpl.
  - split; [|split; [by etrans|]].
    + split; [done|]. intros HF. apply (f_equal fnStringAttrs) in HF.
      simpl in HF. unfold hasFnAttribute in Htag.
      apply bool_decide_eq_false_1 in Htag. destruct Htag. rewrite <- HF.
      apply elem_of_union_l. by apply elem_of_singleton.
    + split; [apply union_subseteq_r|].
      split; [by intros ->; destruct (SSRNoInline flags)|].
      intros _. split; [|by intros ->].
      apply elem_of_union_l. by apply elem_of_singleton.
  - destruct (Hquiet eq_refl) as [Hconds Hem].
    rewrite (Hsame Hconds), Hem.
    split; [by destruct F|]. by repeat split.
Qed.

Lemma run_preserved_iff_unchanged_witness :
  (PreservedNone = PreservedAll ↔ streamedFunction = emptyFunction)
  ∧ fnChanges emptyFunction `prefix_of` fnChanges streamedFunction
  ∧ fnStringAttrs emptyFunction ⊆ fnStringAttrs streamedFunction
  ∧ (fnNoInline emptyFunction = true → fnNoInline streamedFunction = true)
  ∧ (PreservedNone = PreservedNone →
     SSRFnAttr ∈ fnStringAttrs streamedFunction
     ∧ (SSRNoInline defaultFlags = true → fnNoInline streamedFunction = true)).
Proof.
  apply (run_preserved_iff_unchanged defaultFlags (H := mergeSort)
           noLoopsWithSSR (oneAccess false 10 (constantSCEV 0) runtimeCond)
           1 emptyFunction streamedFunction PreservedNone).
  vm_compute. reflexivity.
Defined.

(** ** The stream setup *)

Lemma foldM_snoc_inv {A B} (f : B → A → option B) l a b b' :
  foldM f (l ++ [a]) b = Some b' →
  ∃ b1, foldM f l b = Some b1 ∧ f b1 a = Some b'.
Proof.
  rewrite foldM_app. destruct (foldM f l b) as [b1|]; [|done]. simpl.
  destruct (f b1 a) as [b2|] eqn:Hf; [|done]. simpl. intros [= <-]. by eauto.
Qed.

Section SetupShape.
Context (AAA : AffineAccess).

(** The bound/stride loop of [GenerateSSRSetup] over the first [n]
    dimensions. *)
Lemma boundStride_calls E (dmid : Z) Point n bs :
  foldM (fun ems i =>
     Stride ← Steps E !! i;
     '(pre, Stride) ←
        match i with
        | O => Some ([], Stride)
        | S j => P ← PrefixSumRanges E !! j;
                 Some ([EmInst Point (VSub Stride P)], VSub Stride P)
        end;
     Bound ← Reps E !! i;
     SSRBoundStrideSetup ← boundStrideFunctions !! i;
     Some (ems ++ pre ++
           [EmCall Point SSRBoundStrideSetup
              [VConstantInt i32 dmid; Bound; Stride]]))
    (seq 0 n) [] = Some bs →
  (n <= 4)%nat ∧ (n <= length (Steps E))%nat ∧ (n <= length (Reps E))%nat
  ∧ (n <= S (length (PrefixSumRanges E)))%nat
  ∧ omap calleeOf bs = take n boundStrideFunctions
  ∧ Forall (fun e => ∀ f, calleeOf e = Some f →
                          firstArg e = Some (VConstantInt i32 dmid)) bs.
Proof.
  revert bs. induction n as [|n IH]; intros bs.
  - simpl. intros [= <-]. split_and!; try lia; [done|constructor].
  - rewrite seq_S. intros (bs1 & Hbs1 & Hstep)%foldM_snoc_inv.
    destruct (IH bs1 Hbs1) as (H4 & HS & HR & HP & Hcalls & Hargs).
    simpl in Hstep.
    destruct (Steps E !! n) as [Stride|] eqn:HSn; [|done].
    assert (n < length (Steps E))%nat by (by eapply lookup_lt_Some).
    cbn [mbind option_bind] in Hstep.
    assert (∃ pre Stride',
      match n with
      | O => Some ([], Stride)
      | S j => P ← PrefixSumRanges E !! j;
               Some ([EmInst Point (VSub Stride P)], VSub Stride P)
      end = Some (pre, Stride')
      ∧ omap calleeOf pre = []
      ∧ Forall (fun e => ∀ f, calleeOf e = Some f →
                   firstArg e = Some (VConstantInt i32 dmid)) pre
      ∧ (n <= length (PrefixSumRanges E))%nat) as (pre & Stride' & Hpre & Hc & Ha & HPn).
    { destruct n as [|j].
      - exists [], Stride. split_and!; try done; lia.
      - destruct (PrefixSumRanges E !! j) as [P|] eqn:HPj; [|done].
        apply lookup_lt_Some in HPj.
        exists [EmInst Point (VSub Stride P)], (VSub Stride P).
        split_and!; try done; try lia. by repeat constructor. }
    rewrite Hpre in Hstep. cbn [mbind option_bind] in Hstep.
    destruct (Reps E !! n) as [Bound|] eqn:HRn; [|done].
    apply lookup_lt_Some in HRn. cbn [mbind option_bind] in Hstep.
    destruct (boundStrideFunctions !! n) as [fn|] eqn:Hfn; [|done].
    pose proof (lookup_lt_Some _ _ _ Hfn) as Hn4. simpl in Hn4.
    cbn [mbind option_bind] in Hstep. injection Hstep as <-.
    split_and!; try lia.
    + rewrite !omap_app, Hcalls, Hc, (take_S_r _ _ fn) by done. reflexivity.
    + apply Forall_app. split; [done|]. apply Forall_app. split; [done|].
      by repeat constructor.
Qed.

Lemma accessLoop_store (DMid : Value) l ems n body n_reps :
  foldM (fun '(ems, n_reps) I =>
      match I with
      | StoreInst _ v =>
          Some (ems ++ [EmCall (AtInst I) riscv_ssr_push [DMid; v];
                        EmErase I], wrap_unsigned (n_reps + 1))
      | LoadInst _ _ => None
      end) l (ems, n) = Some (body, n_reps) →
  Forall (fun I => isStoreInst I = true) l
  ∧ omap calleeOf body
    = omap calleeOf ems ++ replicate (length l) riscv_ssr_push
  ∧ wrap_unsigned n_reps = wrap_unsigned (n + Z.of_nat (length l))
  ∧ (Forall (fun e => ∀ f, calleeOf e = Some f → firstArg e = Some DMid) ems →
     Forall (fun e => ∀ f, calleeOf e = Some f → firstArg e = Some DMid) body).
Proof.
  revert ems n. induction l as [|I l IH]; intros ems n.
  - simpl. intros [= <- <-]. rewrite app_nil_r, Z.add_0_r. by split_and!.
  - simpl. destruct I as [|id v]; [done|]. simpl. intros Hfold.
    destruct (IH _ _ Hfold) as (Hst & Hcalls & Hn & Hargs).
    split; [by constructor|]. split; [|split].
    + rewrite Hcalls, omap_app. simpl. by rewrite <- (assoc_L (++)).
    + rewrite Hn. wrap_lia.
    + intros Hems. apply Hargs. apply Forall_app. split; [done|].
      by repeat constructor.
Qed.

Lemma accessLoop_load (DMid : Value) l ems n body n_reps :
  foldM (fun '(ems, n_reps) I =>
      Some (ems ++ [EmCall (AtInst I) riscv_ssr_pop [DMid];
                    EmReplaceWithPop I DMid],
            wrap_unsigned (n_reps + 1))) l (ems, n) = Some (body, n_reps) →
  omap calleeOf body
  = omap calleeOf ems ++ replicate (length l) riscv_ssr_pop
  ∧ wrap_unsigned n_reps = wrap_unsigned (n + Z.of_nat (length l))
  ∧ (Forall (fun e => ∀ f, calleeOf e = Some f → firstArg e = Some DMid) ems →
     Forall (fun e => ∀ f, calleeOf e = Some f → firstArg e = Some DMid) body).
Proof.
  revert ems n. induction l as [|I l IH]; intros ems n.
  - simpl. intros [= <- <-]. rewrite app_nil_r, Z.add_0_r. by split_and!.
  - simpl. intros Hfold.
    destruct (IH _ _ Hfold) as (Hcalls & Hn & Hargs).
    split; [|split].
    + rewrite Hcalls, omap_app. simpl. by rewrite <- (assoc_L (++)).
    + rewrite Hn. wrap_lia.
    + intros Hems. apply Hargs. apply Forall_app. split; [done|].
      by repeat constructor.
Qed.

(** The three loops of [GenerateSSRSetup] emit what the specification
    lists. *)
Lemma withoutInsts_app l k :
  withoutInsts (l ++ k) = withoutInsts l ++ withoutInsts k.
Proof. apply filter_app. Qed.

Lemma withoutInsts_sites isStore (DMid : Value) l :
  withoutInsts (flat_map (specAccessSiteRewrite isStore DMid) l)
  = flat_map (specAccessSiteRewrite isStore DMid) l.
Proof.
  induction l as [|I l IH]; [done|]. simpl.
  rewrite withoutInsts_app, IH. f_equal.
  unfold specAccessSiteRewrite. destruct isStore; [destruct I|]; done.
Qed.

Lemma boundStride_exact E (DMid : Value) Point n bs :
  foldM (fun ems i =>
     Stride ← Steps E !! i;
     '(pre, Stride) ←
        match i with
        | O => Some ([], Stride)
        | S j => P ← PrefixSumRanges E !! j;
                 Some ([EmInst Point (VSub Stride P)], VSub Stride P)
        end;
     Bound ← Reps E !! i;
     SSRBoundStrideSetup ← boundStrideFunctions !! i;
     Some (ems ++ pre ++
           [EmCall Point SSRBoundStrideSetup [DMid; Bound; Stride]]))
    (seq 0 n) [] = Some bs →
  withoutInsts bs = flat_map (specBoundStrideSetup E DMid Point) (seq 0 n).
Proof.
  revert bs. induction n as [|n IH]; intros bs.
  - simpl. by intros [= <-].
  - rewrite seq_S. intros (bs1 & Hbs1 & Hstep)%foldM_snoc_inv.
    rewrite flat_map_app, <- (IH bs1 Hbs1). simpl. rewrite app_nil_r.
    simpl in Hstep. unfold specBoundStrideSetup, specStride.
    destruct (Steps E !! n) as [Stride|]; [|done].
    cbn [mbind option_bind] in Hstep |- *.
    destruct n as [|j].
    + cbn [mbind option_bind] in Hstep.
      destruct (Reps E !! 0%nat) as [Bound|]; [|done].
      cbn [mbind option_bind] in Hstep.
      destruct (boundStrideFunctions !! 0%nat) as [fn|]; [|done].
      cbn [mbind option_bind] in Hstep. injection Hstep as <-.
      by rewrite withoutInsts_app.
    + destruct (PrefixSumRanges E !! j) as [P|]; [|done].
      cbn [mbind option_bind] in Hstep |- *.
      destruct (Reps E !! S j) as [Bound|]; [|done].
      cbn [mbind option_bind] in Hstep.
      destruct (boundStrideFunctions !! S j) as [fn|]; [|done].
      cbn [mbind option_bind] in Hstep. injection Hstep as <-.
      by rewrite withoutInsts_app.
Qed.

Lemma accessLoop_store_exact (DMid : Value) l ems n body n_reps :
  foldM (fun '(ems, n_reps) I =>
      match I with
      | StoreInst _ v =>
          Some (ems ++ [EmCall (AtInst I) riscv_ssr_push [DMid; v];
                        EmErase I], wrap_unsigned (n_reps + 1))
      | LoadInst _ _ => None
      end) l (ems, n) = Some (body, n_reps) →
  body = ems ++ flat_map (specAccessSiteRewrite true DMid) l.
Proof.
  revert ems n. induction l as [|I l IH]; intros ems n.
  - simpl. intros [= <- <-]. by rewrite app_nil_r.
  - simpl. destruct I as [|id v]; [done|]. simpl. intros Hfold.
    rewrite (IH _ _ Hfold). by rewrite <- (assoc_L (++)).
Qed.

Lemma accessLoop_load_exact (DMid : Value) l ems n body n_reps :
  foldM (fun '(ems, n_reps) I =>
      Some (ems ++ [EmCall (AtInst I) riscv_ssr_pop [DMid];
                    EmReplaceWithPop I DMid],
            wrap_unsigned (n_reps + 1))) l (ems, n) = Some (body, n_reps) →
  body = ems ++ flat_map (specAccessSiteRewrite false DMid) l.
Proof.
  revert ems n. induction l as [|I l IH]; intros ems n.
  - simpl. intros [= <- <-]. by rewrite app_nil_r.
  - simpl. intros Hfold.
    rewrite (IH _ _ Hfold). by rewrite <- (assoc_L (++)).
Qed.

End SetupShape.

(** What a call of [GenerateSSRSetup] that returns has checked and
    emitted. *)
Lemma GenerateSSRSetup_shape flags AAA E (dmid : Z) (Point : InsertPoint) :
  ∀ ems, GenerateSSRSetup flags AAA E dmid Point = Some ems →
    expandedOk flags AAA E
    ∧ withoutInsts ems = specStreamSetup AAA E dmid Point
    ∧ omap calleeOf ems
      = take (length (Steps E)) boundStrideFunctions
        ++ replicate (length (getAccesses AAA (Access E)))
             (if isWrite AAA (Access E) then riscv_ssr_push
              else riscv_ssr_pop)
        ++ [riscv_ssr_setup_repetition;
            if isWrite AAA (Access E) then riscv_ssr_write_imm
            else riscv_ssr_read_imm]
    ∧ Forall (fun e => ∀ f, calleeOf e = Some f →
                firstArg e = Some (VConstantInt i32 dmid)) ems
    ∧ ∃ pre,
        ems = pre ++
          [EmCall Point riscv_ssr_setup_repetition
             [VConstantInt i32 dmid;
              VConstantInt i32
                (wrap_unsigned
                   (Z.of_nat (length (getAccesses AAA (Access E))) - 1))];
           EmCall Point
             (if isWrite AAA (Access E) then riscv_ssr_write_imm
              else riscv_ssr_read_imm)
             [VConstantInt i32 dmid;
              VConstantInt i32 (wrap_unsigned (getDimension E - 1));
              Addr E]].
Proof.
  intros ems. unfold GenerateSSRSetup.
  assert (Hverbose : (if SSRVerbose flags then printInfo AAA E else Some ())
                     = None
                     ∨ (if SSRVerbose flags then printInfo AAA E else Some ())
                       = Some ()
                       ∧ (SSRVerbose flags = true →
                          getAccesses AAA (Access E) ≠ [])).
  { destruct (SSRVerbose flags); [|by right]. unfold printInfo.
    destruct (getAccesses AAA (Access E)); [by left|by right]. }
  destruct Hverbose as [->|[-> Hverbose]]; [done|].
  cbn [mbind option_bind].
  destruct (getDimension E <=? SSR_MAX_DIM) eqn:Hdim; [|done].
  destruct (foldM _ (seq 0 _) []) as [bs|] eqn:Hbs; [|done].
  cbn [mbind option_bind].
  pose proof (boundStride_exact E (VConstantInt i32 dmid) Point _ bs Hbs)
    as Hbsx.
  destruct (boundStride_calls E dmid Point _ bs Hbs)
    as (_ & _ & HR & HP & Hcalls & Hargs).
  assert (Hd4 : (length (Steps E) <= 4)%nat).
  { unfold getDimension, SSR_MAX_DIM in Hdim. lia. }
  destruct (isWrite AAA (Access E)) eqn:Hw.
  - destruct (foldM _ (getAccesses AAA (Access E)) ([], 0))
      as [[body n_reps]|] eqn:Hbody; [|done].
    cbn [mbind option_bind negb]. intros [= <-].
    pose proof (accessLoop_store_exact _ _ _ _ _ _ Hbody) as Hbodyx.
    destruct (accessLoop_store _ _ _ _ _ _ Hbody)
      as (Hst & Hbcalls & Hn & Hbargs).
    assert (Hrep : wrap_unsigned (n_reps - 1)
      = wrap_unsigned
          (Z.of_nat (length (getAccesses AAA (Access E))) - 1)).
    { revert Hn.
      generalize (Z.of_nat (length (getAccesses AAA (Access E)))).
      intros z Hn. wrap_lia. }
    rewrite Hrep.
    split; [by split_and!|]. split; [|split; [|split]].
    + unfold specStreamSetup. rewrite Hw, <- Hbsx. simpl in Hbodyx.
      rewrite !withoutInsts_app, Hbodyx, withoutInsts_sites. done.
    + rewrite !omap_app, Hcalls, Hbcalls. done.
    + apply Forall_app. split; [done|]. apply Forall_app.
      split; [by apply Hbargs|]. by repeat constructor.
    + exists (bs ++ body). by rewrite <- (assoc_L (++)).
  - destruct (foldM _ (getAccesses AAA (Access E)) ([], 0))
      as [[body n_reps]|] eqn:Hbody; [|done].
    cbn [mbind option_bind negb]. intros [= <-].
    pose proof (accessLoop_load_exact _ _ _ _ _ _ Hbody) as Hbodyx.
    destruct (accessLoop_load _ _ _ _ _ _ Hbody) as (Hbcalls & Hn & Hbargs).
    assert (Hrep : wrap_unsigned (n_reps - 1)
      = wrap_unsigned
          (Z.of_nat (length (getAccesses AAA (Access E))) - 1)).
    { revert Hn.
      generalize (Z.of_nat (length (getAccesses AAA (Access E)))).
      intros z Hn. wrap_lia. }
    rewrite Hrep.
    split; [split_and!; try done; by rewrite Hw|]. split; [|split; [|split]].
    + unfold specStreamSetup. rewrite Hw, <- Hbsx. simpl in Hbodyx.
      rewrite !withoutInsts_app, Hbodyx, withoutInsts_sites. done.
    + rewrite !omap_app, Hcalls, Hbcalls. done.
    + apply Forall_app. split; [done|]. apply Forall_app.
      split; [by apply Hbargs|]. by repeat constructor.
    + exists (bs ++ body). by rewrite <- (assoc_L (++)).
Qed.


Section SetupOrder.
Context (flags : Flags) (AAA : AffineAccess).

(** The loop of [cloneAndSetup] from data mover [k0] on. *)
Lemma setupSteps_parts PhT ExP exp : ∀ (k0 : nat) ems0 ems d,
  (k0 + length exp <= 3)%nat →
  foldM (setupStep flags AAA PhT ExP) exp (ems0, Z.of_nat k0)
  = Some (ems, d) →
  ∃ parts,
    ems = ems0 ++ concat parts
    ∧ length parts = length exp
    ∧ ∀ (k : nat) E part,
        exp !! k = Some E → parts !! k = Some part →
        ∃ setup,
          GenerateSSRSetup flags AAA E (Z.of_nat (k0 + k)) PhT = Some setup
          ∧ part = setup ++
              (if SSRBarrier flags
               then generateSSRBarrier ExP (Z.of_nat (k0 + k) + 1)
               else []).
Proof.
  induction exp as [|E exp IH]; intros k0 ems0 ems d Hlen.
  - simpl. intros [= <- <-]. exists []. simpl. rewrite app_nil_r.
    by split_and!.
  - simpl in Hlen. simpl. unfold setupStep at 1.
    destruct (GenerateSSRSetup flags AAA E (Z.of_nat k0) PhT)
      as [setup|] eqn:Hs; [|done].
    simpl.
    replace (wrap_unsigned (Z.of_nat k0 + 1)) with (Z.of_nat (S k0))
      by wrap_lia.
    intros Hfold.
    destruct (IH (S k0) _ _ _ ltac:(lia) Hfold) as (parts & -> & Hlp & Hparts).
    exists ((setup ++ (if SSRBarrier flags
                       then generateSSRBarrier ExP (Z.of_nat (S k0))
                       else [])) :: parts).
    split; [|split].
    + simpl. by rewrite <- !(assoc_L (++)).
    + simpl. by rewrite Hlp.
    + intros [|k] E' part; simpl.
      * intros [= <-] [= <-]. exists setup. rewrite Nat.add_0_r.
        split; [done|].
        by replace (Z.of_nat k0 + 1) with (Z.of_nat (S k0)) by lia.
      * intros HE' Hpart. destruct (Hparts k E' part HE' Hpart)
          as (setup' & Hs' & ->).
        exists setup'. replace (k0 + S k)%nat with (S k0 + k)%nat by lia.
        done.
Qed.

Lemma setupSteps_defined PhT ExP exp st :
  is_Some (foldM (setupStep flags AAA PhT ExP) exp st) →
  Forall (expandedOk flags AAA) exp.
Proof.
  revert st. induction exp as [|E exp IH]; intros [ems d]; [by constructor|].
  simpl. unfold setupStep at 1.
  destruct (GenerateSSRSetup flags AAA E d PhT) as [setup|] eqn:Hs;
    [|by intros [? [=]]].
  simpl. intros Hfold. constructor; [|by eapply IH].
  by destruct (GenerateSSRSetup_shape flags AAA E d PhT setup Hs).
Qed.

(** What a call of [cloneAndSetup] that goes on to the setup has checked
    and emitted. *)
Lemma cloneAndSetup_shape PhT ExP Cond exp ems :
  exp ≠ [] → isConstantFalse Cond = false →
  cloneAndSetup flags AAA PhT ExP Cond exp = Some ems →
  (length exp <= 3)%nat
  ∧ Forall (expandedOk flags AAA) exp
  ∧ ∃ parts,
      ems = (cloneEvents PhT ExP Cond).1 ++ concat parts
            ++ [EmCall PhT riscv_ssr_enable [];
                EmCall (cloneEvents PhT ExP Cond).2 riscv_ssr_disable []]
      ∧ length parts = length exp
      ∧ ∀ (k : nat) E part,
          exp !! k = Some E → parts !! k = Some part →
          ∃ setup,
            GenerateSSRSetup flags AAA E (Z.of_nat k) PhT = Some setup
            ∧ part = setup ++
                (if SSRBarrier flags
                 then generateSSRBarrier (cloneEvents PhT ExP Cond).2
                        (Z.of_nat k + 1)
                 else [])
            ∧ withoutInsts part
              = specStreamSetup AAA E (Z.of_nat k) PhT ++
                (if SSRBarrier flags
                 then [EmCall (cloneEvents PhT ExP Cond).2 riscv_ssr_barrier
                         [VConstantInt i32 (Z.of_nat k + 1)]]
                 else []).
Proof.
  intros Hne Hcond.
  assert (Hclone : cloneIfNeeded PhT ExP Cond = Some (cloneEvents PhT ExP Cond)).
  { destruct Cond; simpl in *; try done. by rewrite Hcond. }
  unfold cloneAndSetup. rewrite Hclone. unfold NUM_SSR.
  destruct (cloneEvents PhT ExP Cond) as [cl ExP'] eqn:Hcl. cbn [fst snd].
  case_bool_decide; [done|].
  destruct (3 <? Z.of_nat (length exp)) eqn:Hlen; [done|].
  assert (Hlen' : (length exp <= 3)%nat) by lia.
  destruct (foldM _ exp ([], 0)) as [[setups d]|] eqn:Hfold; [|done].
  simpl. intros [= <-]. split; [done|]. split.
  - apply (setupSteps_defined PhT ExP' exp ([], 0)). by rewrite Hfold.
  - destruct (setupSteps_parts PhT ExP' exp 0 [] setups d
                ltac:(simpl; lia) Hfold) as (parts & -> & Hlp & Hparts).
    exists parts. split; [done|]. split; [done|]. intros k E part HE Hpart.
    destruct (Hparts k E part HE Hpart) as (setup & Hsetup & ->).
    exists setup. split; [done|]. split; [done|].
    destruct (GenerateSSRSetup_shape flags AAA E (Z.of_nat (0 + k)) PhT setup
                Hsetup) as (_ & Hx & _).
    rewrite withoutInsts_app. simpl in Hx. rewrite Hx.
    unfold generateSSRBarrier. by destruct (SSRBarrier flags).
Qed.

End SetupOrder.

(** Whenever [cloneAndSetup] returns for accesses to set up and a
    condition that is not the constant false, there are at most three
    accesses and [GenerateSSRSetup] has accepted each.  What it has
    emitted is: the clone and its condition (nothing for a constant
    condition); for the k-th access, in the order of [exp], the setup of
    data mover k in the preheader, followed under [ssr-barrier] by a
    barrier on k + 1; and last one enable in the preheader and one disable
    before the exit point. *)
Theorem cloneAndSetup_streams_in_order flags AAA PhT ExP Cond exp ems :
  exp ≠ [] → isConstantFalse Cond = false →
  cloneAndSetup flags AAA PhT ExP Cond exp = Some ems →
  (length exp <= 3)%nat
  ∧ Forall (expandedOk flags AAA) exp
  ∧ ∃ parts,
      ems = (cloneEvents PhT ExP Cond).1 ++ concat parts
            ++ [EmCall PhT riscv_ssr_enable [];
                EmCall (cloneEvents PhT ExP Cond).2 riscv_ssr_disable []]
      ∧ length parts = length exp
      ∧ ∀ (k : nat) E part,
          exp !! k = Some E → parts !! k = Some part →
          withoutInsts part
          = specStreamSetup AAA E (Z.of_nat k) PhT ++
            (if SSRBarrier flags
             then [EmCall (cloneEvents PhT ExP Cond).2 riscv_ssr_barrier
                     [VConstantInt i32 (Z.of_nat k + 1)]]
             else []).
Proof.
  intros Hne Hcond Hems.
  destruct (cloneAndSetup_shape flags AAA PhT ExP Cond exp ems Hne Hcond Hems)
    as (Hlen & Hok & parts & -> & Hlp & Hparts).
  split; [done|]. split; [done|]. exists parts. split; [done|].
  split; [done|]. intros k E part HE Hpart.
  by destruct (Hparts k E part HE Hpart) as (setup & _ & _ & Hx).
Qed.

Lemma cloneAndSetup_streams_in_order_witness :
  let AAA := oneAccess false 10 (constantSCEV 0) runtimeCond in
  let PhT := Terminator 10%nat in
  let ExP := FirstInsertionPt 11%nat in
  ∃ part,
    cloneAndSetup barrierFlags AAA PhT ExP runtimeCond [oneExpanded 0%nat]
    = Some ([EmCloneRegion PhT ExP; EmSetCondition runtimeCond] ++ part
            ++ [EmCall PhT riscv_ssr_enable [];
                EmCall (FuseBranch ExP) riscv_ssr_disable []])
    ∧ withoutInsts part
      = specStreamSetup AAA (oneExpanded 0%nat) 0 PhT
        ++ [EmCall (FuseBranch ExP) riscv_ssr_barrier [VConstantInt i32 1]].
Proof.
  intros AAA PhT ExP.
  destruct (cloneAndSetup barrierFlags AAA PhT ExP runtimeCond
              [oneExpanded 0%nat]) as [ems|] eqn:Hems;
    [|by vm_compute in Hems].
  destruct (cloneAndSetup_streams_in_order barrierFlags AAA PhT ExP
              runtimeCond [oneExpanded 0%nat] ems ltac:(done) eq_refl Hems)
    as (_ & _ & parts & -> & Hlen & Hparts).
  destruct parts as [|part [|? ?]]; [done| |done].
  exists part. split.
  - simpl. by rewrite app_nil_r.
  - apply (Hparts 0%nat (oneExpanded 0%nat) part eq_refl eq_refl).
Defined.


(** *** C6 *)

(** C6: if the guard Cond is the compile-time constant false, cloneAndSetup
    returns without cloning and without emitting anything.  If it is a
    compile-time constant true, it returns, nothing is cloned, and the
    stream setup is emitted into the original region: every insertion is
    before the preheader terminator, before the exit point or at a memory
    instruction of an access, and the calls and rewrites are, for the k-th
    access in the order of [exp], the bound/stride setups, the pushes or
    pops at the access sites, the repetition setup and the read or write
    setup of data mover k (and under ssr-barrier a barrier on k + 1 before
    the exit point), followed by one enable before the preheader
    terminator and one disable before the exit point. *)
Theorem cloneAndSetup_constant_cond flags AAA PhT ExP ty v exp :
  Z.of_nat (length exp) <= NUM_SSR →
  (constValue ty v = 0 →
   cloneAndSetup flags AAA PhT ExP (VConstantInt ty v) exp = Some [])
  ∧ (constValue ty v ≠ 0 → Forall (expandedOk flags AAA) exp →
     ∃ ems,
       cloneAndSetup flags AAA PhT ExP (VConstantInt ty v) exp = Some ems
       ∧ Forall (emittedInPlace PhT ExP) ems
       ∧ (exp = [] → ems = [])
       ∧ (exp ≠ [] →
          ∃ parts,
            ems = concat parts ++ [EmCall PhT riscv_ssr_enable [];
                                   EmCall ExP riscv_ssr_disable []]
            ∧ length parts = length exp
            ∧ ∀ (k : nat) E part,
                exp !! k = Some E → parts !! k = Some part →
                withoutInsts part
                = specStreamSetup AAA E (Z.of_nat k) PhT ++
                  (if SSRBarrier flags
                   then [EmCall ExP riscv_ssr_barrier
                           [VConstantInt i32 (Z.of_nat k + 1)]]
                   else []))).
Proof.
  intros Hlen. split.
  - intros Hv. unfold cloneAndSetup.
    assert ((NUM_SSR <? Z.of_nat (length exp)) = false) as -> by lia.
    case_bool_decide; [done|]. simpl.
    assert ((constValue ty v =? 0) = true) as -> by lia. done.
  - intros Hv Hexp.
    assert (Hcond : isConstantFalse (VConstantInt ty v) = false).
    { simpl. lia. }
    assert (∃ ems,
      cloneAndSetup flags AAA PhT ExP (VConstantInt ty v) exp = Some ems
      ∧ Forall (emittedInPlace PhT ExP) ems
      ∧ (exp = [] → ems = [])) as (ems & Hems & Hplace & Hnil).
    { unfold cloneAndSetup.
      assert ((NUM_SSR <? Z.of_nat (length exp)) = false) as -> by lia.
      case_bool_decide as Hexp_nil.
      - exists []. split; [done|]. split; [constructor|done].
      - simpl. assert ((constValue ty v =? 0) = false) as -> by lia.
        destruct (setupLoop_in_place flags AAA PhT ExP exp Hexp)
          as (setups & n & Hfold & Hs).
        rewrite Hfold. simpl. eexists. split; [done|]. split; [|done].
        unfold generateSSREnDis. in_place. }
    exists ems. split; [done|]. split; [done|]. split; [done|].
    intros Hne.
    destruct (cloneAndSetup_shape flags AAA PhT ExP (VConstantInt ty v) exp
                ems Hne Hcond Hems) as (_ & _ & parts & Heq & Hlp & Hparts).
    exists parts. split; [done|]. split; [done|].
    intros k E part HE Hpart.
    by destruct (Hparts k E part HE Hpart) as (setup & _ & _ & Hx).
Qed.

Lemma cloneAndSetup_constant_cond_witness :
  let AAA := oneAccess false 1 (symbolicSCEV 1) trueCond in
  let PhT := Terminator 10%nat in
  let ExP := FirstInsertionPt 11%nat in
  cloneAndSetup noCheckFlags AAA PhT ExP falseCond [oneExpanded 0%nat]
  = Some []
  ∧ ∃ part,
      cloneAndSetup noCheckFlags AAA PhT ExP trueCond [oneExpanded 0%nat]
      = Some (part ++ [EmCall PhT riscv_ssr_enable [];
                       EmCall ExP riscv_ssr_disable []])
      ∧ Forall (emittedInPlace PhT ExP) part
      ∧ withoutInsts part = specStreamSetup AAA (oneExpanded 0%nat) 0 PhT.
Proof.
  intros AAA PhT ExP.
  assert (Hlen : Z.of_nat (length [oneExpanded 0%nat]) <= NUM_SSR)
    by (vm_compute; discriminate).
  split.
  - apply (cloneAndSetup_constant_cond noCheckFlags AAA PhT ExP
             (IntegerTy 1) 0 [oneExpanded 0%nat] Hlen). reflexivity.
  - destruct (cloneAndSetup_constant_cond noCheckFlags AAA PhT ExP
                (IntegerTy 1) 1 [oneExpanded 0%nat] Hlen) as [_ Htrue].
    destruct Htrue as (ems & Hems & Hplace & _ & Hshape).
    + vm_compute. discriminate.
    + repeat constructor; simpl; try lia; discriminate.
    + destruct (Hshape ltac:(done)) as (parts & -> & Hlp & Hparts).
      destruct parts as [|part [|? ?]]; [done| |done].
      exists part. simpl in Hems, Hplace |- *.
      rewrite app_nil_r in Hems, Hplace.
      split; [done|]. split.
      * by apply Forall_app in Hplace as [? _].
      * exact (eq_trans
                 (Hparts 0%nat (oneExpanded 0%nat) part eq_refl eq_refl)
                 (app_nil_r _)).
Defined.

(** ** What [findBest] selects *)

Lemma sumZ_Permutation l k : l ≡ₚ k → sumZ l = sumZ k.
Proof.
  induction 1 as [|x l k _ IH|x y l|l k m _ IH1 _ IH2];
    rewrite ?sumZ_cons; lia.
Qed.

Lemma sumZ_filter {A} (f : A → Z) (P : A → Prop) `{∀ x, Decision (P x)} l :
  sumZ (f <$> l)
  = sumZ (f <$> filter P l) + sumZ (f <$> filter (fun x => ¬ P x) l).
Proof.
  induction l as [|x l IH]; [done|].
  rewrite fmap_cons, sumZ_cons, !filter_cons.
  destruct (decide (P x)), (decide (¬ P x)); try done;
    rewrite ?fmap_cons, ?sumZ_cons; lia.
Qed.

Lemma NoDup_all_equal {A} (x : A) l :
  NoDup l → x ∈ l → (∀ a, a ∈ l → a = x) → l = [x].
Proof.
  intros Hnd Hx Hall. destruct l as [|y [|z l]].
  - by apply elem_of_nil in Hx.
  - by rewrite (Hall y) by left.
  - apply NoDup_cons in Hnd as [Hy _]. exfalso. apply Hy.
    rewrite (Hall y) by left. rewrite (Hall z) by (right; left). left.
Qed.

Lemma concat_member_unique {A} (ls : list (list A)) l l' x :
  NoDup (concat ls) → l ∈ ls → l' ∈ ls → x ∈ l → x ∈ l' → l = l'.
Proof.
  induction ls as [|l0 ls IH]; intros Hnd Hl Hl' Hx Hx'.
  - by apply elem_of_nil in Hl.
  - simpl in Hnd. apply NoDup_app in Hnd as (_ & Hdisj & Hnd).
    apply elem_of_cons in Hl as [->|Hl], Hl' as [->|Hl']; [done| | |by apply IH].
    + exfalso. apply (Hdisj x Hx). apply elem_of_concat. by eauto.
    + exfalso. apply (Hdisj x Hx'). apply elem_of_concat. by eauto.
Qed.

Section TreeBest.
Context (ct : ConflictTree).

Lemma valueOf_nonneg L : valuesUnsigned ct → 0 <= valueOf ct L.
Proof.
  intros Hnn. unfold valueOf. destruct (values ct !! L) as [v|] eqn:Hv; [|done].
  by apply (Hnn L).
Qed.

Lemma selValue_nonneg sel : valuesUnsigned ct → 0 <= selValue ct sel.
Proof.
  intros Hnn. unfold selValue. induction sel as [|a sel IH]; [done|].
  rewrite fmap_cons, sumZ_cons. pose proof (valueOf_nonneg a Hnn). lia.
Qed.

Lemma selValue_app l k : selValue ct (l ++ k) = selValue ct l + selValue ct k.
Proof. unfold selValue. by rewrite fmap_app, sumZ_app. Qed.

Lemma selValue_cons a l : selValue ct (a :: l) = valueOf ct a + selValue ct l.
Proof. done. Qed.

(** The root of a nest reaches each of its loops. *)
Lemma treeIn_root_reaches t x :
  treeIn ct t → x ∈ nestLoops t → rtc (isChild ct) (nestRoot t) x.
Proof.
  induction t as [L subs IH] using Nest_ind.
  intros (Hval & Hch & Hsubs)%treeIn_inv Hx.
  apply elem_of_nestLoops_subs in Hx as [->|(s & Hs & Hx)]; [done|].
  rewrite Forall_forall in IH, Hsubs.
  apply rtc_l with (nestRoot s); [|by apply IH; auto].
  exists (nestRoot <$> subs). split; [done|].
  apply list_elem_of_fmap. by eauto.
Qed.

(** Two loops of a nest above the same loop lie on one path. *)
Lemma treeIn_comparable t a b x :
  treeIn ct t → NoDup (nestLoops t) →
  a ∈ nestLoops t → b ∈ nestLoops t →
  rtc (isChild ct) a x → rtc (isChild ct) b x →
  rtc (isChild ct) a b ∨ rtc (isChild ct) b a.
Proof.
  induction t as [L subs IH] using Nest_ind.
  intros Ht Hnd Ha Hb Hax Hbx.
  pose proof Ht as (Hval & Hch & Hsubs)%treeIn_inv.
  apply elem_of_nestLoops_subs in Ha as [->|(s & Hs & Ha)].
  { left. by apply (treeIn_root_reaches (NestNode L subs)). }
  apply elem_of_nestLoops_subs in Hb as [->|(s' & Hs' & Hb)].
  { right. apply (treeIn_root_reaches (NestNode L subs)); [done|].
    apply elem_of_nestLoops_subs. by eauto. }
  rewrite Forall_forall in IH, Hsubs.
  assert (Hxs : x ∈ nestLoops s)
    by (eapply treeIn_descendant_closed; [by apply Hsubs|done..]).
  assert (Hxs' : x ∈ nestLoops s')
    by (eapply treeIn_descendant_closed; [by apply Hsubs|done..]).
  simpl in Hnd. apply NoDup_cons in Hnd as [_ Hnd].
  assert (nestLoops s = nestLoops s') as Heq.
  { apply (concat_member_unique (nestLoops <$> subs) _ _ x); try done;
      apply list_elem_of_fmap; by eauto. }
  apply (IH s Hs); [by apply Hsubs| |done|by rewrite Heq|done|done].
  eapply NoDup_concat_sub; [done|]. apply list_elem_of_fmap. by eauto.
Qed.

End TreeBest.

Lemma sum_lookups_le_total (m : gmap Loop Z) :
  map_Forall (fun _ v => 0 <= v) m →
  ∀ l, NoDup l →
    sumZ ((fun a => default 0 (m !! a)) <$> l)
    <= sumZ (snd <$> map_to_list m).
Proof.
  induction m as [|i x m Hi IH] using map_ind; intros Hnn l Hnd.
  - rewrite map_to_list_empty. simpl.
    induction l as [|a l IHl]; [done|].
    apply NoDup_cons in Hnd as [_ Hnd].
    rewrite fmap_cons, sumZ_cons, lookup_empty. simpl. by apply IHl.
  - apply map_Forall_insert in Hnn as [Hx Hnn]; [|done].
    rewrite (sumZ_Permutation _ _
      (fmap_Permutation snd _ _ (map_to_list_insert m i x Hi))).
    rewrite fmap_cons, sumZ_cons. cbn [snd].
    assert (Hother : ∀ k, i ∉ k →
      sumZ ((fun a => default 0 (<[i:=x]> m !! a)) <$> k)
      = sumZ ((fun a => default 0 (m !! a)) <$> k)).
    { intros k Hk. induction k as [|a k IHk]; [done|].
      apply not_elem_of_cons in Hk as [Ha Hk].
      rewrite !fmap_cons, !sumZ_cons, IHk by done.
      by rewrite lookup_insert_ne. }
    destruct (decide (i ∈ l)) as [Hil|Hil].
    + apply elem_of_Permutation in Hil as [k Hk].
      rewrite (sumZ_Permutation _ _ (fmap_Permutation _ _ _ Hk)).
      rewrite Hk in Hnd. apply NoDup_cons in Hnd as [Hik Hnd].
      rewrite fmap_cons, sumZ_cons, lookup_insert_eq, Hother by done.
      simpl. specialize (IH Hnn k Hnd). lia.
    + rewrite Hother by done. specialize (IH Hnn l Hnd). lia.
Qed.

Section TreeBestRec.
Context (ct : ConflictTree) (f : Z → Z → Z).

Lemma selValue_le_total l :
  valuesUnsigned ct → NoDup l → selValue ct l <= totalValue ct.
Proof. intros Hnn Hnd. by apply sum_lookups_le_total. Qed.

Lemma bestAmong_nil : bestAmong ct [] 0.
Proof.
  intros sel' _ Hin _. destruct sel' as [|a sel']; [done|].
  exfalso. specialize (Hin a ltac:(left)). by apply elem_of_nil in Hin.
Qed.

Lemma bestAmong_app ls1 ls2 v1 v2 :
  bestAmong ct ls1 v1 → bestAmong ct ls2 v2 →
  bestAmong ct (ls1 ++ ls2) (v1 + v2).
Proof.
  intros H1 H2 sel' Hnd Hin Hanti. unfold selValue.
  rewrite (sumZ_filter (valueOf ct) (fun a => a ∈ ls1) sel').
  assert (selValue ct (filter (fun a => a ∈ ls1) sel') <= v1).
  { apply H1; [by apply NoDup_filter| |].
    - by intros a [? _]%list_elem_of_filter.
    - intros a b [_ Ha]%list_elem_of_filter [_ Hb]%list_elem_of_filter.
      by apply Hanti. }
  assert (selValue ct (filter (fun a => ¬ a ∈ ls1) sel') <= v2).
  { apply H2; [by apply NoDup_filter| |].
    - intros a [Hna Ha]%list_elem_of_filter.
      specialize (Hin a Ha). apply elem_of_app in Hin as [?|?]; done.
    - intros a b [_ Ha]%list_elem_of_filter [_ Hb]%list_elem_of_filter.
      by apply Hanti. }
  unfold selValue in *. lia.
Qed.

Lemma findBest_children_best fuel subs :
  valuesUnsigned ct →
  Forall (treeIn ct) subs →
  Forall (selectsBest ct f fuel) subs →
  ∀ val res, ∃ v sel,
    foldM (fun '(val, res) C =>
             '(v, res) ← findBestRec fuel ct f C res;
             Some (f val v, res)) (nestRoot <$> subs) (val, res)
    = Some (v, res ++ sel)
    ∧ (subs = [] → v = val)
    ∧ (∀ a, a ∈ sel → a ∈ concat (nestLoops <$> subs))
    ∧ coversInnermost ct (concat (nestLoops <$> subs)) sel
    ∧ ((∀ a b, f a b = wrap_unsigned (a + b)) → 0 <= val →
       val + selValue ct (concat (nestLoops <$> subs)) < 2 ^ 32 →
       v = val + selValue ct sel
       ∧ selValue ct sel <= selValue ct (concat (nestLoops <$> subs))
       ∧ bestAmong ct (concat (nestLoops <$> subs)) (selValue ct sel)).
Proof.
  intros Hnn Hin Hsel. revert Hin.
  induction Hsel as [|s subs Hs _ IH]; intros Hin val res.
  - exists val, []. rewrite app_nil_r. simpl.
    split; [done|]. split; [done|]. split; [by intros a ?%elem_of_nil|].
    split; [by intros x ?%elem_of_nil|].
    intros _ _ _. split_and!; [unfold selValue; simpl; lia|done|].
    apply bestAmong_nil.
  - apply Forall_cons in Hin as [Hs_in Hin].
    destruct (Hs res) as (v1 & sel1 & Hrec & Hincl1 & Hcov1 & Hopt1).
    destruct (IH Hin (f val v1) (res ++ sel1))
      as (v & sel2 & Hfold & _ & Hincl2 & Hcov2 & Hopt2).
    exists v, (sel1 ++ sel2). rewrite !fmap_cons. cbn [foldM concat].
    rewrite Hrec. cbn [mbind option_bind]. rewrite Hfold, (assoc_L (++)).
    split; [done|]. split; [done|]. split; [|split].
    + intros a [Ha|Ha]%elem_of_app; apply elem_of_app; auto.
    + intros x [Hx|Hx]%elem_of_app Hleaf.
      * destruct (Hcov1 x Hx Hleaf) as (a & Ha & Hax).
        exists a. split; [apply elem_of_app; by left|done].
      * destruct (Hcov2 x Hx Hleaf) as (a & Ha & Hax).
        exists a. split; [apply elem_of_app; by right|done].
    + intros Hf Hval Hbound. rewrite selValue_app in Hbound.
      pose proof (selValue_nonneg ct (nestLoops s) Hnn).
      pose proof (selValue_nonneg ct (concat (nestLoops <$> subs)) Hnn).
      destruct (Hopt1 Hf ltac:(lia)) as (-> & Hle1 & Hbest1 & _).
      pose proof (selValue_nonneg ct sel1 Hnn).
      assert (Hfv : f val (selValue ct sel1) = val + selValue ct sel1).
      { rewrite Hf. apply wrap_unsigned_id. lia. }
      rewrite Hfv in Hopt2.
      destruct (Hopt2 Hf ltac:(lia) ltac:(lia)) as (-> & Hle2 & Hbest2).
      rewrite !selValue_app. split_and!; [lia|lia|].
      by apply bestAmong_app.
Qed.

Lemma findBestRec_best t :
  valuesUnsigned ct → treeIn ct t → NoDup (nestLoops t) →
  ∀ fuel, (nestHeight t <= fuel)%nat → selectsBest ct f fuel t.
Proof.
  intros Hnn. induction t as [L subs IH] using Nest_ind.
  intros Ht Hnd fuel Hfuel res.
  pose proof Ht as (Hval & Hch & Hsubs)%treeIn_inv.
  destruct fuel as [|fuel]; [simpl in Hfuel; lia|].
  cbn [findBestRec nestRoot]. rewrite Hch. cbn [mbind option_bind].
  pose proof Hnd as Hnd'. cbn [nestLoops] in Hnd'.
  apply NoDup_cons in Hnd' as [HL Hnd_subs].
  assert (Hsel : Forall (selectsBest ct f fuel) subs).
  { rewrite Forall_forall in IH, Hsubs. apply Forall_forall. intros s Hs.
    apply IH; [done|by apply Hsubs| |].
    - eapply NoDup_concat_sub; [done|]. apply list_elem_of_fmap. by eauto.
    - pose proof (nestHeight_sub L subs s Hs). lia. }
  destruct (findBest_children_best fuel subs Hnn Hsubs Hsel 0 res)
    as (val & sel & -> & Hnil & Hincl & Hcov & Hopt).
  cbn [mbind option_bind]. destruct Hval as [nval Hnval]. rewrite Hnval.
  cbn [mbind option_bind].
  assert (HvL : valueOf ct L = nval) by (unfold valueOf; by rewrite Hnval).
  assert (Hnval0 : 0 <= nval) by (by apply (Hnn L)).
  assert (Hreach : ∀ a, a ∈ nestLoops (NestNode L subs) →
                        rtc (isChild ct) L a).
  { intros a Ha. by apply (treeIn_root_reaches ct (NestNode L subs)). }
  assert (Hroot_sel : ∀ sel' : list Loop, NoDup sel' →
    (∀ a, a ∈ sel' → a ∈ nestLoops (NestNode L subs)) →
    (∀ a b, a ∈ sel' → b ∈ sel' → ¬ isAncestor ct a b) →
    L ∈ sel' → sel' = [L]).
  { intros sel' Hnd' Hin Hanti HL'. apply NoDup_all_equal; [done..|].
    intros a Ha. destruct (decide (a = L)) as [|Hne]; [done|]. exfalso.
    apply (Hanti L a HL' Ha). specialize (Hreach a (Hin a Ha)).
    apply rtc_tc in Hreach as [->|]; done. }
  assert (Hsubs_sel : ∀ sel' : list Loop,
    (∀ a, a ∈ sel' → a ∈ nestLoops (NestNode L subs)) →
    L ∉ sel' → ∀ a, a ∈ sel' → a ∈ concat (nestLoops <$> subs)).
  { intros sel' Hin HL' a Ha. specialize (Hin a Ha). cbn [nestLoops] in Hin.
    apply elem_of_cons in Hin as [->|]; done. }
  pose proof (selValue_nonneg ct (concat (nestLoops <$> subs)) Hnn) as Hsubs0.
  destruct (nval <? val) eqn:Hcmp.
  - exists val, sel. split; [done|]. split; [|split].
    + intros a Ha. cbn [nestLoops]. right. by apply Hincl.
    + intros x Hx Hleaf. cbn [nestLoops] in Hx.
      apply elem_of_cons in Hx as [->|Hx]; [|by apply Hcov].
      exfalso. rewrite Hch in Hleaf. injection Hleaf as Hleaf.
      apply fmap_nil_inv in Hleaf. rewrite (Hnil Hleaf) in Hcmp. lia.
    + intros Hf Hbound. cbn [nestLoops] in Hbound.
      rewrite selValue_cons, HvL in Hbound.
      destruct (Hopt Hf ltac:(lia) ltac:(lia)) as (Hv & Hle & Hbest).
      cbn [nestLoops nestRoot]. rewrite selValue_cons, HvL.
      split_and!; [lia|lia| |lia].
      intros sel' Hnd' Hin Hanti. destruct (decide (L ∈ sel')) as [HL'|HL'].
      * rewrite (Hroot_sel sel' Hnd' Hin Hanti HL').
        rewrite selValue_cons, HvL. change (selValue ct []) with 0. lia.
      * specialize (Hbest sel' Hnd' (Hsubs_sel sel' Hin HL') Hanti). lia.
  - exists nval, [L]. rewrite take_app_length. split; [done|].
    split; [|split].
    + intros a ->%list_elem_of_singleton. left.
    + intros x Hx _. exists L. split; [left|by apply Hreach].
    + intros Hf Hbound. cbn [nestLoops] in Hbound.
      rewrite selValue_cons, HvL in Hbound.
      destruct (Hopt Hf ltac:(lia) ltac:(lia)) as (Hv & Hle & Hbest).
      cbn [nestLoops nestRoot]. rewrite !selValue_cons, HvL.
      change (selValue ct []) with 0.
      split_and!; [lia|lia| |done].
      intros sel' Hnd' Hin Hanti. destruct (decide (L ∈ sel')) as [HL'|HL'].
      * rewrite (Hroot_sel sel' Hnd' Hin Hanti HL').
        rewrite selValue_cons, HvL. change (selValue ct []) with 0. lia.
      * specialize (Hbest sel' Hnd' (Hsubs_sel sel' Hin HL') Hanti). lia.
Qed.

End TreeBestRec.

(** [findBest] at the root of a tree that satisfies the invariant. *)
Lemma findBest_best ct f fuel R :
  treeInv ct → valuesUnsigned ct → (size (values ct) <= fuel)%nat →
  Root ct = Some R →
  ∃ t v res,
    nestRoot t = R ∧ treeIn ct t ∧ NoDup (nestLoops t)
    ∧ findBest fuel ct f = Some res
    ∧ findBestRec fuel ct f R [] = Some (v, res)
    ∧ NoDup res
    ∧ (∀ a b, a ∈ res → b ∈ res → ¬ isAncestor ct a b)
    ∧ (∀ a, a ∈ res → a ∈ nestLoops t)
    ∧ coversInnermost ct (nestLoops t) res
    ∧ ((∀ a b, f a b = wrap_unsigned (a + b)) →
       selValue ct (nestLoops t) < 2 ^ 32 →
       v = selValue ct res
       ∧ bestAmong ct (nestLoops t) v
       ∧ (v <= valueOf ct R → res = [R])).
Proof.
  intros [Hdom Hroot] Hnn Hfuel HR.
  destruct (Hroot R HR) as (t & <- & Ht & Hnd & Hvals).
  assert (Hh : (nestHeight t <= fuel)%nat).
  { pose proof (nestHeight_le_length t).
    pose proof (NoDup_length_le_size _ _ Hnd Hvals). lia. }
  destruct (findBestRec_best ct f t Hnn Ht Hnd fuel Hh [])
    as (v & sel & Hrec & Hincl & Hcov & Hopt).
  destruct (findBestRec_nest ct f t Ht Hnd fuel Hh [])
    as (v' & sel' & Hrec' & _ & Hnd_sel & Hanti).
  rewrite Hrec in Hrec'. injection Hrec' as <- <-.
  exists t, v, sel. unfold findBest. rewrite HR, Hrec.
  split_and!; try done. intros Hf Hb.
  by destruct (Hopt Hf Hb) as (? & _ & ? & ?).
Qed.

(** On a tree built by [insertNode] from [unsigned] values, whatever the
    combining function: [findBest] returns a selection in which every
    innermost loop below the root has exactly one loop on its path from
    the root (itself included). *)
Theorem findBest_covers_innermost ct (combineFunc : Z → Z → Z) (fuel : nat) :
  built ct → valuesUnsigned ct → (size (values ct) <= fuel)%nat →
  ∃ res, findBest fuel ct combineFunc = Some res
    ∧ ∀ R x, Root ct = Some R → rtc (isChild ct) R x →
        children ct !! x = Some [] →
        ∃ a, a ∈ res ∧ rtc (isChild ct) a x
             ∧ ∀ b, b ∈ res → rtc (isChild ct) b x → b = a.
Proof.
  intros Hbuilt Hnn Hfuel. pose proof (built_treeInv ct Hbuilt) as Hinv.
  destruct (Root ct) as [R|] eqn:HR.
  - destruct (findBest_best ct combineFunc fuel R Hinv Hnn Hfuel HR)
      as (t & v & res & <- & Ht & Hnd & Hres & _ & _ & Hanti & Hincl & Hcov & _).
    exists res. split; [done|]. intros R x [= <-] HRx Hleaf.
    assert (Hx : x ∈ nestLoops t).
    { eapply treeIn_descendant_closed;
        [done|apply nestRoot_in_nestLoops|done]. }
    destruct (Hcov x Hx Hleaf) as (a & Ha & Hax).
    exists a. split; [done|]. split; [done|]. intros b Hb Hbx.
    destruct (treeIn_comparable ct t a b x Ht Hnd (Hincl a Ha) (Hincl b Hb)
                Hax Hbx) as [Hab|Hba].
    + apply rtc_tc in Hab as [->|Hab]; [done|].
      by destruct (Hanti a b Ha Hb).
    + apply rtc_tc in Hba as [->|Hba]; [done|].
      by destruct (Hanti b a Hb Ha).
  - destruct (findBest_treeInv ct combineFunc fuel Hinv Hfuel)
      as (res & Hres & _).
    exists res. split; [done|]. by intros R x [=].
Qed.

Lemma findBest_covers_innermost_witness :
  ∃ res, findBest 3 threeLoopTree Z.add = Some res
    ∧ ∃ a, a ∈ res ∧ rtc (isChild threeLoopTree) a 2%nat
           ∧ ∀ b, b ∈ res → rtc (isChild threeLoopTree) b 2%nat → b = a.
Proof.
  destruct (findBest_covers_innermost threeLoopTree Z.add 3)
    as (res & Hres & Hcov).
  - apply (built_insert twoLoopTree 2%nat 4 (Some 0%nat));
      [|vm_compute; reflexivity].
    apply (built_insert oneLoopTree 1%nat 3 (Some 0%nat));
      [|vm_compute; reflexivity].
    apply (built_insert emptyTree 0%nat 5 None);
      [apply built_empty|vm_compute; reflexivity].
  - apply (bool_decide_unpack _). vm_compute. exact I.
  - vm_compute. lia.
  - exists res. split; [done|]. apply (Hcov 0%nat 2%nat).
    + reflexivity.
    + apply rtc_once. exists [1%nat; 2%nat].
      split; [vm_compute; reflexivity|]. right. left.
    + vm_compute. reflexivity.
Defined.

(** With the addition of [unsigned] as combining function (the one the
    pass uses) and values that add up without overflow: no selection of
    loops below the root, none an ancestor of another, has a higher
    combined value than the one [findBest] returns; and the root alone is
    returned when its value is not below the best. *)
Theorem findBest_sum_optimal ct (fuel : nat) :
  built ct → valuesUnsigned ct → totalValue ct < 2 ^ 32 →
  (size (values ct) <= fuel)%nat →
  ∃ res, findBest fuel ct (fun a b => wrap_unsigned (a + b)) = Some res
    ∧ (∀ sel', NoDup sel' →
         (∀ a, a ∈ sel' → ∃ R, Root ct = Some R ∧ rtc (isChild ct) R a) →
         (∀ a b, a ∈ sel' → b ∈ sel' → ¬ isAncestor ct a b) →
         selValue ct sel' <= selValue ct res)
    ∧ (∀ R, Root ct = Some R → selValue ct res <= valueOf ct R →
            res = [R]).
Proof.
  intros Hbuilt Hnn Htotal Hfuel.
  pose proof (built_treeInv ct Hbuilt) as Hinv.
  destruct (Root ct) as [R|] eqn:HR.
  - destruct (findBest_best ct (fun a b => wrap_unsigned (a + b)) fuel R
                Hinv Hnn Hfuel HR)
      as (t & v & res & <- & Ht & Hnd & Hres & _ & _ & _ & _ & _ & Hopt).
    destruct Hopt as (-> & Hbest & Hroot); [done| |].
    { pose proof (selValue_le_total ct (nestLoops t) Hnn Hnd). lia. }
    exists res. split; [done|]. split.
    + intros sel' Hnd' Hin Hanti. apply Hbest; [done| |done].
      intros a Ha. destruct (Hin a Ha) as (R & [= <-] & HRa).
      eapply treeIn_descendant_closed;
        [done|apply nestRoot_in_nestLoops|done].
    + intros R [= <-]. apply Hroot.
  - destruct (findBest_treeInv ct (fun a b => wrap_unsigned (a + b)) fuel
                Hinv Hfuel) as (res & Hres & _).
    exists res. split; [done|]. split; [|by intros R [=]].
    intros sel' _ Hin _. destruct sel' as [|a sel'].
    + unfold findBest in Hres. rewrite HR in Hres. injection Hres as <-.
      done.
    + destruct (Hin a) as (R & [=] & _). left.
Qed.

Lemma findBest_sum_optimal_witness :
  ∃ res, findBest 3 threeLoopTree (fun a b => wrap_unsigned (a + b))
         = Some res
    ∧ selValue threeLoopTree [1%nat; 2%nat] <= selValue threeLoopTree res.
Proof.
  destruct (findBest_sum_optimal threeLoopTree 3)
    as (res & Hres & Hbest & _).
  - apply (built_insert twoLoopTree 2%nat 4 (Some 0%nat));
      [|vm_compute; reflexivity].
    apply (built_insert oneLoopTree 1%nat 3 (Some 0%nat));
      [|vm_compute; reflexivity].
    apply (built_insert emptyTree 0%nat 5 None);
      [apply built_empty|vm_compute; reflexivity].
  - apply (bool_decide_unpack _). vm_compute. exact I.
  - vm_compute. reflexivity.
  - vm_compute. lia.
  - exists res. split; [done|]. apply Hbest.
    + apply NoDup_cons. split; [|apply NoDup_singleton].
      by intros [=]%list_elem_of_singleton.
    + intros a Ha. exists 0%nat. split; [reflexivity|].
      apply rtc_once. exists [1%nat; 2%nat].
      split; [vm_compute; reflexivity|done].
    + intros a b Ha Hb Hab.
      assert (∃ c, isChild threeLoopTree a c) as (c & chs & Hchs & Hc)
        by (inversion Hab; eauto).
      apply elem_of_cons in Ha as [->| ->%list_elem_of_singleton];
        vm_compute in Hchs; injection Hchs as <-; by apply elem_of_nil in Hc.
Defined.

(** [insertNode] on a tree that it has built. *)
Lemma insertNode_spec ct (Node : Loop) (value : Z)
    (Parent : option Loop) :
  built ct →
  (is_Some (insertNode ct Node value Parent)
   ↔ values ct !! Node = None
     ∧ match Parent with
       | None => Root ct = None
       | Some P => P = Node ∨ is_Some (values ct !! P)
       end)
  ∧ ∀ ct', insertNode ct Node value Parent = Some ct' →
      values ct' = <[Node := value]> (values ct)
      ∧ Root ct' = match Parent with
                   | None => Some Node
                   | Some _ => Root ct
                   end
      ∧ ∀ L, children ct' !! L
             = if bool_decide (Parent = Some L) then
                 Some ((if bool_decide (L = Node) then []
                        else default [] (children ct !! L)) ++ [Node])
               else if bool_decide (L = Node) then Some []
               else children ct !! L.
Proof.
  intros Hbuilt. destruct (built_treeInv ct Hbuilt) as [Hdom _].
  unfold insertNode.
  destruct (values ct !! Node) as [v|] eqn:Hv.
  { destruct (Hdom Node) as [[chs Hc] _]; [by eauto|].
    rewrite Hc. rewrite bool_decide_eq_false_2 by (by intros [|]).
    split; [|done]. split; [by intros [? [=]]|by intros [[=] _]]. }
  destruct (children ct !! Node) as [chs|] eqn:Hc.
  { destruct (Hdom Node) as [_ [v Hv']]; [by eauto|]. by rewrite Hv in Hv'. }
  rewrite bool_decide_eq_true_2 by (by left).
  rewrite !dense_insert_fresh by done.
  destruct Parent as [P|].
  - destruct (decide (P = Node)) as [->|HP].
    + rewrite lookup_insert_eq. split; [split; [by auto|by eauto]|].
      intros ct' [= <-]. cbn. split_and!; try done. intros L.
      case_bool_decide as HL.
      * injection HL as <-. rewrite bool_decide_eq_true_2 by done.
        by rewrite lookup_insert_eq.
      * assert (L ≠ Node) by congruence.
        rewrite bool_decide_eq_false_2 by done.
        by rewrite !lookup_insert_ne by done.
    + rewrite lookup_insert_ne by done.
      destruct (children ct !! P) as [chsP|] eqn:HcP.
      * split.
        { split; [intros _|by eauto]. split; [done|]. right.
          apply Hdom. by eauto. }
        intros ct' [= <-]. cbn. split_and!; try done. intros L.
        case_bool_decide as HL.
        -- injection HL as <-. rewrite bool_decide_eq_false_2 by done.
           by rewrite lookup_insert_eq, HcP.
        -- assert (L ≠ P) by congruence.
           rewrite lookup_insert_ne by done. case_bool_decide as HLN.
           ++ subst L. by rewrite lookup_insert_eq.
           ++ by rewrite lookup_insert_ne.
      * split; [|done]. split; [by intros [? [=]]|].
        intros [_ [|HvP]]; [done|]. apply Hdom in HvP as [? HvP].
        by rewrite HcP in HvP.
  - destruct (Root ct) as [R|] eqn:HR.
    + split; [|done]. split; [by intros [? [=]]|by intros [_ [=]]].
    + split; [split; [by auto|by eauto]|].
      intros ct' [= <-]. cbn. split_and!; try done. intros L.
      rewrite bool_decide_eq_false_2 by done. case_bool_decide as HLN.
      * subst L. by rewrite lookup_insert_eq.
      * by rewrite lookup_insert_ne.
Qed.


(** On a tree built by [insertNode], a further insertion succeeds exactly
    for a loop that has not been inserted, as root while there is none, or
    below a parent that has been inserted (or that is the loop itself).
    It then stores the value under the loop and keeps every other value,
    sets the root only when no parent is given, gives the loop an empty
    child vector and appends it to the child vector of its parent. *)
Theorem insertNode_succeeds_iff ct (Node : Loop) (value : Z)
    (Parent : option Loop) :
  built ct →
  (is_Some (insertNode ct Node value Parent)
   ↔ values ct !! Node = None
     ∧ match Parent with
       | None => Root ct = None
       | Some P => P = Node ∨ is_Some (values ct !! P)
       end)
  ∧ ∀ ct', insertNode ct Node value Parent = Some ct' →
      values ct' = <[Node := value]> (values ct)
      ∧ Root ct' = match Parent with
                   | None => Some Node
                   | Some _ => Root ct
                   end
      ∧ ∀ L, children ct' !! L
             = if bool_decide (Parent = Some L) then
                 Some ((if bool_decide (L = Node) then []
                        else default [] (children ct !! L)) ++ [Node])
               else if bool_decide (L = Node) then Some []
               else children ct !! L.
Proof. apply insertNode_spec. Qed.

Lemma insertNode_succeeds_iff_witness :
  is_Some (insertNode oneLoopTree 1%nat 3 (Some 0%nat))
  ↔ values oneLoopTree !! 1%nat = None
    ∧ (0%nat = 1%nat ∨ is_Some (values oneLoopTree !! 0%nat)).
Proof.
  apply (insertNode_succeeds_iff oneLoopTree 1%nat 3 (Some 0%nat)).
  apply (built_insert emptyTree 0%nat 5 None);
    [apply built_empty|vm_compute; reflexivity].
Defined.

(** ** The candidates of a loop *)

Section CandidateLimits.
Context (flags : Flags) `{StdSort} (AAA : AffineAccess).

Lemma isValid_fold (write : bool) l : ∀ valid v,
  foldM (fun valid I =>
     if write then
       match I with
       | StoreInst _ v => Some (valid && CHECK_TYPE (getType v))
       | LoadInst _ _ => None
       end
     else Some (valid && CHECK_TYPE (instType I))) l valid = Some v →
  v = valid
      && forallb (fun I => bool_decide (streamedType write I = Some DoubleTy)) l.
Proof.
  induction l as [|I l IH]; intros valid v; simpl.
  - intros [= <-]. by rewrite andb_true_r.
  - unfold streamedType, CHECK_TYPE. destruct write.
    + destruct I as [|id val]; [done|]. simpl. intros ->%IH.
      rewrite <- andb_assoc. do 2 f_equal.
      destruct (decide (getType val = DoubleTy));
        [rewrite !bool_decide_eq_true_2 by congruence
        |rewrite !bool_decide_eq_false_2 by congruence]; done.
    + simpl. intros ->%IH. rewrite <- andb_assoc. do 2 f_equal.
      destruct (decide (instType I = DoubleTy));
        [rewrite !bool_decide_eq_true_2 by congruence
        |rewrite !bool_decide_eq_false_2 by congruence]; done.
Qed.

Lemma isValid_true A (L : Loop) :
  isValid AAA A L = Some true →
  loopToDimension AAA A L <= 4
  ∧ Forall (fun I => streamedType (isWrite AAA A) I = Some DoubleTy)
      (getAccesses AAA A).
Proof.
  unfold isValid. destruct (isWellFormed AAA A L); [|done].
  destruct (foldM _ _ true) as [v|] eqn:Hfold; [|done]. simpl.
  apply isValid_fold in Hfold as ->. simpl.
  intros [= [Hall Hdim]%andb_true_iff]. split.
  - unfold SSR_MAX_DIM in Hdim. lia.
  - apply Forall_forall. intros I HI.
    rewrite forallb_forall in Hall. specialize (Hall I).
    eapply bool_decide_eq_true_1, Hall. by apply list_elem_of_In.
Qed.

Lemma filterValid_filter (L : Loop) accs valid :
  filterValid AAA L accs = Some valid →
  valid = filter (fun A => isValid AAA A L = Some true) accs.
Proof.
  revert valid. induction accs as [|A accs IH]; intros valid; simpl.
  - by intros [= <-].
  - destruct (isValid AAA A L) as [ok|] eqn:Hok; [|done]. simpl.
    destruct (filterValid AAA L accs) as [valid'|]; [|done]. simpl.
    intros [= <-]. rewrite filter_cons, (IH valid' eq_refl).
    destruct ok.
    + by rewrite decide_True by by rewrite Hok.
    + by rewrite decide_False by (rewrite Hok; congruence).
Qed.

Lemma getSingleExitBlock_Some (L : Loop) Ex :
  getSingleExitBlock AAA L = Some Ex
  ↔ ExitBlock (getLI AAA) L = Some Ex
    ∨ (ExitBlock (getLI AAA) L = None
       ∧ ExitBlocks (getLI AAA) L ≠ []
       ∧ ∀ BB, BB ∈ ExitBlocks (getLI AAA) L → BB = Ex).
Proof.
  unfold getSingleExitBlock.
  destruct (ExitBlock (getLI AAA) L) as [Ex0|].
  { split; [by left|]. by intros [?|[[=] _]]. }
  destruct (ExitBlocks (getLI AAA) L) as [|Ex0 exits].
  { split; [done|]. by intros [[=]|(_ & ? & _)]. }
  destruct (forallb _ exits) eqn:Hall.
  - rewrite forallb_forall in Hall. split.
    + intros [= <-]. right. split_and!; try done.
      intros BB [->|HBB]%elem_of_cons; [done|]. symmetry.
      eapply bool_decide_eq_true_1, Hall. by apply list_elem_of_In.
    + intros [[=]|(_ & _ & Hex)]. f_equal. apply Hex. left.
  - split; [done|]. intros [[=]|(_ & _ & Hex)]. exfalso.
    apply not_true_iff_false in Hall. apply Hall, forallb_forall.
    intros BB HBB%list_elem_of_In. apply bool_decide_eq_true_2.
    rewrite (Hex Ex0) by left. symmetry. apply Hex. by right.
Qed.

End CandidateLimits.

(** The candidates that [visitLoop] selects for a loop.  The loop counts
    as valid exactly when it is not known to be invalid, has a preheader
    and a single exit block: the block of [getExitBlock], or else the one
    block that all entries of [getExitBlocks] name.  An invalid loop gets
    no candidate.  Every candidate is an expandable access of the loop
    with at most four dimensions whose memory instructions all move
    doubles; and an expandable access that passes this filter is left out
    only when three candidates are selected, none of which the order puts
    after it. *)
Theorem selectCandidates_hardware_limits
    flags `{StdSort} AAA (L : Loop) (known : bool) l b :
  selectCandidates flags AAA L known = Some (l, b) →
  (b = false
   ↔ known = false
     ∧ is_Some (LoopPreheader (getLI AAA) L)
     ∧ ∃ Ex, ExitBlock (getLI AAA) L = Some Ex
             ∨ (ExitBlock (getLI AAA) L = None
                ∧ ExitBlocks (getLI AAA) L ≠ []
                ∧ ∀ BB, BB ∈ ExitBlocks (getLI AAA) L → BB = Ex))
  ∧ (b = true → l = [])
  ∧ (∀ A, A ∈ l →
       A ∈ getExpandableAccesses AAA L (SSRConflictFreeOnly flags)
       ∧ loopToDimension AAA A L <= 4
       ∧ Forall (fun I => streamedType (isWrite AAA A) I = Some DoubleTy)
           (getAccesses AAA A))
  ∧ (b = false →
     ∀ A, A ∈ getExpandableAccesses AAA L (SSRConflictFreeOnly flags) →
          isValid AAA A L = Some true → A ∉ l →
          length l = 3%nat ∧ ∀ B, B ∈ l → comp AAA L A B = false).
Proof.
  intros Hsel.
  assert (Hloop : isValidLoop AAA L = true
    ↔ is_Some (LoopPreheader (getLI AAA) L)
      ∧ ∃ Ex, ExitBlock (getLI AAA) L = Some Ex
              ∨ (ExitBlock (getLI AAA) L = None
                 ∧ ExitBlocks (getLI AAA) L ≠ []
                 ∧ ∀ BB, BB ∈ ExitBlocks (getLI AAA) L → BB = Ex)).
  { unfold isValidLoop.
    destruct (LoopPreheader (getLI AAA) L) as [Ph|]; simpl.
    - destruct (getSingleExitBlock AAA L) as [Ex|] eqn:HEx; simpl.
      + split; [intros _|done]. split; [done|]. exists Ex.
        by apply getSingleExitBlock_Some.
      + split; [done|]. intros [_ [Ex HEx']].
        apply getSingleExitBlock_Some in HEx'. congruence.
    - split; [done|]. by intros [[? [=]] _]. }
  unfold selectCandidates in Hsel.
  destruct (known || negb (isValidLoop AAA L)) eqn:Hinv.
  - simpl in Hsel. injection Hsel as <- <-.
    assert (Hnil : take (Z.to_nat NUM_SSR) (std_sort (comp AAA L) []) = []).
    { pose proof (std_sort_perm _ (comp AAA L) []) as Hp.
      apply Permutation_nil_r in Hp. by rewrite Hp. }
    rewrite Hnil. split_and!; try done.
    + split; [done|]. intros (-> & Hrest). simpl in Hinv.
      apply negb_true_iff in Hinv. apply Hloop in Hrest. congruence.
    + by intros A ?%elem_of_nil.
  - apply orb_false_iff in Hinv as [-> Hvalid%negb_false_iff].
    destruct (filterValid AAA L _) as [valid|] eqn:Hvalid_l; [|done].
    simpl in Hsel. injection Hsel as <- <-.
    apply filterValid_filter in Hvalid_l.
    pose proof (std_sort_perm _ (comp AAA L) valid) as Hperm.
    pose proof (std_sort_sorted _ (comp AAA L) valid (comp_strict_weak AAA L))
      as Hsorted.
    split_and!; try done.
    + split; [intros _|done]. split; [done|]. by apply Hloop.
    + intros A HA. apply elem_of_take in HA as (i & HA & _).
      apply list_elem_of_lookup_2 in HA. rewrite Hperm, Hvalid_l in HA.
      apply list_elem_of_filter in HA as [Hok HA]. split; [done|].
      by apply isValid_true.
    + intros _ A HA Hok Hout.
      assert (HAs : A ∈ std_sort (comp AAA L) valid).
      { rewrite Hperm, Hvalid_l. by apply list_elem_of_filter. }
      apply list_elem_of_lookup_1 in HAs as [j Hj].
      change (Z.to_nat NUM_SSR) with 3%nat in *.
      assert (Hj3 : (3 <= j)%nat).
      { destruct (decide (3 <= j)%nat); [done|]. exfalso. apply Hout.
        apply elem_of_take. exists j. split; [done|lia]. }
      split.
      * rewrite length_take. apply lookup_lt_Some in Hj. lia.
      * intros B (i & Hi & Hi3)%elem_of_take.
        assert (Hij : (i < j)%nat) by lia.
        exact (StronglySorted_lookup _ _ i j B A Hsorted Hij Hi Hj).
Qed.

Lemma selectCandidates_hardware_limits_witness :
  (false = true → [0%nat; 1%nat] = [])
  ∧ (∀ A, A ∈ [0%nat; 1%nat] →
       A ∈ getExpandableAccesses twoReads 0%nat
             (SSRConflictFreeOnly defaultFlags)
       ∧ loopToDimension twoReads A 0%nat <= 4
       ∧ Forall (fun I => streamedType (isWrite twoReads A) I = Some DoubleTy)
           (getAccesses twoReads A)).
Proof.
  destruct (selectCandidates_hardware_limits defaultFlags (H := mergeSort)
              twoReads 0%nat false [0%nat; 1%nat] false)
    as (_ & Hnil & Hin & _); [vm_compute; reflexivity|].
  by split.
Defined.

(** ** The analysis of a loop nest *)

Section Traverse.
Context (flags : Flags) `{StdSort} (AAA : AffineAccess).
Context (ssrInvalidLoops : gset Loop).

Lemma conflictLoop_returns accs vis (L : Loop) ps gain :
  (∀ p, p ∈ ps → p.2 ≠ Bad) →
  is_Some (conflictLoop AAA accs vis L ps gain).
Proof.
  revert gain. induction ps as [|p ps IH]; intros gain Hps;
    cbn [conflictLoop]; [done|].
  assert (Hp : p.2 ≠ Bad) by (apply Hps; left).
  assert (Hstep : is_Some (conflictStep AAA accs vis L gain p)).
  { unfold conflictStep. destruct (p.2); [done| |done].
    destruct (decide (p.1 ∈ vis)); done. }
  destruct Hstep as [g ->]. cbn [mbind option_bind]. apply IH.
  intros q Hq. apply Hps. by right.
Qed.

Lemma estGainLoop_returns m accs (L : Loop) Accs st :
  (SSRNoIntersectCheck flags = true
   ∨ ∀ A, A ∈ Accs → ∀ p, p ∈ getConflicts AAA A L → p.2 ≠ Bad) →
  is_Some (estGainLoop flags AAA m accs L Accs st).
Proof.
  revert st. induction Accs as [|A Accs IH]; intros [[gain vis] cl] Hok;
    cbn [estGainLoop]; [done|].
  assert (Hstep : is_Some (estGainStep flags AAA m accs L (gain, vis, cl) A)).
  { unfold estGainStep.
    destruct (SSRNoIntersectCheck flags) eqn:Hni.
    - simpl. by destruct (repsLoop AAA A _ cl).
    - destruct Hok as [|Hok]; [done|].
      destruct (conflictLoop_returns accs ({[A]} ∪ vis) L
                  (getConflicts AAA A L)
                  (wrap_int (gain - getEstExpandCost AAA A
                                      (loopToDimension AAA A L))))
        as [g ->]; [apply Hok; left|].
      simpl. by destruct (repsLoop AAA A _ cl). }
  destruct Hstep as [st' ->]. cbn [mbind option_bind]. apply IH.
  destruct Hok as [?|Hok]; [by left|right].
  intros B HB. apply Hok. by right.
Qed.

Lemma getEstGain_returns (L : Loop) Accs :
  (SSRNoIntersectCheck flags = true
   ∨ ∀ A, A ∈ Accs → ∀ p, p ∈ getConflicts AAA A L → p.2 ≠ Bad) →
  is_Some (getEstGain flags AAA Accs L).
Proof.
  intros Hok. unfold getEstGain, getEstGainWith.
  destruct (estGainLoop_returns EST_MEMOP_COST (list_to_set Accs) L Accs
              (0, ∅, ∅) Hok) as [[[g vis] cl] ->].
  done.
Qed.

Lemma selectCandidates_incl (L : Loop) known l b A :
  selectCandidates flags AAA L known = Some (l, b) → A ∈ l →
  A ∈ getExpandableAccesses AAA L (SSRConflictFreeOnly flags).
Proof.
  unfold selectCandidates.
  destruct (known || negb (isValidLoop AAA L)); simpl.
  - intros [= <- <-] (i & HA & _)%elem_of_take.
    apply list_elem_of_lookup_2 in HA.
    rewrite (std_sort_perm _ (comp AAA L) []) in HA.
    by apply elem_of_nil in HA.
  - destruct (filterValid AAA L _) as [valid|] eqn:Hvalid; [|done]. simpl.
    intros [= <- <-] (i & HA & _)%elem_of_take.
    apply list_elem_of_lookup_2 in HA.
    rewrite (std_sort_perm _ (comp AAA L) valid) in HA.
    rewrite (filterValid_filter AAA L _ _ Hvalid) in HA.
    by apply list_elem_of_filter in HA as [_ HA].
Qed.

(** [visitLoop] on a loop that is new to the tree and to [possible]. *)
Lemma visitLoop_returns (L : Loop) possible tree :
  built tree →
  values tree !! L = None →
  possible !! L = None →
  accessesOk flags AAA L →
  conflictsOk flags AAA L →
  match ParentLoop (getLI AAA) L with
  | None => Root tree = None
  | Some P => is_Some (children tree !! P)
  end →
  ∃ l b gain tree',
    selectCandidates flags AAA L (bool_decide (L ∈ ssrInvalidLoops))
    = Some (l, b)
    ∧ getEstGain flags AAA l L = Some gain
    ∧ insertNode tree L (Z.max 0 gain) (ParentLoop (getLI AAA) L)
      = Some tree'
    ∧ visitLoop flags AAA L possible tree (bool_decide (L ∈ ssrInvalidLoops))
      = Some (<[L := l]> possible, tree', negb b).
Proof.
  intros Hbuilt Hv Hp Hacc Hconf Hparent.
  destruct (selectCandidates_returns flags AAA L
              (bool_decide (L ∈ ssrInvalidLoops)) Hacc) as [[l b] Hsel].
  destruct (getEstGain_returns L l) as [gain Hgain].
  { destruct Hconf as [?|Hconf]; [by left|right]. intros A HA.
    apply Hconf. by eapply selectCandidates_incl. }
  destruct (insertNode_returns tree L (Z.max 0 gain)
              (ParentLoop (getLI AAA) L) (built_treeInv _ Hbuilt) Hv)
    as (tree' & Hins & _).
  { destruct (ParentLoop (getLI AAA) L); [by right|done]. }
  exists l, b, gain, tree'. split; [done|]. split; [done|]. split; [done|].
  unfold visitLoop. rewrite Hsel. cbn [mbind option_bind].
  rewrite dense_insert_fresh by done. rewrite lookup_insert_eq.
  cbn [mbind option_bind app]. rewrite Hgain. cbn [mbind option_bind].
  rewrite wrap_unsigned_id.
  2:{ pose proof (getEstGain_range flags AAA l L gain Hgain) as Hr.
      unfold in_int_range, INT_MIN, INT_MAX in Hr. lia. }
  assert ((if isOutermost (getLI AAA) L then None
           else ParentLoop (getLI AAA) L) = ParentLoop (getLI AAA) L) as ->.
  { unfold isOutermost. destruct (ParentLoop (getLI AAA) L);
      [by rewrite bool_decide_eq_false_2|by rewrite bool_decide_eq_true_2]. }
  rewrite Hins. cbn [mbind option_bind]. by rewrite insert_insert_eq.
Qed.

Lemma nestIn_parent parent w :
  nestIn (getLI AAA) parent w → ParentLoop (getLI AAA) (nestRoot w) = parent.
Proof. destruct w. by intros (? & _)%nestIn_inv. Qed.

Lemma filter_parent_subs (P L : Loop) subs :
  Forall (nestIn (getLI AAA) (Some L)) subs →
  filter (fun C => ParentLoop (getLI AAA) C = Some P) (nestRoot <$> subs)
  = if decide (P = L) then nestRoot <$> subs else [].
Proof.
  induction 1 as [|s subs Hs _ IH]; [by destruct (decide (P = L))|].
  rewrite fmap_cons, filter_cons, IH, (nestIn_parent _ _ Hs).
  destruct (decide (P = L)) as [->|HPL].
  - by rewrite decide_True.
  - by rewrite decide_False by congruence.
Qed.

Lemma filter_parent_fresh (ct : ConflictTree) (L : Loop) ws :
  Forall (fun w => ∃ p, nestIn (getLI AAA) (Some p) w
                        ∧ is_Some (values ct !! p)) ws →
  values ct !! L = None →
  filter (fun C => ParentLoop (getLI AAA) C = Some L) (nestRoot <$> ws) = [].
Proof.
  intros Hws HL. induction Hws as [|w ws (p & Hw & Hp) _ IH]; [done|].
  rewrite fmap_cons, filter_cons, IH, (nestIn_parent _ _ Hw).
  rewrite decide_False; [done|]. intros [= ->]. rewrite HL in Hp.
  by destruct Hp.
Qed.

(** The work-list loop over nests whose parents are in the tree. *)
Lemma traverse_builds n :
  ∀ ws possible ct fuel,
    length (concat (nestLoops <$> ws)) = n →
    (n <= fuel)%nat →
    built ct → valuesUnsigned ct →
    Forall (fun w => ∃ p, nestIn (getLI AAA) (Some p) w
                          ∧ is_Some (values ct !! p)) ws →
    NoDup (concat (nestLoops <$> ws)) →
    (∀ L, L ∈ concat (nestLoops <$> ws) →
          values ct !! L = None ∧ possible !! L = None
          ∧ accessesOk flags AAA L ∧ conflictsOk flags AAA L) →
    ∃ possible' ct',
      traverse flags AAA fuel ssrInvalidLoops (nestRoot <$> ws) possible ct
      = Some (possible', ct')
      ∧ built ct' ∧ valuesUnsigned ct' ∧ Root ct' = Root ct
      ∧ (∀ K, K ∉ concat (nestLoops <$> ws) →
              values ct' !! K = values ct !! K
              ∧ possible' !! K = possible !! K)
      ∧ (∀ P, is_Some (values ct !! P) →
              children ct' !! P
              = Some (default [] (children ct !! P)
                      ++ filter (fun C => ParentLoop (getLI AAA) C = Some P)
                           (nestRoot <$> ws)))
      ∧ (∀ L, L ∈ concat (nestLoops <$> ws) →
              children ct' !! L = Some (SubLoops (getLI AAA) L)
              ∧ loopAnalysed flags AAA ssrInvalidLoops possible' ct' L).
Proof.
  induction n as [|n IH];
    intros ws possible ct fuel Hlen Hfuel Hbuilt Hnn Hws Hnd Hfresh.
  - destruct ws as [|w ws].
    + exists possible, ct. destruct fuel; simpl; split_and!; try done.
      * intros P [chs HP]%(proj1 (built_treeInv _ Hbuilt)).
        by rewrite HP, app_nil_r.
      * by intros L ?%elem_of_nil.
      * intros P [chs HP]%(proj1 (built_treeInv _ Hbuilt)).
        by rewrite HP, app_nil_r.
      * by intros L ?%elem_of_nil.
    + rewrite fmap_cons in Hlen. cbn [concat] in Hlen.
      rewrite length_app in Hlen. pose proof (nestLoops_length_pos w). lia.
  - destruct ws as [|[L subs] rest]; [done|].
    destruct fuel as [|fuel]; [lia|].
    pose proof (built_treeInv _ Hbuilt) as [Hdom _].
    apply Forall_cons in Hws as [(p & HnestL & Hp) Hrest].
    apply nestIn_inv in HnestL as (Hparent & Hsubloops & Hsubs).
    rewrite fmap_cons in Hlen, Hnd, Hfresh. cbn [concat nestLoops] in *.
    destruct (Hfresh L) as (HvL & HpL & Hacc & Hconf); [left|].
    destruct (visitLoop_returns L possible ct Hbuilt HvL HpL Hacc Hconf)
      as (l & b & gain & ct1 & Hsel & Hgain & Hins & Hvisit).
    { rewrite Hparent. by apply Hdom. }
    rewrite Hparent in Hins.
    destruct (insertNode_spec ct L (Z.max 0 gain) (Some p) Hbuilt)
      as [_ Hspec].
    destruct (Hspec ct1 Hins) as (Hvals & Hroot1 & Hch1). clear Hspec.
    assert (HpL' : p ≠ L) by (intros ->; rewrite HvL in Hp; by destruct Hp).
    rewrite fmap_cons. cbn [traverse nestRoot]. rewrite Hvisit.
    cbn [mbind option_bind]. rewrite Hsubloops, <- fmap_app.
    simpl in Hnd. apply NoDup_cons in Hnd as [HLnot Hnd].
    assert (Hmem : ∀ K, K ∈ concat (nestLoops <$> rest ++ subs)
      ↔ K ∈ concat (nestLoops <$> subs) ++ concat (nestLoops <$> rest)).
    { intros K. rewrite fmap_app, concat_app, !elem_of_app. tauto. }
    destruct (IH (rest ++ subs) (<[L := l]> possible) ct1 fuel)
      as (possible' & ct' & Htrav & Hbuilt' & Hnn' & Hroot' & Hkeep'
          & Hold' & Hnew').
    + rewrite fmap_app, concat_app, length_app.
      simpl in Hlen. rewrite length_app in Hlen. lia.
    + lia.
    + by eapply built_insert.
    + unfold valuesUnsigned. rewrite Hvals.
      apply map_Forall_insert_2; [lia|done].
    + apply Forall_app. split.
      * eapply Forall_impl; [exact Hrest|]. intros w (p' & Hw & Hp').
        exists p'. split; [done|]. rewrite Hvals, lookup_insert_is_Some'.
        by right.
      * eapply Forall_impl; [exact Hsubs|]. intros w Hw.
        exists L. split; [done|]. rewrite Hvals, lookup_insert_is_Some'.
        by left.
    + rewrite fmap_app, concat_app.
      by rewrite (Permutation_app_comm (concat (nestLoops <$> rest))).
    + intros K HK%Hmem.
      assert (K ≠ L) by (by intros ->).
      destruct (Hfresh K) as (? & ? & ? & ?); [by right|].
      rewrite Hvals, !lookup_insert_ne by done. done.
    + exists possible', ct'. split; [done|]. split; [done|].
      split; [done|]. split; [congruence|].
      assert (HLrest : L ∉ concat (nestLoops <$> rest ++ subs))
        by (by intros ?%Hmem).
      split; [|split].
      * intros K HK. apply not_elem_of_cons in HK as [HKL HK].
        destruct (Hkeep' K) as [-> ->]; [by intros ?%Hmem|].
        by rewrite Hvals, !lookup_insert_ne by done.
      * intros P HP.
        assert (HPL : P ≠ L) by (intros ->; rewrite HvL in HP; by destruct HP).
        rewrite Hold' by (rewrite Hvals, lookup_insert_is_Some'; by right).
        rewrite Hch1, fmap_app, filter_app, (filter_parent_subs P L subs Hsubs).
        rewrite (decide_False (P := P = L)) by done. rewrite app_nil_r.
        rewrite filter_cons, Hparent.
        rewrite (bool_decide_eq_false_2 (P = L)) by done.
        destruct (decide (p = P)) as [->|HpP].
        -- rewrite bool_decide_eq_true_2 by done.
           rewrite decide_True by done. cbn [default id].
           by rewrite <- (assoc_L (++)).
        -- rewrite bool_decide_eq_false_2 by congruence.
           by rewrite decide_False by congruence.
      * intros K [->|HK]%elem_of_cons.
        -- split.
           ++ rewrite Hold' by (rewrite Hvals, lookup_insert_is_Some'; by left).
              rewrite Hch1.
              rewrite bool_decide_eq_false_2 by congruence.
              rewrite bool_decide_eq_true_2 by done. cbn [default id app].
              rewrite fmap_app, filter_app.
              rewrite (filter_parent_fresh ct L rest Hrest HvL).
              rewrite (filter_parent_subs L L subs Hsubs).
              by rewrite decide_True, Hsubloops.
           ++ exists l, b, gain. split; [done|].
              destruct (Hkeep' L HLrest) as [-> ->].
              by rewrite Hvals, !lookup_insert_eq.
        -- by apply Hnew', Hmem.
Qed.

End Traverse.

(** The work-list loop from a top-level loop and the empty tree. *)
Lemma traverse_top_builds
    flags `{StdSort} AAA (ssrInvalidLoops : gset Loop) (t : Nest)
    (possible : gmap Loop (list AffAcc)) (fuel : nat) :
  nestIn (getLI AAA) None t →
  NoDup (nestLoops t) →
  (∀ L, L ∈ nestLoops t →
        possible !! L = None
        ∧ accessesOk flags AAA L ∧ conflictsOk flags AAA L) →
  (length (nestLoops t) <= fuel)%nat →
  ∃ possible' ct',
    traverse flags AAA fuel ssrInvalidLoops [nestRoot t] possible emptyTree
    = Some (possible', ct')
    ∧ built ct' ∧ valuesUnsigned ct'
    ∧ Root ct' = Some (nestRoot t)
    ∧ (∀ K, is_Some (values ct' !! K) ↔ K ∈ nestLoops t)
    ∧ (∀ L, L ∈ nestLoops t →
            children ct' !! L = Some (SubLoops (getLI AAA) L)
            ∧ loopAnalysed flags AAA ssrInvalidLoops possible' ct' L)
    ∧ (∀ K, K ∉ nestLoops t → possible' !! K = possible !! K).
Proof.
  destruct t as [T subs].
  intros (Hparent & Hsubloops & Hsubs)%nestIn_inv Hnd Hok Hfuel.
  cbn [nestLoops length] in Hfuel. destruct fuel as [|fuel]; [lia|].
  destruct (Hok T) as (HpT & Hacc & Hconf); [left|].
  destruct (visitLoop_returns flags AAA ssrInvalidLoops T possible emptyTree
              built_empty (lookup_empty _) HpT Hacc Hconf)
    as (l & b & gain & ct1 & Hsel & Hgain & Hins & Hvisit).
  { by rewrite Hparent. }
  rewrite Hparent in Hins.
  destruct (insertNode_spec emptyTree T (Z.max 0 gain) None built_empty)
    as [_ Hspec].
  destruct (Hspec ct1 Hins) as (Hvals & Hroot1 & Hch1). clear Hspec.
  cbn [traverse nestRoot]. rewrite Hvisit. cbn [mbind option_bind app].
  rewrite Hsubloops.
  cbn [nestLoops] in Hnd. apply NoDup_cons in Hnd as [HTnot Hnd].
  destruct (traverse_builds flags AAA ssrInvalidLoops
              (length (concat (nestLoops <$> subs)))
              subs (<[T := l]> possible) ct1 fuel)
    as (possible' & ct' & Htrav & Hbuilt' & Hnn' & Hroot' & Hkeep'
        & Hold' & Hnew'); try done.
  - lia.
  - eapply built_insert; [apply built_empty|done].
  - unfold valuesUnsigned. rewrite Hvals.
    apply map_Forall_insert_2; [lia|]. apply map_Forall_empty.
  - eapply Forall_impl; [exact Hsubs|]. intros w Hw. exists T.
    split; [done|]. by rewrite Hvals, lookup_insert_eq.
  - intros L HL. assert (L ≠ T) by (by intros ->).
    destruct (Hok L) as (? & ? & ?); [by right|].
    rewrite Hvals, !lookup_insert_ne by done. done.
  - exists possible', ct'. split; [done|]. split; [done|]. split; [done|].
    split; [congruence|].
    destruct (Hkeep' T HTnot) as [HvT HpT'].
    assert (HanT : children ct' !! T = Some (SubLoops (getLI AAA) T)
                   ∧ loopAnalysed flags AAA ssrInvalidLoops possible' ct' T).
    { split.
      - rewrite Hold' by (by rewrite Hvals, lookup_insert_eq).
        rewrite Hch1, bool_decide_eq_false_2 by done.
        rewrite bool_decide_eq_true_2 by done. cbn [default id app].
        rewrite (filter_parent_subs AAA T T subs Hsubs).
        by rewrite decide_True, Hsubloops.
      - exists l, b, gain. split; [done|].
        by rewrite HvT, HpT', Hvals, !lookup_insert_eq. }
    split; [|split].
    + intros K. cbn [nestLoops]. split.
      * intros HK. destruct (decide (K = T)) as [->|HKT]; [left|right].
        destruct (decide (K ∈ concat (nestLoops <$> subs))); [done|].
        destruct (Hkeep' K) as [HvK _]; [done|].
        rewrite HvK, Hvals, lookup_insert_ne in HK by done.
        cbn [values emptyTree] in HK. rewrite lookup_empty in HK.
        by destruct HK.
      * intros [->|HK]%elem_of_cons.
        -- by rewrite HvT, Hvals, lookup_insert_eq.
        -- destruct (Hnew' K HK) as (_ & l' & b' & g' & _ & _ & _ & ->).
           done.
    + intros L [->|HL]%elem_of_cons; [done|by apply Hnew'].
    + intros K HK. cbn [nestLoops] in HK.
      apply not_elem_of_cons in HK as [HKT HK].
      destruct (Hkeep' K HK) as [_ ->]. by rewrite lookup_insert_ne.
Qed.

(** The analysis of a top-level loop returns when the loops of its nest
    are all different and new to [possible], their accesses are well
    formed and have no [Bad] conflict, and the fuel covers the loops: no
    assertion of [visitLoop] or [insertNode] fails.  The conflict tree it
    builds from the empty tree has the top-level loop as root, holds
    exactly the loops of the nest, lists as children of each loop its
    sub-loops in the order of [LoopInfo], and gives each loop the gain of
    its candidates clamped at 0; [possible] is changed at these loops
    only. *)
Theorem traverse_builds_loop_nest
    flags `{StdSort} AAA (ssrInvalidLoops : gset Loop) (t : Nest)
    (possible : gmap Loop (list AffAcc)) (fuel : nat) :
  nestIn (getLI AAA) None t →
  NoDup (nestLoops t) →
  (∀ L, L ∈ nestLoops t →
        possible !! L = None
        ∧ accessesOk flags AAA L ∧ conflictsOk flags AAA L) →
  (length (nestLoops t) <= fuel)%nat →
  ∃ possible' ct',
    traverse flags AAA fuel ssrInvalidLoops [nestRoot t] possible emptyTree
    = Some (possible', ct')
    ∧ built ct' ∧ valuesUnsigned ct'
    ∧ Root ct' = Some (nestRoot t)
    ∧ (∀ K, is_Some (values ct' !! K) ↔ K ∈ nestLoops t)
    ∧ (∀ L, L ∈ nestLoops t →
            children ct' !! L = Some (SubLoops (getLI AAA) L)
            ∧ loopAnalysed flags AAA ssrInvalidLoops possible' ct' L)
    ∧ (∀ K, K ∉ nestLoops t → possible' !! K = possible !! K).
Proof. apply traverse_top_builds. Qed.

Lemma traverse_builds_loop_nest_witness :
  ∃ possible' ct',
    traverse (H := mergeSort) defaultFlags
      (oneAccess false 10 (constantSCEV 0) runtimeCond) 1 ∅ [0%nat] ∅
      emptyTree
    = Some (possible', ct')
    ∧ Root ct' = Some 0%nat.
Proof.
  destruct (traverse_builds_loop_nest defaultFlags (H := mergeSort)
              (oneAccess false 10 (constantSCEV 0) runtimeCond) ∅
              (NestNode 0%nat []) ∅ 1)
    as (possible' & ct' & Htrav & _ & _ & Hroot & _).
  - constructor; [reflexivity|reflexivity|constructor].
  - simpl. apply NoDup_singleton.
  - intros L HL. split; [apply lookup_empty|]. split.
    + intros A _. split; [reflexivity|]. simpl. discriminate.
    + right. intros A _ p Hp. simpl in Hp. by apply elem_of_nil in Hp.
  - simpl. lia.
  - exists possible', ct'. by split.
Defined.

(** *** C10 *)

(** C10: the value that visitLoop inserts into the conflict tree for a loop
    is max(0, estimated gain) of the candidates it has just selected and
    recorded in [possible] for that loop.  A negative estimated gain is
    recorded as 0, the tree holds no negative value, and a loop whose
    estimated gain is negative is still chosen by the selection when the
    tree holds that loop alone.  On a loop that is new to the tree and to
    [possible], with well-formed accesses without Bad conflict and its
    parent in the tree, visitLoop returns. *)
Theorem visitLoop_inserts_clamped_gain
    flags `{StdSort} AAA (L : Loop) possible tree known :
  built tree →
  (accessesOk flags AAA L → conflictsOk flags AAA L →
   values tree !! L = None → possible !! L = None →
   match ParentLoop (getLI AAA) L with
   | None => Root tree = None
   | Some P => is_Some (children tree !! P)
   end →
   is_Some (visitLoop flags AAA L possible tree known))
  ∧ ∀ possible' tree' b,
      visitLoop flags AAA L possible tree known = Some (possible', tree', b) →
      ∃ candidates isKnownInvalid gain,
        selectCandidates flags AAA L known = Some (candidates, isKnownInvalid)
        ∧ b = negb isKnownInvalid
        ∧ possible'
          = <[L := default [] (possible !! L) ++ candidates]> possible
        ∧ getEstGain flags AAA (default [] (possible !! L) ++ candidates) L
          = Some gain
        ∧ insertNode tree L (Z.max 0 gain)
            (if isOutermost (getLI AAA) L then None
             else ParentLoop (getLI AAA) L) = Some tree'
        ∧ values tree' = <[L := Z.max 0 gain]> (values tree)
        ∧ (gain < 0 → values tree' !! L = Some 0)
        ∧ ((∀ N v, values tree !! N = Some v → 0 <= v) →
           ∀ N v, values tree' !! N = Some v → 0 <= v)
        ∧ (tree = emptyTree → isOutermost (getLI AAA) L = true →
           ∀ fuel f, findBest (S fuel) tree' f = Some [L]).
Proof.
  intros Hbuilt. split.
  - intros Hacc Hconf Hv Hp Hparent.
    destruct (visitLoop_returns flags AAA (if known then {[ L ]} else ∅) L
                possible tree Hbuilt Hv Hp Hacc Hconf Hparent)
      as (l & b & gain & tree' & _ & _ & _ & Hvisit).
    assert (bool_decide (L ∈ (if known then {[ L ]} else ∅ : gset Loop))
            = known) as Hk.
    { destruct known.
      - apply bool_decide_eq_true_2. by apply elem_of_singleton.
      - apply bool_decide_eq_false_2. apply not_elem_of_empty. }
    rewrite Hk in Hvisit. by rewrite Hvisit.
  - intros possible' tree' b. unfold visitLoop.
    destruct (selectCandidates flags AAA L known) as [[cands b0]|]; [|done].
    cbn [mbind option_bind].
    assert (Hl0 : dense_insert L [] possible !! L
                  = Some (default [] (possible !! L))).
    { unfold dense_insert. destruct (possible !! L) as [l0|] eqn:HpL.
      - by rewrite HpL.
      - by rewrite lookup_insert_eq. }
    rewrite Hl0. cbn [mbind option_bind].
    destruct (getEstGain flags AAA (default [] (possible !! L) ++ cands) L)
      as [gain|] eqn:Hgain; [|done].
    cbn [mbind option_bind].
    destruct (insertNode tree L _ _) as [tree1|] eqn:Hins; [|done].
    intros [= <- <- <-].
    pose proof (getEstGain_range _ _ _ _ _ Hgain) as Hrange.
    assert (Hval : wrap_unsigned (Z.max 0 gain) = Z.max 0 gain).
    { apply wrap_unsigned_id.
      unfold in_int_range, INT_MIN, INT_MAX in Hrange. lia. }
    rewrite Hval in Hins.
    destruct (insertNode_values _ _ _ _ _ (built_treeInv _ Hbuilt) Hins)
      as (HvL & HcL & Hvals).
    exists cands, b0, gain.
    split; [done|]. split; [done|]. split.
    { unfold dense_insert. destruct (possible !! L) as [l0|]; [done|].
      by rewrite insert_insert_eq. }
    split; [done|]. split; [done|]. split; [done|].
    split; [|split].
    + intros Hneg. rewrite Hvals, lookup_insert_eq. f_equal. lia.
    + intros Hpos N v. rewrite Hvals.
      destruct (decide (L = N)) as [->|HLN].
      * rewrite lookup_insert_eq. intros [= <-]. lia.
      * rewrite lookup_insert_ne by done. apply Hpos.
    + intros -> Hout fuel f. rewrite Hout, insertNode_empty_root in Hins.
      injection Hins as <-. apply findBest_single. lia.
Qed.

Lemma visitLoop_inserts_clamped_gain_witness :
  ∃ possible' tree',
    visitLoop (H := mergeSort) defaultFlags
      (oneAccess false 10 (constantSCEV 0) runtimeCond) 0%nat ∅ emptyTree false
    = Some (possible', tree', true)
    ∧ possible' = {[ 0%nat := [0%nat] ]}
    ∧ getEstGain defaultFlags
        (oneAccess false 10 (constantSCEV 0) runtimeCond) [0%nat] 0%nat
      = Some (-14)
    ∧ values tree' !! 0%nat = Some 0
    ∧ ∀ fuel f, findBest (S fuel) tree' f = Some [0%nat].
Proof.
  destruct (visitLoop_inserts_clamped_gain defaultFlags (H := mergeSort)
              (oneAccess false 10 (constantSCEV 0) runtimeCond) 0%nat ∅
              emptyTree false built_empty) as [Hreturns Hvalue].
  destruct Hreturns as [[[possible' tree'] b] Hvisit].
  - intros A _. split; [reflexivity|]. simpl. discriminate.
  - right. intros A _ p Hp. simpl in Hp. by apply elem_of_nil in Hp.
  - reflexivity.
  - reflexivity.
  - reflexivity.
  - destruct (Hvalue possible' tree' b Hvisit)
      as (cands & inv & gain & Hsel & Hb & Hposs & Hgain & _ & _ & Hneg & _
          & Hbest).
    vm_compute in Hsel. injection Hsel as <- <-.
    vm_compute in Hgain. injection Hgain as <-.
    exists possible', tree'. rewrite Hvisit, Hb, Hposs.
    split; [reflexivity|]. split; [reflexivity|]. split; [reflexivity|].
    split; [apply Hneg; lia|]. by apply Hbest.
Defined.

(** ** The expansion in the preheader *)

Lemma tcdm_fold_fst PhT exp : ∀ ems Cond0,
  let r := fold_left (fun '(ems, Cond) E =>
      let '(chk_ems, chk) := GenerateTCDMCheck E PhT in
      (ems ++ chk_ems ++ [EmInst PhT (VAnd Cond chk)], VAnd Cond chk))
    exp (ems, Cond0) in
  length r.1 = (length ems + 4 * length exp)%nat
  ∧ (Forall (fun e => ∀ p, insertedBefore e = Some p → p = PhT) ems →
     Forall (fun e => ∀ p, insertedBefore e = Some p → p = PhT) r.1).
Proof.
  induction exp as [|E exp IH]; intros ems Cond0; simpl.
  - split; [lia|done].
  - match goal with |- context [fold_left _ exp (?e, ?c)] =>
      destruct (IH e c) as [Hlen Hall] end.
    simpl in Hlen, Hall. split.
    + rewrite Hlen, !length_app. simpl. lia.
    + intros Hems. apply Hall. apply Forall_app. split; [done|].
      repeat constructor; by intros p [= <-].
Qed.

(** When [expandInLoop] returns, and what. *)
Lemma expandInLoop_spec flags AAA accs (L : Loop) :
  (is_Some (expandInLoop flags AAA accs L)
   ↔ accs ≠ [] ∧ (length accs <= 3)%nat
     ∧ is_Some (LoopPreheader (getLI AAA) L)
     ∧ ∃ Cond0,
         (expandAllAt AAA accs L (negb (SSRNoIntersectCheck flags))
                      (negb (SSRNoBoundCheck flags))).2 = Some Cond0
         ∧ getType Cond0 = IntegerTy 1)
  ∧ ∀ exp Cond ems,
      expandInLoop flags AAA accs L = Some (exp, Cond, ems) →
      ∃ Ph,
        LoopPreheader (getLI AAA) L = Some Ph
        ∧ exp = (expandAllAt AAA accs L (negb (SSRNoIntersectCheck flags))
                             (negb (SSRNoBoundCheck flags))).1
        ∧ getType Cond = IntegerTy 1
        ∧ head ems = Some (EmExpandAllAt accs L (Terminator Ph))
        ∧ length ems
          = (1 + (if SSRNoTCDMCheck flags then 0 else 4 * length exp))%nat
        ∧ Forall (fun e => ∀ p, insertedBefore e = Some p →
                                p = Terminator Ph) ems
        ∧ (SSRNoTCDMCheck flags = true →
           (expandAllAt AAA accs L (negb (SSRNoIntersectCheck flags))
                        (negb (SSRNoBoundCheck flags))).2 = Some Cond).
Proof.
  unfold expandInLoop, NUM_SSR.
  case_bool_decide as Hnil.
  { split; [|done]. split; [by intros [? [=]]|by intros [? _]]. }
  destruct (3 <? Z.of_nat (length accs)) eqn:Hlen.
  { split; [|done]. split; [by intros [? [=]]|]. intros (_ & ? & _). lia. }
  destruct (LoopPreheader (getLI AAA) L) as [Ph|]; cbn [mbind option_bind].
  2:{ split; [|done]. split; [by intros [? [=]]|].
      by intros (_ & _ & [? [=]] & _). }
  destruct (expandAllAt AAA accs L _ _) as [exp0 [Cond0|]];
    cbn [mbind option_bind fst snd].
  2:{ split; [|done]. split; [by intros [? [=]]|].
      by intros (_ & _ & _ & ? & [=] & _). }
  destruct (SSRNoTCDMCheck flags) eqn:Hflag; cbn [negb].
  - case_bool_decide as Hty.
    + split.
      * split; [intros _|by eauto]. split_and!; [done|lia|by eauto|by eauto].
      * intros exp Cond ems [= <- <- <-]. exists Ph.
        split_and!; try done. repeat constructor. by intros p [=].
    + split; [|done]. split; [by intros [? [=]]|].
      intros (_ & _ & _ & C & [= <-] & ?). done.
  - match goal with |- context [fold_left ?f exp0 ?i] =>
      pose proof (tcdm_fold_fst (Terminator Ph) exp0 [] Cond0) as Hfst;
      pose proof (tcdm_fold_snd (Terminator Ph) exp0 [] Cond0) as Hsnd;
      destruct (fold_left f exp0 i) as [ems1 Cond1] end.
    cbn [fst snd] in Hfst, Hsnd. destruct Hfst as [Hlen1 Hall1].
    assert (Hty1 : getType Cond1 = getType Cond0)
      by (rewrite Hsnd; apply guard_fold_type).
    case_bool_decide as Hty.
    + split.
      * split; [intros _|by eauto].
        split_and!; [done|lia|by eauto|]. exists Cond0. by rewrite <- Hty1.
      * intros exp Cond ems [= <- <- <-]. exists Ph.
        split_and!; try done.
        -- simpl. by rewrite Hlen1.
        -- constructor; [by intros p [=]|]. apply Hall1. constructor.
    + split; [|done]. split; [by intros [? [=]]|].
      intros (_ & _ & _ & C & [= <-] & ?). congruence.
Qed.

(** [expandInLoop] returns only for one to three accesses of a loop with
    a preheader for which the analysis hands back a condition of type i1;
    with [ssr-no-tcdm-check], where it builds no instruction of its own,
    it returns exactly then.  It returns the accesses as the analysis
    expanded them, and a condition of type i1; everything it inserts goes
    before the terminator of the preheader: the expansion first, then,
    unless [ssr-no-tcdm-check] is set, at most four instructions per
    access for the scratchpad check.  With [ssr-no-tcdm-check] the
    condition is the one of the analysis and nothing but the expansion is
    inserted. *)
Theorem expandInLoop_inserts_in_preheader flags AAA accs (L : Loop) :
  (is_Some (expandInLoop flags AAA accs L) →
   accs ≠ [] ∧ (length accs <= 3)%nat
   ∧ is_Some (LoopPreheader (getLI AAA) L)
   ∧ ∃ Cond0,
       (expandAllAt AAA accs L (negb (SSRNoIntersectCheck flags))
                    (negb (SSRNoBoundCheck flags))).2 = Some Cond0
       ∧ getType Cond0 = IntegerTy 1)
  ∧ (SSRNoTCDMCheck flags = true →
     accs ≠ [] → (length accs <= 3)%nat →
     is_Some (LoopPreheader (getLI AAA) L) →
     (∃ Cond0,
        (expandAllAt AAA accs L (negb (SSRNoIntersectCheck flags))
                     (negb (SSRNoBoundCheck flags))).2 = Some Cond0
        ∧ getType Cond0 = IntegerTy 1) →
     is_Some (expandInLoop flags AAA accs L))
  ∧ ∀ exp Cond ems,
      expandInLoop flags AAA accs L = Some (exp, Cond, ems) →
      ∃ Ph,
        LoopPreheader (getLI AAA) L = Some Ph
        ∧ exp = (expandAllAt AAA accs L (negb (SSRNoIntersectCheck flags))
                             (negb (SSRNoBoundCheck flags))).1
        ∧ getType Cond = IntegerTy 1
        ∧ head ems = Some (EmExpandAllAt accs L (Terminator Ph))
        ∧ (length ems <= 1 + 4 * length exp)%nat
        ∧ Forall (fun e => ∀ p, insertedBefore e = Some p →
                                p = Terminator Ph) ems
        ∧ (SSRNoTCDMCheck flags = true →
           (expandAllAt AAA accs L (negb (SSRNoIntersectCheck flags))
                        (negb (SSRNoBoundCheck flags))).2 = Some Cond
           ∧ ems = [EmExpandAllAt accs L (Terminator Ph)]).
Proof.
  destruct (expandInLoop_spec flags AAA accs L) as [Hiff Hres].
  split; [by apply Hiff|]. split.
  - intros _ Hne Hlen HPh HCond. by apply Hiff.
  - intros exp Cond ems Hret.
    destruct (Hres exp Cond ems Hret)
      as (Ph & HPh & Hexp & Hty & Hhead & Hlen & Hall & Hcond).
    exists Ph. split_and!; try done.
    + destruct (SSRNoTCDMCheck flags); lia.
    + intros Hflag. split; [by apply Hcond|].
      rewrite Hflag in Hlen. destruct ems as [|e [|? ?]]; [done| |done].
      by injection Hhead as ->.
Qed.

Lemma expandInLoop_inserts_in_preheader_witness :
  is_Some (expandInLoop noCheckFlags
             (oneAccess false 1 (symbolicSCEV 1) runtimeCond) [0%nat] 0%nat).
Proof.
  apply (expandInLoop_inserts_in_preheader noCheckFlags
           (oneAccess false 1 (symbolicSCEV 1) runtimeCond) [0%nat] 0%nat).
  - reflexivity.
  - done.
  - simpl. lia.
  - by eexists.
  - exists runtimeCond. by split.
Defined.

(** ** The loops that already use SSR *)

Section FindLoops.
Context (LI : LoopInfo) (F : FunctionBody) (depth : nat).

Lemma parentChain_elem d : ∀ L ch K,
  parentChain d LI L = Some ch →
  (K ∈ ch ↔ ∃ l, L = Some l
                 ∧ rtc (fun a b => ParentLoop LI a = Some b) l K).
Proof.
  induction d as [|d IH]; intros [l|] ch K; simpl.
  - done.
  - intros [= <-]. split; [by intros ?%elem_of_nil|by intros (? & [=] & _)].
  - destruct (parentChain d LI (ParentLoop LI l)) as [ch'|] eqn:Hch; [|done].
    simpl. intros [= <-]. rewrite elem_of_cons, (IH _ _ K Hch). split.
    + intros [->|(l' & Hl' & Hrtc)]; exists l; (split; [done|]); [done|].
      by eapply rtc_l.
    + intros (? & [= <-] & Hrtc).
      apply rtc_inv in Hrtc as [->|(l' & Hl' & Hrtc)]; [by left|right; eauto].
  - intros [= <-]. split; [by intros ?%elem_of_nil|by intros (? & [=] & _)].
Qed.

Lemma markLoops_chain d : ∀ L inv ch,
  parentChain d LI L = Some ch →
  markLoops d LI L inv = Some (list_to_set ch ∪ inv).
Proof.
  induction d as [|d IH]; intros [l|] inv ch; simpl.
  - done.
  - intros [= <-]. by rewrite list_to_set_nil, (left_id_L ∅ (∪)).
  - destruct (parentChain d LI (ParentLoop LI l)) as [ch'|] eqn:Hch; [|done].
    simpl. intros [= <-]. rewrite (IH _ _ _ Hch), list_to_set_cons.
    f_equal. rewrite (assoc_L (∪)). f_equal. apply (comm_L (∪)).
  - intros [= <-]. by rewrite list_to_set_nil, (left_id_L ∅ (∪)).
Qed.

Lemma markLoops_inv d : ∀ L inv inv',
  markLoops d LI L inv = Some inv' →
  ∃ ch, parentChain d LI L = Some ch ∧ inv' = list_to_set ch ∪ inv.
Proof.
  induction d as [|d IH]; intros [l|] inv inv'; simpl.
  - done.
  - intros [= <-]. exists []. by rewrite list_to_set_nil, (left_id_L ∅ (∪)).
  - intros (ch & -> & ->)%IH. exists (l :: ch). split; [done|].
    rewrite list_to_set_cons, (assoc_L (∪)). f_equal. apply (comm_L (∪)).
  - intros [= <-]. exists []. by rewrite list_to_set_nil, (left_id_L ∅ (∪)).
Qed.

(** What marking the loops of a block adds. *)
Lemma markLoops_block B inv inv' :
  markLoops depth LI (getLoopFor F B) inv = Some inv' →
  ∀ K, K ∈ inv' ↔ loopContains LI F K B ∨ K ∈ inv.
Proof.
  intros (ch & Hch & ->)%markLoops_inv K.
  rewrite elem_of_union, elem_of_list_to_set.
  by rewrite (parentChain_elem _ _ _ K Hch).
Qed.

Lemma scanUnmarked_step B inv m i inv1 m1 :
  scanUnmarked depth LI F B (inv, m) i = Some (inv1, m1) →
  inv ⊆ inv1
  ∧ (m = true → m1 = true)
  ∧ (touchesSSR i = true →
     m1 = true ∨ ∀ K, loopContains LI F K B → K ∈ inv1)
  ∧ (m1 = true → m = true ∨ touchesSSR i = true)
  ∧ (∀ K, K ∈ inv1 →
          K ∈ inv ∨ (loopContains LI F K B ∧ touchesSSR i = true)).
Proof.
  unfold scanUnmarked. destruct i as [attr intr asm|].
  2:{ intros [= <- <-]. split_and!; try done; auto. }
  destruct attr.
  - destruct (markLoops depth LI (getLoopFor F B) inv) as [inv2|] eqn:Hmark;
      [|done].
    simpl. intros [= <- <-].
    pose proof (markLoops_block B inv inv2 Hmark) as Hin.
    split_and!.
    + intros K HK. apply Hin. by right.
    + intros ->. by destruct intr as [id|], asm; try case_bool_decide.
    + intros _. right. intros K HK. apply Hin. by left.
    + auto.
    + intros K [HK|HK]%Hin; auto.
  - simpl. intros [= <- <-]. split_and!; try done.
    + intros ->. by destruct intr as [id|], asm; try case_bool_decide.
    + intros Ht. left. simpl in Ht. destruct asm; [done|].
      rewrite orb_false_r in Ht. destruct intr as [id|]; [by rewrite Ht|done].
    + destruct intr as [id|], asm; try case_bool_decide; auto.
    + auto.
Qed.

Lemma scanUnmarked_fold B insts : ∀ inv m inv' m',
  foldM (scanUnmarked depth LI F B) insts (inv, m) = Some (inv', m') →
  inv ⊆ inv'
  ∧ (m = true → m' = true)
  ∧ (∀ i, i ∈ insts → touchesSSR i = true →
          m' = true ∨ ∀ K, loopContains LI F K B → K ∈ inv')
  ∧ (m' = true → m = true ∨ ∃ i, i ∈ insts ∧ touchesSSR i = true)
  ∧ (∀ K, K ∈ inv' →
          K ∈ inv ∨ (loopContains LI F K B
                     ∧ ∃ i, i ∈ insts ∧ touchesSSR i = true)).
Proof.
  induction insts as [|i insts IH]; intros inv m inv' m'; cbn [foldM].
  - intros [= <- <-]. split; [done|]. split; [done|].
    split; [by intros i ?%elem_of_nil|]. split; auto.
  - destruct (scanUnmarked depth LI F B (inv, m) i) as [[inv1 m1]|] eqn:Hstep;
      [|done].
    cbn [mbind option_bind]. intros Hfold.
    destruct (scanUnmarked_step _ _ _ _ _ _ Hstep)
      as (Hsub1 & Hm1 & Ht1 & Hs1 & Hk1).
    destruct (IH _ _ _ _ Hfold) as (Hsub & Hm & Ht & Hs & Hk).
    split_and!.
    + by etrans.
    + auto.
    + intros j [->|Hj]%elem_of_cons Htj; [|by apply (Ht j)].
      destruct (Ht1 Htj) as [->|Hall]; [left; by apply Hm|].
      right. intros K HK. by apply Hsub, Hall.
    + intros [Hm1'|(j & Hj & Htj)]%Hs.
      * destruct (Hs1 Hm1') as [?|?]; [by left|right].
        exists i. split; [left|done].
      * right. exists j. split; [by right|done].
    + intros K [HK|(HK & j & Hj & Htj)]%Hk.
      * destruct (Hk1 K HK) as [?|[? ?]]; [by left|right].
        split; [done|]. exists i. split; [left|done].
      * right. split; [done|]. exists j. split; [by right|done].
Qed.

(** An invariant of the body of the loop holds when the loop ends. *)
Lemma worklistLoop_invariant (I : WorkState → Prop) :
  (∀ BB m rest vu vm inv st',
     I {| worklist := (BB, m) :: rest; visUnmarked := vu; visMarked := vm;
          invalid := inv |} →
     worklistBody depth LI F BB m
       {| worklist := rest; visUnmarked := vu; visMarked := vm;
          invalid := inv |} = Some st' →
     I st') →
  ∀ fuel st res,
    I st → worklistLoop fuel depth LI F st = Some res →
    ∃ st', I st' ∧ worklist st' = [] ∧ invalid st' = res.
Proof.
  intros Hstep. induction fuel as [|fuel IH];
    intros [wl vu vm inv] res Hst; simpl.
  - destruct wl as [|[BB m] rest]; [|done]. intros [= <-]. by eexists.
  - destruct wl as [|[BB m] rest]; [intros [= <-]; by eexists|].
    destruct (worklistBody depth LI F BB m _) as [st'|] eqn:Hbody; [|done].
    simpl. apply IH. by eapply Hstep.
Qed.

End FindLoops.

Section FindLoopsInv.
Context (LI : LoopInfo) (F : FunctionBody) (depth : nat).

Lemma marksSSR_extend st st' :
  marksSSR LI F st →
  visUnmarked st ⊆ visUnmarked st' →
  visMarked st ⊆ visMarked st' →
  invalid st ⊆ invalid st' →
  (∀ X (m : bool), (Some X, m) ∈ worklist st →
     (Some X, m) ∈ worklist st'
     ∨ (if m then X ∈ visMarked st'
        else X ∈ visUnmarked st' ∪ visMarked st')) →
  (∀ B K, B ∈ visMarked st' → B ∉ visMarked st →
          loopContains LI F K B → K ∈ invalid st') →
  (∀ B i, B ∈ visUnmarked st' → B ∉ visUnmarked st →
          i ∈ instructionsOf F B → touchesSSR i = true →
          B ∈ visMarked st' ∨ (Some B, true) ∈ worklist st'
          ∨ ∀ K, loopContains LI F K B → K ∈ invalid st') →
  (∀ B B2, B ∈ visUnmarked st' ∪ visMarked st' →
           B ∉ visUnmarked st ∪ visMarked st →
           B2 ∈ successors F B →
           B2 ∈ visUnmarked st' ∪ visMarked st'
           ∨ ∃ m, (Some B2, m) ∈ worklist st') →
  marksSSR LI F st'.
Proof.
  intros (H1 & H2 & H3 & H4) Hvu Hvm Hinv Hwl Hn1 Hn2 Hn3.
  assert (Hitem : ∀ X, (∃ m, (Some X, m) ∈ worklist st) →
    X ∈ visUnmarked st' ∪ visMarked st'
    ∨ ∃ m, (Some X, m) ∈ worklist st').
  { intros X [m Hm]. destruct (Hwl X m Hm) as [?|Hres]; [by eauto|].
    left. destruct m; [apply elem_of_union; by right|done]. }
  assert (Hvis : ∀ X, X ∈ visUnmarked st ∪ visMarked st →
                      X ∈ visUnmarked st' ∪ visMarked st').
  { intros X [?|?]%elem_of_union; apply elem_of_union; auto. }
  split_and!.
  - intros B K HB HK. destruct (decide (B ∈ visMarked st)) as [Hold|Hnew].
    + apply Hinv. by eapply H1.
    + by eapply Hn1.
  - intros B i HB Hi Ht.
    destruct (decide (B ∈ visUnmarked st)) as [Hold|Hnew];
      [|by eapply Hn2].
    destruct (H2 B i Hold Hi Ht) as [?|[Hin|Hall]].
    + left. by apply Hvm.
    + destruct (Hwl B true Hin) as [?|?]; auto.
    + right; right. intros K HK. by apply Hinv, Hall.
  - intros B B2 HB HB2.
    destruct (decide (B ∈ visUnmarked st ∪ visMarked st)) as [Hold|Hnew];
      [|by eapply Hn3].
    destruct (H3 B B2 Hold HB2) as [?|?]; [left; by apply Hvis|].
    by apply Hitem.
  - destruct H4 as [?|?]; [left; by apply Hvis|by apply Hitem].
Qed.

Lemma marksSSR_step BB m rest vu vm inv st' :
  marksSSR LI F {| worklist := (BB, m) :: rest; visUnmarked := vu;
                   visMarked := vm; invalid := inv |} →
  worklistBody depth LI F BB m
    {| worklist := rest; visUnmarked := vu; visMarked := vm;
       invalid := inv |} = Some st' →
  marksSSR LI F st'.
Proof.
  intros Hinv. unfold worklistBody. cbn [worklist visUnmarked visMarked invalid].
  destruct BB as [B|].
  2:{ intros [= <-]. apply (marksSSR_extend _ _ Hinv); cbn; try done.
      intros X mx [[=]|?]%elem_of_cons. by left. }
  destruct m.
  - case_bool_decide as Hvis.
    { intros [= <-]. apply (marksSSR_extend _ _ Hinv); cbn; try done.
      intros X mx [[= -> ->]|?]%elem_of_cons; [by right|by left]. }
    destruct (markLoops depth LI (getLoopFor F B) inv) as [inv1|] eqn:Hmark;
      [|done].
    cbn [mbind option_bind]. intros [= <-].
    pose proof (markLoops_block LI F depth B inv inv1 Hmark) as Hin.
    apply (marksSSR_extend _ _ Hinv); cbn.
    + done.
    + apply union_subseteq_r.
    + intros K HK. apply Hin. by right.
    + intros X mx [[= -> ->]|?]%elem_of_cons.
      * right. apply elem_of_union. left. by apply elem_of_singleton.
      * left. apply elem_of_app. by left.
    + intros X K [->%elem_of_singleton|?]%elem_of_union HX HK; [|done].
      apply Hin. by left.
    + done.
    + intros X B2 HX Hnew HB2.
      assert (X = B) as ->.
      { apply elem_of_union in HX as [HX|[->%elem_of_singleton|HX]%elem_of_union];
          [|done|]; exfalso; apply Hnew, elem_of_union; auto. }
      right. eexists. apply elem_of_app. right.
      apply list_elem_of_fmap. by eexists.
  - case_bool_decide as Hvis.
    { intros [= <-]. apply (marksSSR_extend _ _ Hinv); cbn; try done.
      intros X mx [[= -> ->]|?]%elem_of_cons; [right|by left].
      apply elem_of_union. by left. }
    destruct (foldM _ (instructionsOf F B) (inv, false))
      as [[inv1 m1]|] eqn:Hfold; [|done].
    cbn [mbind option_bind]. intros [= <-].
    destruct (scanUnmarked_fold LI F depth B _ _ _ _ _ Hfold)
      as (Hsub & _ & Ht & _ & _).
    apply (marksSSR_extend _ _ Hinv); cbn.
    + apply union_subseteq_r.
    + done.
    + done.
    + intros X mx [[= -> ->]|?]%elem_of_cons.
      * right. apply elem_of_union. left. apply elem_of_union. left.
        by apply elem_of_singleton.
      * left. apply elem_of_app. left.
        destruct m1; [apply elem_of_app; by left|done].
    + done.
    + intros X i [->%elem_of_singleton|?]%elem_of_union HX Hi Hti; [|done].
      destruct (Ht i Hi Hti) as [->|Hall]; [|by auto].
      right. left. apply elem_of_app. left. apply elem_of_app. right. left.
    + intros X B2 HX Hnew HB2.
      assert (X = B) as ->.
      { apply elem_of_union in HX as [[->%elem_of_singleton|HX]%elem_of_union|HX];
          [done| |]; exfalso; apply Hnew, elem_of_union; auto. }
      right. eexists. apply elem_of_app. right.
      apply list_elem_of_fmap. by eexists.
Qed.

Lemma afterSSR_successor B B2 :
  afterSSR F B → B2 ∈ successors F B → afterSSR F B2.
Proof.
  intros (B0 & i & Hr & Hi & Ht & Hrtc) HB2. exists B0, i.
  split_and!; try done. by eapply rtc_r.
Qed.

Lemma marksOnlySSR_step BB m rest vu vm inv st' :
  marksOnlySSR LI F {| worklist := (BB, m) :: rest; visUnmarked := vu;
                       visMarked := vm; invalid := inv |} →
  worklistBody depth LI F BB m
    {| worklist := rest; visUnmarked := vu; visMarked := vm;
       invalid := inv |} = Some st' →
  marksOnlySSR LI F st'.
Proof.
  intros [Hwl Hinv]. cbn in Hwl, Hinv.
  assert (Hrest : ∀ X mx, (Some X, mx) ∈ rest →
                          reachable F X ∧ (mx = true → afterSSR F X)).
  { intros X mx HX. apply Hwl. by right. }
  unfold worklistBody. cbn [worklist visUnmarked visMarked invalid].
  destruct BB as [B|]; [|by intros [= <-]].
  destruct (Hwl B m) as [HrB HaB]; [left|].
  assert (Hsucc : ∀ X mx (m1 : bool) wl,
    (∀ X mx, (Some X, mx) ∈ wl →
             reachable F X ∧ (mx = true → afterSSR F X)) →
    (m1 = true → afterSSR F B) →
    (Some X, mx) ∈ wl ++ ((fun BB2 => (Some BB2, m1)) <$> successors F B) →
    reachable F X ∧ (mx = true → afterSSR F X)).
  { intros X mx m1 wl Hwl' Hm1 [?|HX]%elem_of_app; [by apply Hwl'|].
    apply list_elem_of_fmap in HX as (B2 & [= -> ->] & HB2). split.
    - by eapply rtc_r.
    - intros Hm. eapply afterSSR_successor; [by apply Hm1|done]. }
  destruct m.
  - case_bool_decide as Hvis; [by intros [= <-]|].
    destruct (markLoops depth LI (getLoopFor F B) inv) as [inv1|] eqn:Hmark;
      [|done].
    cbn [mbind option_bind]. intros [= <-].
    pose proof (markLoops_block LI F depth B inv inv1 Hmark) as Hin.
    split; cbn.
    + intros X mx. apply Hsucc; [done|]. intros _. by apply HaB.
    + intros K [HK|HK]%Hin; [|by apply Hinv].
      exists B. split; [by apply HaB|done].
  - case_bool_decide as Hvis; [by intros [= <-]|].
    destruct (foldM _ (instructionsOf F B) (inv, false))
      as [[inv1 m1]|] eqn:Hfold; [|done].
    cbn [mbind option_bind]. intros [= <-].
    destruct (scanUnmarked_fold LI F depth B _ _ _ _ _ Hfold)
      as (_ & _ & _ & Hm1 & Hk).
    assert (Hself : (∃ i, i ∈ instructionsOf F B ∧ touchesSSR i = true) →
                    afterSSR F B).
    { intros (i & Hi & Hti). by exists B, i. }
    split; cbn.
    + intros X mx. apply Hsucc.
      * intros Y my HY. destruct m1; [|by apply Hrest].
        apply elem_of_app in HY as [?|[= -> ->]%list_elem_of_singleton];
          [by apply Hrest|].
        split; [done|]. intros _. apply Hself.
        by destruct (Hm1 eq_refl).
      * intros ->. apply Hself. by destruct (Hm1 eq_refl).
    + intros K [HK|[HK Hex]]%Hk; [by apply Hinv|].
      exists B. split; [by apply Hself|done].
Qed.

(** *** Termination *)

Lemma unvisited_insert_le blocks B vis :
  (unvisited blocks ({[ B ]} ∪ vis) <= unvisited blocks vis)%nat.
Proof.
  unfold unvisited. induction blocks as [|X blocks IH]; [done|].
  rewrite !filter_cons.
  destruct (decide (X ∉ {[B]} ∪ vis)) as [Hn|Hn].
  - rewrite decide_True by (intros ?; apply Hn, elem_of_union; by right).
    simpl. lia.
  - destruct (decide (X ∉ vis)); simpl; lia.
Qed.

Lemma unvisited_insert_lt blocks B vis :
  B ∈ blocks → B ∉ vis →
  (unvisited blocks ({[ B ]} ∪ vis) < unvisited blocks vis)%nat.
Proof.
  intros HB Hvis. induction HB as [B blocks|B X blocks _ IH].
  - pose proof (unvisited_insert_le blocks B vis) as Hle. unfold unvisited in *.
    rewrite !filter_cons.
    rewrite decide_False
      by (intros Hn; apply Hn, elem_of_union; left; by apply elem_of_singleton).
    rewrite decide_True by done. simpl. lia.
  - specialize (IH Hvis). unfold unvisited in *. rewrite !filter_cons.
    destruct (decide (X ∉ {[B]} ∪ vis)) as [Hn|Hn].
    + rewrite decide_True by (intros ?; apply Hn, elem_of_union; by right).
      simpl. lia.
    + destruct (decide (X ∉ vis)); simpl; lia.
Qed.

Lemma worklistBody_returns blocks D BB m st :
  bodyWithin LI F blocks D depth →
  (∀ B, BB = Some B → B ∈ blocks) →
  (∀ B mb, (Some B, mb) ∈ worklist st → B ∈ blocks) →
  ∃ st', worklistBody depth LI F BB m st = Some st'
    ∧ (∀ B mb, (Some B, mb) ∈ worklist st' → B ∈ blocks)
    ∧ (workLeft blocks D st' <= workLeft blocks D st)%nat.
Proof.
  intros [Hentry Hblocks] HBB Hwl. rewrite Forall_forall in Hblocks.
  unfold worklistBody. destruct BB as [B|]; [|by eauto].
  destruct (Hblocks B (HBB B eq_refl)) as (Hsucc & HD & [ch Hch]).
  assert (Hpush : ∀ wl (m1 : bool),
    (∀ X mx, (Some X, mx) ∈ wl → X ∈ blocks) →
    ∀ X mx, (Some X, mx)
            ∈ wl ++ ((fun BB2 => (Some BB2, m1)) <$> successors F B) →
            X ∈ blocks).
  { intros wl m1 Hwl' X mx [?|HX]%elem_of_app; [by eapply Hwl'|].
    apply list_elem_of_fmap in HX as (B2 & [= -> ->] & HB2). by apply Hsucc. }
  destruct m.
  - case_bool_decide as Hvis; [by eauto|].
    rewrite (markLoops_chain LI depth _ _ _ Hch). cbn [mbind option_bind].
    eexists. split; [done|]. split; cbn.
    + by apply Hpush.
    + unfold workLeft. cbn. rewrite length_app, length_fmap.
      pose proof (unvisited_insert_lt blocks B (visMarked st)
                    (HBB B eq_refl) Hvis).
      nia.
  - case_bool_decide as Hvis; [by eauto|].
    destruct (foldM_invariant (fun _ => True)
                (scanUnmarked depth LI F B) (instructionsOf F B)
                (invalid st, false)) as ([inv1 m1] & -> & _); [done| |].
    { intros [inv0 m0] i _ _. unfold scanUnmarked.
      destruct i as [attr intr asm|]; [|by eauto].
      destruct attr; [|by eauto].
      rewrite (markLoops_chain LI depth _ _ _ Hch). by eauto. }
    cbn [mbind option_bind]. eexists. split; [done|]. split; cbn.
    + apply Hpush. intros X mx HX. destruct m1; [|by eapply Hwl].
      apply elem_of_app in HX as [?|[= -> ->]%list_elem_of_singleton];
        [by eapply Hwl|by apply HBB].
    + unfold workLeft. cbn. rewrite length_app, length_fmap.
      pose proof (unvisited_insert_lt blocks B (visUnmarked st)
                    (HBB B eq_refl) Hvis).
      assert (length (if m1 then worklist st ++ [(Some B, true)]
                      else worklist st) <= length (worklist st) + 1)%nat.
      { destruct m1; rewrite ?length_app; simpl; lia. }
      nia.
Qed.

Lemma worklistLoop_returns blocks D :
  bodyWithin LI F blocks D depth →
  ∀ fuel st,
    (∀ B mb, (Some B, mb) ∈ worklist st → B ∈ blocks) →
    (workLeft blocks D st <= fuel)%nat →
    is_Some (worklistLoop fuel depth LI F st).
Proof.
  intros Hbody. induction fuel as [|fuel IH]; intros [wl vu vm inv] Hwl Hfuel;
    cbn [worklistLoop worklist visUnmarked visMarked invalid] in *.
  - destruct wl as [|[BB m] rest]; [done|].
    unfold workLeft in Hfuel. simpl in Hfuel. lia.
  - destruct wl as [|[BB m] rest]; [done|].
    destruct (worklistBody_returns blocks D BB m
                {| worklist := rest; visUnmarked := vu; visMarked := vm;
                   invalid := inv |} Hbody)
      as (st' & -> & Hwl' & Hleft).
    + intros B ->. eapply Hwl. left.
    + intros B mb HB. eapply Hwl. by right.
    + cbn [mbind option_bind]. apply IH; [done|].
      unfold workLeft in *. cbn in *. lia.
Qed.

Lemma unvisited_empty blocks : unvisited blocks ∅ = length blocks.
Proof.
  unfold unvisited. induction blocks as [|X blocks IH]; [done|].
  rewrite filter_cons, decide_True by (by intros ?%elem_of_empty).
  simpl. by rewrite IH.
Qed.

Lemma findLoopsWithSSR_returns blocks D fuel :
  bodyWithin LI F blocks D depth →
  (1 + 2 * (D + 2) * length blocks <= fuel)%nat →
  is_Some (findLoopsWithSSR fuel depth F LI).
Proof.
  intros Hbody Hfuel. apply (worklistLoop_returns blocks D Hbody).
  - intros B mb [= -> ->]%list_elem_of_singleton. by destruct Hbody.
  - unfold workLeft. cbn. rewrite !unvisited_empty. lia.
Qed.

End FindLoopsInv.

Section FindLoopsStream.
Context (LI : LoopInfo) (F : FunctionBody) (depth : nat).

Lemma scanMarked_no_disable insts :
  (∀ i, i ∈ insts → isDisable i = false) → scanMarked insts true = true.
Proof.
  induction insts as [|i insts IH]; intros Hno; simpl; [done|].
  assert (Hi : isDisable i = false) by (apply Hno; left).
  assert (Hrest : scanMarked insts true = true).
  { apply IH. intros j Hj. apply Hno. by right. }
  destruct i as [attr [id|] asm|]; simpl in *; try done.
  by rewrite Hi.
Qed.

Lemma scanUnmarked_starts B insts : ∀ inv m inv' m' i,
  foldM (scanUnmarked depth LI F B) insts (inv, m) = Some (inv', m') →
  i ∈ insts → startsSSR i = true → m' = true.
Proof.
  induction insts as [|j insts IH]; intros inv m inv' m' i; cbn [foldM].
  - by intros _ ?%elem_of_nil.
  - destruct (scanUnmarked depth LI F B (inv, m) j) as [[inv1 m1]|] eqn:Hstep;
      [|done].
    cbn [mbind option_bind]. intros Hfold [->|Hi]%elem_of_cons Hs.
    + destruct (scanUnmarked_fold LI F depth B _ _ _ _ _ Hfold)
        as (_ & Hm & _).
      apply Hm. unfold scanUnmarked in Hstep.
      destruct j as [attr intr asm|]; [|done].
      destruct (if attr then _ else _) as [inv2|]; [|done].
      simpl in Hstep. injection Hstep as _ <-. simpl in Hs.
      destruct asm; [done|]. rewrite orb_false_r in Hs.
      destruct intr as [id|]; [by rewrite Hs|done].
    + by eapply IH.
Qed.

Lemma marksStream_step BB m rest vu vm inv st' :
  marksStream LI F {| worklist := (BB, m) :: rest; visUnmarked := vu;
                      visMarked := vm; invalid := inv |} →
  worklistBody depth LI F BB m
    {| worklist := rest; visUnmarked := vu; visMarked := vm;
       invalid := inv |} = Some st' →
  marksStream LI F st'.
Proof.
  intros (Hbase & Hm1 & Hm2) Hbody. cbn in Hm1, Hm2.
  split; [by eapply marksSSR_step|].
  assert (Hfacts :
    vu ⊆ visUnmarked st' ∧ vm ⊆ visMarked st'
    ∧ (∀ X, (Some X, true) ∈ (BB, m) :: rest →
            X ∈ visMarked st' ∨ (Some X, true) ∈ worklist st')
    ∧ (∀ B B2, B ∈ visMarked st' → B ∉ vm →
               (∀ i, i ∈ instructionsOf F B → isDisable i = false) →
               B2 ∈ successors F B → (Some B2, true) ∈ worklist st')
    ∧ (∀ B i, B ∈ visUnmarked st' → B ∉ vu → i ∈ instructionsOf F B →
              startsSSR i = true → (Some B, true) ∈ worklist st')).
  { revert Hbody. unfold worklistBody.
    cbn [worklist visUnmarked visMarked invalid].
    destruct BB as [B|].
    2:{ intros [= <-]. cbn. split_and!; try done.
        intros X [[=]|?]%elem_of_cons. by right. }
    destruct m.
    - case_bool_decide as Hvis.
      { intros [= <-]. cbn. split_and!; try done.
        intros X [[= ->]|?]%elem_of_cons; [by left|by right]. }
      destruct (markLoops depth LI (getLoopFor F B) inv) as [inv1|]; [|done].
      cbn [mbind option_bind]. intros [= <-]. cbn. split_and!.
      + done.
      + apply union_subseteq_r.
      + intros X [[= ->]|?]%elem_of_cons.
        * left. apply elem_of_union. left. by apply elem_of_singleton.
        * right. apply elem_of_app. by left.
      + intros X B2 [->%elem_of_singleton|?]%elem_of_union HX Hno HB2; [|done].
        rewrite (scanMarked_no_disable _ Hno). apply elem_of_app. right.
        apply list_elem_of_fmap. by eexists.
      + done.
    - case_bool_decide as Hvis.
      { intros [= <-]. cbn. split_and!; try done.
        intros X [[=]|?]%elem_of_cons. by right. }
      destruct (foldM _ (instructionsOf F B) (inv, false))
        as [[inv1 m1]|] eqn:Hfold; [|done].
      cbn [mbind option_bind]. intros [= <-]. cbn. split_and!.
      + apply union_subseteq_r.
      + done.
      + intros X [[=]|?]%elem_of_cons. right. apply elem_of_app. left.
        destruct m1; [apply elem_of_app; by left|done].
      + done.
      + intros X i [->%elem_of_singleton|?]%elem_of_union HX Hi Hs; [|done].
        rewrite (scanUnmarked_starts _ _ _ _ _ _ _ Hfold Hi Hs).
        apply elem_of_app. left. apply elem_of_app. right. left. }
  destruct Hfacts as (Hvu & Hvm & Hitem & Hnew1 & Hnew2). split.
  - intros B B2 HB Hno HB2. destruct (decide (B ∈ vm)) as [Hold|Hnew].
    + destruct (Hm1 B B2 Hold Hno HB2) as [?|?]; [left; by apply Hvm|].
      by apply Hitem.
    + right. by eapply Hnew1.
  - intros B i HB Hi Hs. destruct (decide (B ∈ vu)) as [Hold|Hnew].
    + destruct (Hm2 B i Hold Hi Hs) as [?|?]; [left; by apply Hvm|].
      by apply Hitem.
    + right. by eapply Hnew2.
Qed.

End FindLoopsStream.

(** What the returned set covers. *)
Lemma findLoopsWithSSR_covers LI F (depth fuel : nat) res :
  findLoopsWithSSR fuel depth F LI = Some res →
  (∀ B i K, reachable F B → i ∈ instructionsOf F B →
            touchesSSR i = true → loopContains LI F K B → K ∈ res)
  ∧ (∀ B K, inStream F B → loopContains LI F K B → K ∈ res).
Proof.
  intros Hres.
  assert (Hinit : marksStream LI F
    {| worklist := [(Some (getEntryBlock F), false)];
       visUnmarked := ∅; visMarked := ∅; invalid := ∅ |}).
  { split; [|split]; cbn.
    - split_and!; cbn.
      + by intros B K ?%elem_of_empty.
      + by intros B i ?%elem_of_empty.
      + intros B B2 [?%elem_of_empty|?%elem_of_empty]%elem_of_union; done.
      + right. exists false. left.
    - by intros B B2 ?%elem_of_empty.
    - by intros B i ?%elem_of_empty. }
  destruct (worklistLoop_invariant LI F depth (marksStream LI F)
              (marksStream_step LI F depth) fuel _ res Hinit Hres)
    as ([wl vu vm inv] & ((H1 & H2 & H3 & H4) & Hm1 & Hm2) & Hwl & Hinv).
  cbn in *. subst wl inv.
  assert (Hvis : ∀ B, reachable F B → B ∈ vu ∪ vm).
  { unfold reachable. apply (rtc_ind_r (fun B => B ∈ vu ∪ vm)).
    - destruct H4 as [?|[m Hm]]; [done|by apply elem_of_nil in Hm].
    - intros X Y HX HXY IH. destruct (H3 X Y IH HXY) as [?|[m Hm]]; [done|].
      by apply elem_of_nil in Hm. }
  assert (Hstream : ∀ B, inStream F B → B ∈ vm).
  { induction 1 as [B i HB Hi Hs|B B2 _ IH Hno HB2].
    - apply Hvis, elem_of_union in HB as [HB|HB]; [|done].
      destruct (Hm2 B i HB Hi Hs) as [?|Hin]; [done|].
      by apply elem_of_nil in Hin.
    - destruct (Hm1 B B2 IH Hno HB2) as [?|Hin]; [done|].
      by apply elem_of_nil in Hin. }
  split.
  - intros B i K HB Hi Ht HK.
    apply Hvis, elem_of_union in HB as [HB|HB]; [|by eapply H1].
    destruct (H2 B i HB Hi Ht) as [?|[Hin|Hall]];
      [by eapply H1| |by apply Hall].
    by apply elem_of_nil in Hin.
  - intros B K HB HK. eapply H1; [by apply Hstream|done].
Qed.

(** ** The pass on a well-formed input *)

Lemma dense_insert_lookup `{Countable K} {V} (k k' : K) (v x : V)
    (m : gmap K V) :
  dense_insert k v m !! k' = Some x →
  m !! k' = Some x ∨ (k' = k ∧ x = v).
Proof.
  unfold dense_insert. destruct (m !! k) as [y|] eqn:Hk; [by left|].
  destruct (decide (k = k')) as [->|Hne].
  - rewrite lookup_insert_eq. intros [= <-]. by right.
  - rewrite lookup_insert_ne by done. by left.
Qed.

Lemma size_values_le (m : gmap Loop Z) (l : list Loop) :
  (∀ K, is_Some (m !! K) → K ∈ l) → (size m <= length l)%nat.
Proof.
  intros Hin. rewrite <- size_dom. unfold size, set_size. simpl.
  apply submseteq_length, NoDup_submseteq; [apply NoDup_elements|].
  intros K HK%elem_of_elements%elem_of_dom. by apply Hin.
Qed.

Section RunReturns.
Context (flags : Flags) `{StdSort} (AAA : AffineAccess).
Context (ssrInvalidLoops : gset Loop).

Lemma selectCandidates_nonempty (L : Loop) known l b :
  selectCandidates flags AAA L known = Some (l, b) → l ≠ [] →
  is_Some (LoopPreheader (getLI AAA) L)
  ∧ is_Some (getSingleExitBlock AAA L)
  ∧ (length l <= 3)%nat.
Proof.
  intros Hsel Hne.
  destruct (selectCandidates_sorted flags AAA L known l b Hsel)
    as (valid & Hl & _).
  assert (Hlen : (length l <= 3)%nat).
  { rewrite Hl, length_take. change (Z.to_nat NUM_SSR) with 3%nat. lia. }
  unfold selectCandidates in Hsel.
  destruct (known || negb (isValidLoop AAA L)) eqn:Hinv.
  - simpl in Hsel. injection Hsel as <- <-. exfalso. apply Hne.
    pose proof (std_sort_perm _ (comp AAA L) []) as Hp.
    apply Permutation_nil_r in Hp. by rewrite Hp.
  - apply orb_false_iff in Hinv as [_ Hvalid%negb_false_iff].
    unfold isValidLoop in Hvalid.
    destruct (LoopPreheader (getLI AAA) L); [|done].
    destruct (getSingleExitBlock AAA L); [|done]. by eauto.
Qed.

Lemma cloneAndSetup_returns PhT ExP Cond exp :
  (length exp <= 3)%nat → Forall (expandedOk flags AAA) exp →
  is_Some (cloneAndSetup flags AAA PhT ExP Cond exp).
Proof.
  intros Hlen Hok. unfold cloneAndSetup, NUM_SSR.
  destruct (3 <? Z.of_nat (length exp)) eqn:Hcmp; [lia|].
  case_bool_decide; [done|].
  destruct (cloneIfNeeded PhT ExP Cond) as [[ems ExP']|]; [|done].
  destruct (setupLoop_in_place flags AAA PhT ExP' exp Hok)
    as (setups & n & -> & _).
  done.
Qed.

Lemma expandStep_returns st (L : Loop) known l b :
  selectCandidates flags AAA L known = Some (l, b) →
  possible st !! L = Some l →
  expansionReturns flags AAA → streamsReady flags AAA st →
  ∃ st', expandStep flags AAA st L = Some st'
    ∧ streamsReady flags AAA st'
    ∧ possible st' = possible st
    ∧ trees st' = trees st
    ∧ bestLoops st' = bestLoops st.
Proof.
  intros Hsel Hposs Hexpand [Hc He]. unfold expandStep. rewrite Hposs.
  cbn [mbind option_bind].
  case_bool_decide as Hnil; [exists st; by split_and!|].
  destruct (selectCandidates_nonempty L known l b Hsel Hnil)
    as (HPh & HEx & Hlen).
  destruct (Hexpand L l Hnil Hlen) as [[[exp Cond] ems] Hret]; [|done|].
  { intros A HA. by eapply selectCandidates_incl. }
  rewrite Hret. cbn [mbind option_bind]. eexists. split; [done|].
  split; [|done]. unfold dense_insert.
  destruct (conds st !! L) as [C0|] eqn:HcL.
  - destruct (Hc L C0 HcL) as (accs0 & exp0 & ems0 & _ & HeL & _).
    rewrite HeL. by split.
  - rewrite (He L HcL). split; cbn.
    + intros K C. destruct (decide (L = K)) as [<-|HLK].
      * rewrite lookup_insert_eq. intros [= <-]. exists l, exp, ems.
        by rewrite lookup_insert_eq.
      * rewrite lookup_insert_ne by done. intros HK.
        destruct (Hc K C HK) as (accs0 & exp0 & ems0 & ? & ? & ?).
        exists accs0, exp0, ems0. by rewrite lookup_insert_ne.
    + intros K. destruct (decide (L = K)) as [<-|HLK].
      * by rewrite lookup_insert_eq.
      * rewrite !lookup_insert_ne by done. apply He.
Qed.

Lemma analyseTopLoop_returns st t fuel :
  nestIn (getLI AAA) None t →
  NoDup (nestLoops t) →
  (∀ L, L ∈ nestLoops t →
        possible st !! L = None
        ∧ accessesOk flags AAA L ∧ conflictsOk flags AAA L) →
  (length (nestLoops t) <= fuel)%nat →
  trees st !! nestRoot t = None →
  expansionReturns flags AAA → streamsReady flags AAA st →
  ∃ st',
    analyseTopLoop flags AAA fuel ssrInvalidLoops st (nestRoot t) = Some st'
    ∧ streamsReady flags AAA st'
    ∧ (∀ K, K ∉ nestLoops t → possible st' !! K = possible st !! K)
    ∧ (∀ K, is_Some (trees st' !! K) →
            K = nestRoot t ∨ is_Some (trees st !! K))
    ∧ (∀ K, K = nestRoot t ∨ is_Some (bestLoops st !! K) →
            is_Some (bestLoops st' !! K)).
Proof.
  intros Hnest Hnd Hok Hfuel Hfresh Hwell Hready. unfold analyseTopLoop.
  rewrite dense_insert_fresh by done. rewrite lookup_insert_eq.
  cbn [mbind option_bind].
  destruct (traverse_top_builds flags AAA ssrInvalidLoops t (possible st) fuel
              Hnest Hnd Hok Hfuel)
    as (possible1 & ct & -> & Hbuilt & _ & _ & Hdom & Han & Hkeep).
  cbn [mbind option_bind].
  destruct (findBest_treeInv ct (fun a b => wrap_unsigned (a + b)) fuel
              (built_treeInv _ Hbuilt))
    as (best & -> & _ & Hbest & _).
  { pose proof (size_values_le (values ct) (nestLoops t)
                  (fun K => proj1 (Hdom K))). lia. }
  cbn [mbind option_bind].
  match goal with |- context [foldM _ best ?s0] =>
    destruct (foldM_invariant
      (fun s => streamsReady flags AAA s ∧ possible s = possible1
                ∧ trees s = trees s0 ∧ bestLoops s = bestLoops s0)
      (expandStep flags AAA) best s0) as (st1 & -> & Hready1 & Hp1 & Ht1 & Hb1)
  end.
  { by split_and!. }
  { intros s L HL (Hs & Hps & Hts & Hbs).
    destruct (Han L) as (_ & l & b & gain & Hsel & Hl & _).
    { apply Hdom. by apply Hbest. }
    destruct (expandStep_returns s L _ l b Hsel) as (s' & -> & ? & ? & ? & ?);
      [by rewrite Hps|done..|].
    eexists. split; [done|]. split_and!; congruence. }
  cbn [mbind option_bind]. eexists. split; [done|].
  cbn in Ht1, Hb1. split; [|split; [|split]]; cbn.
  - destruct Hready1 as [Hc He]. by split.
  - intros K HK. rewrite Hp1. by apply Hkeep.
  - intros K. rewrite Ht1, !lookup_insert_is_Some'.
    intros [<-|[<-|HK]]; [by left|by left|by right].
  - intros K HK. rewrite Hb1. apply dense_insert_is_Some.
    destruct HK as [->|HK]; [by left|by right].
Qed.

Lemma analyse_returns ts : ∀ st fuel,
  Forall (nestIn (getLI AAA) None) ts →
  NoDup (concat (nestLoops <$> ts)) →
  (∀ L, L ∈ concat (nestLoops <$> ts) →
        possible st !! L = None
        ∧ accessesOk flags AAA L ∧ conflictsOk flags AAA L) →
  (length (concat (nestLoops <$> ts)) <= fuel)%nat →
  (∀ t, t ∈ ts → trees st !! nestRoot t = None) →
  expansionReturns flags AAA → streamsReady flags AAA st →
  ∃ st',
    foldM (analyseTopLoop flags AAA fuel ssrInvalidLoops) (nestRoot <$> ts) st
    = Some st'
    ∧ streamsReady flags AAA st'
    ∧ (∀ K, K ∈ nestRoot <$> ts ∨ is_Some (bestLoops st !! K) →
            is_Some (bestLoops st' !! K)).
Proof.
  induction ts as [|t ts IH];
    intros st fuel Hnest Hnd Hok Hfuel Hfresh Hwell Hready.
  - exists st. simpl. split_and!; try done.
    intros K [HK%elem_of_nil|HK]; done.
  - apply Forall_cons in Hnest as [Hnest_t Hnest].
    rewrite fmap_cons in Hnd, Hfuel, Hok. cbn [concat] in Hnd, Hfuel, Hok.
    rewrite length_app in Hfuel.
    apply NoDup_app in Hnd as (Hnd_t & Hdisj & Hnd).
    destruct (analyseTopLoop_returns st t fuel)
      as (st1 & Hstep & Hready1 & Hposs1 & Htrees1 & Hbest1); try done.
    { intros L HL. apply Hok. apply elem_of_app. by left. }
    { lia. }
    { apply Hfresh. left. }
    destruct (IH st1 fuel) as (st' & Hfold & Hready' & Hbest'); try done.
    { intros L HL. rewrite Hposs1.
      - apply Hok. apply elem_of_app. by right.
      - intros HLt. by apply (Hdisj L). }
    { lia. }
    { intros t' Ht'. apply eq_None_not_Some. intros HK.
      destruct (Htrees1 _ HK) as [Heq|Hold].
      - apply (Hdisj (nestRoot t)); [apply nestRoot_in_nestLoops|].
        rewrite <- Heq. apply elem_of_concat. exists (nestLoops t').
        split; [apply nestRoot_in_nestLoops|by apply list_elem_of_fmap_2].
      - rewrite (Hfresh t') in Hold by (by right). by destruct Hold. }
    exists st'. rewrite fmap_cons. cbn [foldM]. rewrite Hstep.
    cbn [mbind option_bind]. split; [done|]. split; [done|].
    intros K HK. apply Hbest'.
    destruct HK as [[->|HK]%elem_of_cons|HK]; [right|by left|right];
      apply Hbest1; [by left|by right].
Qed.

Lemma setup_returns st toploops ems :
  setupReturns flags AAA →
  streamsReady flags AAA st →
  (∀ T, T ∈ toploops → is_Some (bestLoops st !! T)) →
  is_Some (foldM (setupTopLoop flags AAA st) toploops ems).
Proof.
  intros Hsetup [Hc He] Hbest.
  destruct (foldM_invariant (fun _ => True) (setupTopLoop flags AAA st)
              toploops ems) as (ems' & -> & _); [done| |done].
  intros ems0 T HT _. unfold setupTopLoop.
  destruct (Hbest T HT) as [best ->]. cbn [mbind option_bind].
  destruct (foldM_invariant (fun _ => True) (setupLoop flags AAA st)
              best ems0) as (ems1 & -> & _); [done| |by eauto].
  intros ems2 L _ _. unfold setupLoop.
  destruct (conds st !! L) as [Cond|] eqn:HCond; [|by eauto].
  destruct (Hc L Cond HCond) as (accs & exp & ems3 & Hret & Hexp & [Ex HEx]).
  assert (is_Some (LoopPreheader (getLI AAA) L)) as [Ph HPh].
  { destruct (expandInLoop_spec flags AAA accs L) as [Hiff _].
    by destruct (proj1 Hiff) as (_ & _ & ? & _); [rewrite Hret|]. }
  rewrite HEx, HPh, Hexp. cbn [mbind option_bind].
  destruct (Hsetup L accs exp Cond ems3 Ph Ex Hret HPh HEx) as [e ->].
  by eauto.
Qed.

End RunReturns.

(** The driver composes its parts safely.  Let the loops of the function
    form a forest of different loops, let the accesses that the analysis
    hands out be well formed and free of [Bad] conflicts, and let the fuel
    cover the loops.  If [expandInLoop] returns for every one to three
    expandable accesses of a loop with a preheader, and [cloneAndSetup]
    returns for what [expandInLoop] has handed back for a loop with a
    preheader and a single exit block, then [run] returns: the assertions
    and look-ups of [run], [visitLoop], [isValid], [getEstGain],
    [insertNode] and [findBest] pass, and the two are called with such
    arguments only. *)
Theorem run_returns_if_parts_return
    flags `{StdSort} findLoopsWithSSR AAA (ts : list Nest) (fuel : nat)
    (F : Function) :
  loopForest (getLI AAA) ts →
  (∀ L, L ∈ concat (nestLoops <$> ts) →
        accessesOk flags AAA L ∧ conflictsOk flags AAA L) →
  (length (concat (nestLoops <$> ts)) <= fuel)%nat →
  expansionReturns flags AAA →
  setupReturns flags AAA →
  is_Some (run flags findLoopsWithSSR AAA fuel F).
Proof.
  intros (Htop & Hnest & Hnd) Hok Hfuel Hexpand Hsetup. unfold run.
  destruct (negb (InferSSR flags)); [done|].
  destruct (hasFnAttribute F SSRFnAttr); [done|].
  rewrite Htop.
  match goal with |- context [foldM (analyseTopLoop _ _ _ ?inv) _ ?s0] =>
    destruct (analyse_returns flags AAA inv ts s0 fuel)
      as (st & -> & Hready & Hbest) end; try done.
  { intros L HL. split; [apply lookup_empty|by apply Hok]. }
  cbn [mbind option_bind].
  destruct (setup_returns flags AAA st (nestRoot <$> ts) (emitted st)
              Hsetup Hready) as [ems ->].
  { intros T HT. apply Hbest. by left. }
  cbn [mbind option_bind]. by destruct (negb (changed st)).
Qed.

Lemma run_returns_if_parts_return_witness :
  is_Some (run (H := mergeSort) defaultFlags noLoopsWithSSR
             (oneAccess false 10 (constantSCEV 0) runtimeCond) 1
             emptyFunction).
Proof.
  apply (run_returns_if_parts_return defaultFlags (H := mergeSort)
           noLoopsWithSSR
           (oneAccess false 10 (constantSCEV 0) runtimeCond)
           [NestNode 0%nat []] 1 emptyFunction).
  - split; [reflexivity|]. split.
    + repeat constructor.
    + simpl. apply NoDup_singleton.
  - intros L _. split.
    + intros A _. split; [reflexivity|]. simpl. discriminate.
    + right. intros A _ p Hp. simpl in Hp. by apply elem_of_nil in Hp.
  - simpl. lia.
  - intros L accs Hne Hlen _ HPh.
    apply expandInLoop_spec. split_and!; [done..|].
    exists runtimeCond. by split.
  - intros L accs exp Cond ems Ph Ex Hret _ _.
    destruct (expandInLoop_spec defaultFlags
                (oneAccess false 10 (constantSCEV 0) runtimeCond) accs L)
      as [Hiff Hres].
    destruct (proj1 Hiff) as (_ & Hlen & _); [by rewrite Hret|].
    destruct (Hres exp Cond ems Hret) as (_ & _ & -> & _).
    apply cloneAndSetup_returns.
    + simpl. by rewrite length_fmap.
    + apply Forall_fmap, Forall_forall. intros A _.
      split_and!; simpl; try lia; discriminate.
Defined.

(** ** When the gain can be estimated *)

Section GainReturns.
Context (flags : Flags) (AAA : AffineAccess).

Lemma conflictLoop_Some_inv accs vis (L : Loop) ps : ∀ gain g,
  conflictLoop AAA accs vis L ps gain = Some g →
  ∀ p, p ∈ ps → p.2 ≠ Bad.
Proof.
  induction ps as [|q ps IH]; intros gain g; cbn [conflictLoop].
  - by intros _ p ?%elem_of_nil.
  - destruct (conflictStep AAA accs vis L gain q) as [g1|] eqn:Hstep; [|done].
    cbn [mbind option_bind]. intros Hrest p [->|Hp]%elem_of_cons.
    + unfold conflictStep in Hstep. by destruct (q.2).
    + by eapply IH.
Qed.

Lemma estGainLoop_Some_inv m accs (L : Loop) Accs : ∀ st st',
  estGainLoop flags AAA m accs L Accs st = Some st' →
  SSRNoIntersectCheck flags = false →
  ∀ A, A ∈ Accs → ∀ p, p ∈ getConflicts AAA A L → p.2 ≠ Bad.
Proof.
  induction Accs as [|B Accs IH]; intros [[gain vis] cl] st';
    cbn [estGainLoop].
  - by intros _ _ A ?%elem_of_nil.
  - destruct (estGainStep flags AAA m accs L (gain, vis, cl) B)
      as [st1|] eqn:Hstep; [|done].
    cbn [mbind option_bind]. intros Hrest Hni A [->|HA]%elem_of_cons.
    + unfold estGainStep in Hstep. rewrite Hni in Hstep.
      destruct (conflictLoop AAA accs _ L _ _) as [g|] eqn:Hconf; [|done].
      by eapply conflictLoop_Some_inv.
    + by eapply IH.
Qed.

End GainReturns.

(** [getEstGain] fails exactly on a [Bad] conflict of one of the accesses
    while the intersection checks are on; otherwise it returns an [int]. *)
Theorem getEstGain_returns_iff flags AAA Accs (L : Loop) :
  (is_Some (getEstGain flags AAA Accs L)
   ↔ SSRNoIntersectCheck flags = true
     ∨ ∀ A, A ∈ Accs → ∀ p, p ∈ getConflicts AAA A L → p.2 ≠ Bad)
  ∧ ∀ gain, getEstGain flags AAA Accs L = Some gain → in_int_range gain.
Proof.
  split; [|apply getEstGain_range]. split.
  - intros [gain Hgain]. unfold getEstGain, getEstGainWith in Hgain.
    destruct (estGainLoop flags AAA EST_MEMOP_COST _ L Accs _)
      as [st'|] eqn:Hloop; [|done].
    destruct (SSRNoIntersectCheck flags) eqn:Hni; [by left|right].
    by eapply estGainLoop_Some_inv.
  - apply getEstGain_returns.
Qed.

(** ** Enable and disable come in pairs *)

Lemma callsOf_app f l k : callsOf f (l ++ k) = (callsOf f l + callsOf f k)%nat.
Proof. unfold callsOf. by rewrite filter_app, length_app. Qed.

Lemma callsOf_none f l :
  Forall (fun e => calleeOf e ≠ Some f) l → callsOf f l = 0%nat.
Proof.
  unfold callsOf. induction 1 as [|e l He _ IH]; [done|].
  by rewrite filter_cons, decide_False.
Qed.

Lemma tcdm_fold_Forall (P : Emitted → Prop) PhT exp :
  (∀ v, P (EmInst PhT v)) →
  ∀ ems Cond0,
    Forall P ems →
    Forall P (fold_left (fun '(ems, Cond) E =>
        let '(chk_ems, chk) := GenerateTCDMCheck E PhT in
        (ems ++ chk_ems ++ [EmInst PhT (VAnd Cond chk)], VAnd Cond chk))
      exp (ems, Cond0)).1.
Proof.
  intros HP. induction exp as [|E exp IH]; intros ems Cond0 Hems; [done|].
  simpl. apply IH. apply Forall_app. split; [done|].
  repeat constructor; apply HP.
Qed.

Section Balance.
Context (flags : Flags) `{StdSort} (AAA : AffineAccess).

Lemma expandInLoop_no_calls accs (L : Loop) exp Cond ems :
  expandInLoop flags AAA accs L = Some (exp, Cond, ems) →
  Forall (fun e => calleeOf e = None) ems.
Proof.
  unfold expandInLoop. case_bool_decide; [done|].
  destruct (NUM_SSR <? _); [done|].
  destruct (LoopPreheader (getLI AAA) L) as [Ph|]; [|done].
  cbn [mbind option_bind].
  destruct (expandAllAt AAA accs L _ _) as [exp0 [Cond0|]]; [|done].
  cbn [mbind option_bind].
  destruct (negb (SSRNoTCDMCheck flags)).
  - match goal with |- context [fold_left ?f exp0 ?i] =>
      pose proof (tcdm_fold_Forall (fun e => calleeOf e = None)
                    (Terminator Ph) exp0 (fun _ => eq_refl) [] Cond0
                    (Forall_nil_2 _)) as Hall;
      destruct (fold_left f exp0 i) as [ems1 Cond1] end.
    case_bool_decide; [|done]. intros [= <- <- <-]. by constructor.
  - case_bool_decide; [|done]. intros [= <- <- <-]. by repeat constructor.
Qed.

Lemma GenerateSSRSetup_no_enable E dmid Point ems :
  GenerateSSRSetup flags AAA E dmid Point = Some ems →
  Forall (fun e => calleeOf e ≠ Some riscv_ssr_enable
                   ∧ calleeOf e ≠ Some riscv_ssr_disable) ems.
Proof.
  intros Hsetup.
  destruct (GenerateSSRSetup_shape flags AAA E dmid Point ems Hsetup)
    as (_ & _ & Hcalls & _).
  apply Forall_forall. intros e He.
  destruct (calleeOf e) as [f|] eqn:Hf; [|done].
  assert (Hin : f ∈ omap calleeOf ems)
    by (apply list_elem_of_omap; by eauto).
  rewrite Hcalls in Hin.
  assert (f ≠ riscv_ssr_enable ∧ f ≠ riscv_ssr_disable) as [? ?];
    [|split; congruence].
  apply elem_of_app in Hin as [Hin|Hin].
  { apply elem_of_take in Hin as (i & Hi & _).
    apply list_elem_of_lookup_2 in Hi. unfold boundStrideFunctions in Hi.
    repeat (apply elem_of_cons in Hi as [->|Hi]; [done|]).
    by apply elem_of_nil in Hi. }
  apply elem_of_app in Hin as [Hin|Hin].
  { apply elem_of_replicate_inv in Hin as ->.
    by destruct (isWrite AAA (Access E)). }
  apply elem_of_cons in Hin as [->|Hin]; [done|].
  apply list_elem_of_singleton in Hin as ->.
  by destruct (isWrite AAA (Access E)).
Qed.

Lemma setupSteps_no_enable PhT ExP exp : ∀ ems0 d ems d',
  foldM (setupStep flags AAA PhT ExP) exp (ems0, d) = Some (ems, d') →
  Forall (fun e => calleeOf e ≠ Some riscv_ssr_enable
                   ∧ calleeOf e ≠ Some riscv_ssr_disable) ems0 →
  Forall (fun e => calleeOf e ≠ Some riscv_ssr_enable
                   ∧ calleeOf e ≠ Some riscv_ssr_disable) ems.
Proof.
  induction exp as [|E exp IH]; intros ems0 d ems d'; cbn [foldM].
  - by intros [= <- <-].
  - destruct (setupStep flags AAA PhT ExP (ems0, d) E) as [[ems1 d1]|]
      eqn:Hstep; cbn [mbind option_bind]; [|done].
    intros Hfold Hems0. apply (IH _ _ _ _ Hfold).
    unfold setupStep in Hstep.
    destruct (GenerateSSRSetup flags AAA E d PhT) as [setup|] eqn:Hsetup; [|done].
    cbn [mbind option_bind] in Hstep. injection Hstep as <- _.
    apply Forall_app. split; [done|].
    apply Forall_app. split; [by eapply GenerateSSRSetup_no_enable|].
    unfold generateSSRBarrier. destruct (SSRBarrier flags); by repeat constructor.
Qed.

Lemma cloneAndSetup_balanced PhT ExP Cond exp ems :
  cloneAndSetup flags AAA PhT ExP Cond exp = Some ems →
  callsOf riscv_ssr_enable ems = callsOf riscv_ssr_disable ems.
Proof.
  unfold cloneAndSetup. destruct (NUM_SSR <? _); [done|].
  case_bool_decide; [by intros [= <-]|].
  destruct (cloneIfNeeded PhT ExP Cond) as [[cl ExP']|] eqn:Hcl;
    [|by intros [= <-]].
  destruct (foldM _ exp ([], 0)) as [[setups d]|] eqn:Hfold; [|done].
  cbn [mbind option_bind]. intros [= <-].
  pose proof (setupSteps_no_enable _ _ _ _ _ _ _ Hfold (Forall_nil_2 _))
    as Hsetups.
  assert (Hclone : Forall (fun e => calleeOf e ≠ Some riscv_ssr_enable
                                    ∧ calleeOf e ≠ Some riscv_ssr_disable) cl).
  { unfold cloneIfNeeded in Hcl. destruct Cond;
      try (injection Hcl as <- _; by repeat constructor).
    destruct (constValue ty v =? 0); [done|].
    injection Hcl as <- _. constructor. }
  rewrite !callsOf_app.
  rewrite (callsOf_none riscv_ssr_enable cl),
    (callsOf_none riscv_ssr_enable setups),
    (callsOf_none riscv_ssr_disable cl),
    (callsOf_none riscv_ssr_disable setups)
    by (eapply Forall_impl; [eassumption|]; by intros e [? ?]).
  done.
Qed.

Lemma setupLoop_balanced st ems0 ems (L : Loop) ems' :
  setupLoop flags AAA st ems L = Some ems' →
  (∃ a, ems = ems0 ++ a
        ∧ callsOf riscv_ssr_enable a = callsOf riscv_ssr_disable a) →
  ∃ a, ems' = ems0 ++ a
       ∧ callsOf riscv_ssr_enable a = callsOf riscv_ssr_disable a.
Proof.
  unfold setupLoop. destruct (conds st !! L) as [Cond|]; [|by intros [= <-]].
  destruct (getSingleExitBlock AAA L); [|done]. cbn [mbind option_bind].
  destruct (LoopPreheader (getLI AAA) L); [|done]. cbn [mbind option_bind].
  destruct (exps st !! L); [|done]. cbn [mbind option_bind].
  destruct (cloneAndSetup _ _ _ _ _ _) as [e|] eqn:Hclone; [|done].
  cbn [mbind option_bind]. intros [= <-] (a & -> & Hbal).
  exists (a ++ e). split; [by rewrite (assoc_L (++))|].
  rewrite !callsOf_app, Hbal. f_equal. by eapply cloneAndSetup_balanced.
Qed.

Lemma expandStep_balanced ems0 st (L : Loop) st' :
  expandStep flags AAA st L = Some st' →
  (∃ a, emitted st = ems0 ++ a
        ∧ callsOf riscv_ssr_enable a = callsOf riscv_ssr_disable a) →
  ∃ a, emitted st' = ems0 ++ a
       ∧ callsOf riscv_ssr_enable a = callsOf riscv_ssr_disable a.
Proof.
  unfold expandStep. destruct (possible st !! L) as [acc|]; [|done].
  cbn [mbind option_bind]. case_bool_decide; [by intros [= <-]|].
  destruct (expandInLoop flags AAA acc L) as [[[exp Cond] ems]|] eqn:Hexp;
    [|done].
  cbn [mbind option_bind]. intros [= <-] (a & Ha & Hbal). cbn.
  exists (a ++ ems). split; [by rewrite Ha, (assoc_L (++))|].
  pose proof (expandInLoop_no_calls _ _ _ _ _ Hexp) as Hno.
  rewrite !callsOf_app, Hbal.
  rewrite (callsOf_none riscv_ssr_enable ems),
    (callsOf_none riscv_ssr_disable ems)
    by (eapply Forall_impl; [exact Hno|]; by intros e ->).
  done.
Qed.

Lemma analyseTopLoop_balanced ems0 fuel inv st (T : Loop) st' :
  analyseTopLoop flags AAA fuel inv st T = Some st' →
  (∃ a, emitted st = ems0 ++ a
        ∧ callsOf riscv_ssr_enable a = callsOf riscv_ssr_disable a) →
  ∃ a, emitted st' = ems0 ++ a
       ∧ callsOf riscv_ssr_enable a = callsOf riscv_ssr_disable a.
Proof.
  unfold analyseTopLoop.
  destruct (dense_insert T emptyTree (trees st) !! T) as [tree|]; [|done].
  cbn [mbind option_bind].
  destruct (traverse _ _ _ _ _ _ _) as [[possible1 tree1]|]; [|done].
  cbn [mbind option_bind].
  destruct (findBest fuel tree1 _) as [best|]; [|done].
  cbn [mbind option_bind].
  destruct (foldM _ best _) as [st1|] eqn:Hfold; [|done].
  cbn [mbind option_bind]. intros [= <-] Hst. cbn.
  eapply (foldM_preserves
    (fun s => ∃ a, emitted s = ems0 ++ a
                   ∧ callsOf riscv_ssr_enable a = callsOf riscv_ssr_disable a));
    [| |exact Hfold]; [|done].
  intros b a b' _. apply expandStep_balanced.
Qed.

End Balance.

(** Whatever [run] adds to the function, it adds after what was there,
    and it adds as many calls of [riscv_ssr_enable] as of
    [riscv_ssr_disable]: every region it turns streaming is closed. *)
Theorem run_pairs_enable_disable
    flags `{StdSort} findLoopsWithSSR AAA (fuel : nat) (F F' : Function) pa :
  run flags findLoopsWithSSR AAA fuel F = Some (F', pa) →
  ∃ added,
    fnChanges F' = fnChanges F ++ added
    ∧ callsOf riscv_ssr_enable added = callsOf riscv_ssr_disable added.
Proof.
  unfold run.
  assert (Hnone : ∃ a, fnChanges F = fnChanges F ++ a
    ∧ callsOf riscv_ssr_enable a = callsOf riscv_ssr_disable a).
  { exists []. by rewrite app_nil_r. }
  destruct (negb (InferSSR flags)); [by intros [= <- <-]|].
  destruct (hasFnAttribute F SSRFnAttr); [by intros [= <- <-]|].
  destruct (foldM _ (TopLevelLoops (getLI AAA)) _) as [st|] eqn:Han; [|done].
  cbn [mbind option_bind].
  destruct (foldM (setupTopLoop flags AAA st) _ _) as [ems|] eqn:Hset; [|done].
  cbn [mbind option_bind].
  assert (Hst : ∃ a, emitted st = fnChanges F ++ a
    ∧ callsOf riscv_ssr_enable a = callsOf riscv_ssr_disable a).
  { eapply (foldM_preserves
      (fun s => ∃ a, emitted s = fnChanges F ++ a
                     ∧ callsOf riscv_ssr_enable a
                       = callsOf riscv_ssr_disable a));
      [| |exact Han]; [|done].
    intros b a b' _. apply analyseTopLoop_balanced. }
  assert (Hems : ∃ a, ems = fnChanges F ++ a
    ∧ callsOf riscv_ssr_enable a = callsOf riscv_ssr_disable a).
  { eapply (foldM_preserves
      (fun e => ∃ a, e = fnChanges F ++ a
                     ∧ callsOf riscv_ssr_enable a
                       = callsOf riscv_ssr_disable a));
      [| |exact Hset]; [|done].
    intros e T e' _. unfold setupTopLoop.
    destruct (bestLoops st !! T) as [best|]; [|done].
    cbn [mbind option_bind]. intros Hfold He.
    eapply (foldM_preserves
      (fun e => ∃ a, e = fnChanges F ++ a
                     ∧ callsOf riscv_ssr_enable a
                       = callsOf riscv_ssr_disable a));
      [| |exact Hfold]; [|done].
    intros e1 L e2 _. apply setupLoop_balanced. }
  destruct (negb (changed st)); by intros [= <- <-].
Qed.

Lemma run_pairs_enable_disable_witness :
  ∃ added,
    fnChanges streamedFunction = fnChanges emptyFunction ++ added
    ∧ callsOf riscv_ssr_enable added = callsOf riscv_ssr_disable added.
Proof.
  apply (run_pairs_enable_disable defaultFlags (H := mergeSort)
           noLoopsWithSSR (oneAccess false 10 (constantSCEV 0) runtimeCond)
           1 emptyFunction streamedFunction PreservedNone).
  vm_compute. reflexivity.
Defined.

(** ** Loops that the pass leaves alone *)

Section SkipInvalid.
Context (flags : Flags) `{StdSort} (AAA : AffineAccess).
Context (ssrInvalidLoops : gset Loop).

Lemma selectCandidates_nonempty_valid (L : Loop) known l b :
  selectCandidates flags AAA L known = Some (l, b) → l ≠ [] →
  known = false ∧ isValidLoop AAA L = true.
Proof.
  intros Hsel Hne. unfold selectCandidates in Hsel.
  destruct (known || negb (isValidLoop AAA L)) eqn:Hinv.
  - simpl in Hsel. injection Hsel as <- <-. exfalso. apply Hne.
    pose proof (std_sort_perm _ (comp AAA L) []) as Hp.
    apply Permutation_nil_r in Hp. by rewrite Hp.
  - by apply orb_false_iff in Hinv as [-> ->%negb_false_iff].
Qed.

Lemma visitLoop_candidatesSound (L : Loop) possible tree possible' tree' b :
  visitLoop flags AAA L possible tree (bool_decide (L ∈ ssrInvalidLoops))
  = Some (possible', tree', b) →
  candidatesSound AAA ssrInvalidLoops possible →
  candidatesSound AAA ssrInvalidLoops possible'.
Proof.
  unfold visitLoop.
  destruct (selectCandidates flags AAA L _) as [[cands known']|] eqn:Hsel;
    [|done].
  cbn [mbind option_bind].
  destruct (dense_insert L [] possible !! L) as [l|] eqn:Hl; [|done].
  cbn [mbind option_bind].
  destruct (getEstGain flags AAA (l ++ cands) L) as [gain|]; [|done].
  cbn [mbind option_bind].
  destruct (insertNode tree L _ _) as [tree1|]; [|done].
  cbn [mbind option_bind]. intros [= <- <- <-] Hsound K k.
  destruct (decide (L = K)) as [<-|Hne].
  - rewrite lookup_insert_eq. intros [= <-] Hk.
    apply dense_insert_lookup in Hl as [Hl|[_ ->]].
    + destruct l as [|a l].
      * destruct (selectCandidates_nonempty_valid L _ cands known' Hsel Hk)
          as [Hknown Hvalid].
        split; [|done]. by apply bool_decide_eq_false_1 in Hknown.
      * by apply (Hsound L (a :: l)).
    + destruct (selectCandidates_nonempty_valid L _ cands known' Hsel Hk)
        as [Hknown Hvalid].
      split; [|done]. by apply bool_decide_eq_false_1 in Hknown.
  - rewrite lookup_insert_ne by done. intros Hk. apply Hsound.
    unfold dense_insert in Hk. destruct (possible !! L); [done|].
    by rewrite lookup_insert_ne in Hk.
Qed.

Lemma traverse_candidatesSound fuel : ∀ worklist possible tree possible' tree',
  traverse flags AAA fuel ssrInvalidLoops worklist possible tree
  = Some (possible', tree') →
  candidatesSound AAA ssrInvalidLoops possible →
  candidatesSound AAA ssrInvalidLoops possible'.
Proof.
  induction fuel as [|fuel IH]; intros [|L wl] possible tree possible' tree';
    cbn [traverse]; try done; try (by intros [= <- <-]).
  destruct (visitLoop flags AAA L possible tree _) as [[[p1 t1] b]|] eqn:Hvisit;
    [|done].
  cbn [mbind option_bind]. intros Htrav Hsound.
  eapply IH; [exact Htrav|]. by eapply visitLoop_candidatesSound.
Qed.

Lemma expandStep_expansionsSound ems0 st (L : Loop) st' :
  expandStep flags AAA st L = Some st' →
  candidatesSound AAA ssrInvalidLoops (possible st)
  ∧ expansionsSound AAA ssrInvalidLoops ems0 (emitted st) →
  candidatesSound AAA ssrInvalidLoops (possible st')
  ∧ expansionsSound AAA ssrInvalidLoops ems0 (emitted st').
Proof.
  unfold expandStep. destruct (possible st !! L) as [acc|] eqn:Hacc; [|done].
  cbn [mbind option_bind]. case_bool_decide as Hnil; [by intros [= <-]|].
  destruct (expandInLoop flags AAA acc L) as [[[exp Cond] ems]|] eqn:Hexp;
    [|done].
  cbn [mbind option_bind]. intros [= <-] [Hcand Hems]. split; [done|]. cbn.
  destruct (Hcand L acc Hacc Hnil) as [Hinv Hvalid].
  pose proof Hexp as Hexp'. unfold expandInLoop in Hexp'.
  rewrite bool_decide_eq_false_2 in Hexp' by done.
  destruct (NUM_SSR <? Z.of_nat (length acc)) eqn:Hlen; [done|].
  destruct (LoopPreheader (getLI AAA) L) as [Ph|] eqn:HPh; [|done].
  cbn [mbind option_bind] in Hexp'.
  destruct (expandAllAt AAA acc L _ _) as [exp0 [Cond0|]]; [|done].
  cbn [mbind option_bind] in Hexp'.
  assert (Hshape : ∃ rest, ems = EmExpandAllAt acc L (Terminator Ph) :: rest
                           ∧ Forall (fun e => isExpansion e = false) rest).
  { destruct (negb (SSRNoTCDMCheck flags)).
    - match type of Hexp' with context [fold_left ?f exp0 ?i] =>
        pose proof (tcdm_fold_Forall (fun e => isExpansion e = false)
                      (Terminator Ph) exp0 (fun _ => eq_refl) [] Cond0
                      (Forall_nil_2 _)) as Hall;
        destruct (fold_left f exp0 i) as [ems1 Cond1] end.
      case_bool_decide; [|done]. injection Hexp' as <- <- <-. by eauto.
    - case_bool_decide; [|done]. injection Hexp' as <- <- <-.
      eexists. split; [done|constructor]. }
  destruct Hshape as (rest & -> & Hrest).
  intros accs K P [HK|HK]%elem_of_app; [by apply Hems|].
  apply elem_of_cons in HK as [[= -> -> ->]|HK].
  - right. unfold NUM_SSR in Hlen. split_and!; try done; [lia|by eauto].
  - rewrite Forall_forall in Hrest. by specialize (Hrest _ HK).
Qed.

Lemma analyseTopLoop_expansionsSound ems0 fuel st (T : Loop) st' :
  analyseTopLoop flags AAA fuel ssrInvalidLoops st T = Some st' →
  candidatesSound AAA ssrInvalidLoops (possible st)
  ∧ expansionsSound AAA ssrInvalidLoops ems0 (emitted st) →
  candidatesSound AAA ssrInvalidLoops (possible st')
  ∧ expansionsSound AAA ssrInvalidLoops ems0 (emitted st').
Proof.
  unfold analyseTopLoop.
  destruct (dense_insert T emptyTree (trees st) !! T) as [tree|]; [|done].
  cbn [mbind option_bind].
  destruct (traverse _ _ _ _ _ _ _) as [[possible1 tree1]|] eqn:Htrav; [|done].
  cbn [mbind option_bind].
  destruct (findBest fuel tree1 _) as [best|]; [|done].
  cbn [mbind option_bind].
  destruct (foldM _ best _) as [st1|] eqn:Hfold; [|done].
  cbn [mbind option_bind]. intros [= <-] [Hcand Hems]. cbn.
  eapply (foldM_preserves
    (fun s => candidatesSound AAA ssrInvalidLoops (possible s)
              ∧ expansionsSound AAA ssrInvalidLoops ems0 (emitted s)));
    [| |exact Hfold].
  - intros s L s' _. apply expandStep_expansionsSound.
  - split; cbn; [|done]. by eapply traverse_candidatesSound.
Qed.

Lemma GenerateSSRSetup_no_expansion E dmid Point ems :
  GenerateSSRSetup flags AAA E dmid Point = Some ems →
  Forall (fun e => isExpansion e = false) ems.
Proof.
  unfold GenerateSSRSetup.
  destruct (if SSRVerbose flags then printInfo AAA E else Some ()); [|done].
  cbn [mbind option_bind].
  destruct (getDimension E <=? SSR_MAX_DIM); [|done].
  destruct (foldM _ (seq 0 _) []) as [bs|] eqn:Hbs; [|done].
  cbn [mbind option_bind].
  assert (Hbs' : Forall (fun e => isExpansion e = false) bs).
  { eapply (foldM_preserves (Forall (fun e => isExpansion e = false)));
      [| |exact Hbs]; [|constructor].
    intros b i b' _ Hstep Hb. cbv beta in Hstep.
    destruct (Steps E !! i) as [Stride|]; cbn [mbind option_bind] in Hstep;
      [|done].
    destruct i as [|j].
    - cbn [mbind option_bind] in Hstep.
      destruct (Reps E !! 0%nat) as [Bound|];
        cbn [mbind option_bind] in Hstep; [|done].
      destruct (boundStrideFunctions !! 0%nat) as [f|];
        cbn [mbind option_bind] in Hstep; [|done].
      injection Hstep as <-.
      apply Forall_app. split; [done|]. by repeat constructor.
    - destruct (PrefixSumRanges E !! j) as [P|];
        cbn [mbind option_bind] in Hstep; [|done].
      destruct (Reps E !! S j) as [Bound|];
        cbn [mbind option_bind] in Hstep; [|done].
      destruct (boundStrideFunctions !! S j) as [f|];
        cbn [mbind option_bind] in Hstep; [|done].
      injection Hstep as <-.
      apply Forall_app. split; [done|]. by repeat constructor. }
  destruct (isWrite AAA (Access E)).
  - destruct (foldM _ (getAccesses AAA (Access E)) ([], 0))
      as [[body n]|] eqn:Hbody; [|done].
    cbn [mbind option_bind]. intros [= <-].
    apply Forall_app. split; [done|]. apply Forall_app.
    split; [|by repeat constructor].
    change body with ((body, n).1).
    eapply (foldM_preserves
      (fun s : list Emitted * Z => Forall (fun e => isExpansion e = false) s.1));
      [| |exact Hbody]; [|constructor].
    intros [b k] I [b' k'] _ Hstep Hb. cbv beta iota in Hstep.
    destruct I as [|id v]; [done|].
    injection Hstep as <- _. cbn. apply Forall_app. split; [done|].
    by repeat constructor.
  - destruct (foldM _ (getAccesses AAA (Access E)) ([], 0))
      as [[body n]|] eqn:Hbody; [|done].
    cbn [mbind option_bind]. intros [= <-].
    apply Forall_app. split; [done|]. apply Forall_app.
    split; [|by repeat constructor].
    change body with ((body, n).1).
    eapply (foldM_preserves
      (fun s : list Emitted * Z => Forall (fun e => isExpansion e = false) s.1));
      [| |exact Hbody]; [|constructor].
    intros [b k] I [b' k'] _ Hstep Hb. cbv beta iota in Hstep.
    injection Hstep as <- _. cbn. apply Forall_app. split; [done|].
    by repeat constructor.
Qed.

Lemma cloneAndSetup_no_expansion PhT ExP Cond exp ems :
  cloneAndSetup flags AAA PhT ExP Cond exp = Some ems →
  Forall (fun e => isExpansion e = false) ems.
Proof.
  unfold cloneAndSetup. destruct (NUM_SSR <? _); [done|].
  case_bool_decide; [by intros [= <-]|].
  destruct (cloneIfNeeded PhT ExP Cond) as [[cl ExP']|] eqn:Hcl;
    [|by intros [= <-]].
  destruct (foldM _ exp ([], 0)) as [[setups d]|] eqn:Hfold; [|done].
  cbn [mbind option_bind]. intros [= <-].
  apply Forall_app. split.
  { unfold cloneIfNeeded in Hcl. destruct Cond;
      try (injection Hcl as <- _; by repeat constructor).
    destruct (constValue ty v =? 0); [done|].
    injection Hcl as <- _. constructor. }
  apply Forall_app. split; [|by repeat constructor].
  change setups with ((setups, d).1).
  eapply (foldM_preserves
    (fun s : list Emitted * Z => Forall (fun e => isExpansion e = false) s.1));
    [| |exact Hfold]; [|constructor].
  intros [b k] E [b' k'] _ Hstep Hb. unfold setupStep in Hstep.
  destruct (GenerateSSRSetup flags AAA E k PhT) as [setup|] eqn:Hsetup; [|done].
  cbn [mbind option_bind] in Hstep. injection Hstep as <- _. cbn.
  apply Forall_app. split; [done|]. apply Forall_app.
  split; [by eapply GenerateSSRSetup_no_expansion|].
  unfold generateSSRBarrier. destruct (SSRBarrier flags); by repeat constructor.
Qed.

Lemma setupLoop_expansionsSound ems0 st ems (L : Loop) ems' :
  setupLoop flags AAA st ems L = Some ems' →
  expansionsSound AAA ssrInvalidLoops ems0 ems →
  expansionsSound AAA ssrInvalidLoops ems0 ems'.
Proof.
  unfold setupLoop. destruct (conds st !! L) as [Cond|]; [|by intros [= <-]].
  destruct (getSingleExitBlock AAA L); [|done]. cbn [mbind option_bind].
  destruct (LoopPreheader (getLI AAA) L); [|done]. cbn [mbind option_bind].
  destruct (exps st !! L); [|done]. cbn [mbind option_bind].
  destruct (cloneAndSetup _ _ _ _ _ _) as [e|] eqn:Hclone; [|done].
  cbn [mbind option_bind]. intros [= <-] Hems accs K P [HK|HK]%elem_of_app;
    [by apply Hems|].
  pose proof (cloneAndSetup_no_expansion _ _ _ _ _ Hclone) as Hno.
  rewrite Forall_forall in Hno. by specialize (Hno _ HK).
Qed.

End SkipInvalid.

(** The expansions that a run adds. *)
Lemma run_expansionsSound
    flags `{StdSort} findLoopsWithSSR AAA (fuel : nat) (F F' : Function) pa :
  run flags findLoopsWithSSR AAA fuel F = Some (F', pa) →
  expansionsSound AAA (findLoopsWithSSR F (getLI AAA)) (fnChanges F)
    (fnChanges F').
Proof.
  unfold run.
  destruct (negb (InferSSR flags));
    [intros [= <- <-] accs L P HL; by left|].
  destruct (hasFnAttribute F SSRFnAttr);
    [intros [= <- <-] accs L P HL; by left|].
  destruct (foldM _ (TopLevelLoops (getLI AAA)) _) as [st|] eqn:Han; [|done].
  cbn [mbind option_bind].
  destruct (foldM (setupTopLoop flags AAA st) _ _) as [ems|] eqn:Hset; [|done].
  cbn [mbind option_bind].
  set (inv := findLoopsWithSSR F (getLI AAA)) in *.
  assert (Hst : candidatesSound AAA inv (possible st)
                ∧ expansionsSound AAA inv (fnChanges F) (emitted st)).
  { eapply (foldM_preserves
      (fun s => candidatesSound AAA inv (possible s)
                ∧ expansionsSound AAA inv (fnChanges F) (emitted s)));
      [| |exact Han].
    - intros s T s' _. apply analyseTopLoop_expansionsSound.
    - split; cbn.
      + intros L l. by rewrite lookup_empty.
      + intros accs L P HL. by left. }
  assert (Hems : expansionsSound AAA inv (fnChanges F) ems).
  { eapply (foldM_preserves (expansionsSound AAA inv (fnChanges F)));
      [| |exact Hset]; [|by destruct Hst].
    intros e T e' _. unfold setupTopLoop.
    destruct (bestLoops st !! T) as [best|]; [|done].
    cbn [mbind option_bind]. intros Hfold He.
    eapply (foldM_preserves (expansionsSound AAA inv (fnChanges F)));
      [| |exact Hfold]; [|done].
    intros e1 L e2 _. apply setupLoop_expansionsSound. }
  destruct (negb (changed st)); intros [= <- <-]; exact Hems.
Qed.

(** The pass leaves alone the loops that [findLoopsWithSSR] reports and
    the loops without preheader or single exit block: every expansion
    that [run] adds to the function is an expansion of one to three
    accesses before the terminator of the preheader of a loop that is not
    reported and has a preheader and a single exit block. *)
Theorem run_expands_valid_loops_only
    flags `{StdSort} findLoopsWithSSR AAA (fuel : nat) (F F' : Function) pa :
  run flags findLoopsWithSSR AAA fuel F = Some (F', pa) →
  ∀ accs (L : Loop) P,
    EmExpandAllAt accs L P ∈ fnChanges F' →
    EmExpandAllAt accs L P ∈ fnChanges F
    ∨ ((L ∉ findLoopsWithSSR F (getLI AAA))
       ∧ isValidLoop AAA L = true
       ∧ accs ≠ [] ∧ (length accs <= 3)%nat
       ∧ ∃ Ph, LoopPreheader (getLI AAA) L = Some Ph ∧ P = Terminator Ph).
Proof.
  intros Hrun accs L P HL.
  by apply (run_expansionsSound flags findLoopsWithSSR AAA fuel F F' pa Hrun).
Qed.

Lemma run_expands_valid_loops_only_witness :
  ∃ accs P,
    EmExpandAllAt accs 0%nat P ∈ fnChanges streamedFunction
    ∧ (EmExpandAllAt accs 0%nat P ∈ fnChanges emptyFunction
       ∨ ((0%nat ∉ noLoopsWithSSR emptyFunction
                     (getLI (oneAccess false 10 (constantSCEV 0) runtimeCond)))
          ∧ isValidLoop (oneAccess false 10 (constantSCEV 0) runtimeCond)
              0%nat = true
          ∧ accs ≠ [] ∧ (length accs <= 3)%nat
          ∧ ∃ Ph, LoopPreheader
                    (getLI (oneAccess false 10 (constantSCEV 0) runtimeCond))
                    0%nat = Some Ph
                  ∧ P = Terminator Ph)).
Proof.
  exists [0%nat], (Terminator 10%nat). split; [left|].
  apply (run_expands_valid_loops_only defaultFlags (H := mergeSort)
           noLoopsWithSSR (oneAccess false 10 (constantSCEV 0) runtimeCond)
           1 emptyFunction streamedFunction PreservedNone).
  - vm_compute. reflexivity.
  - left.
Defined.

(** [findLoopsWithSSR] returns when the work list is given enough fuel:
    each block is visited at most once as unmarked and once as marked.
    Every loop that contains a reachable block with a call of a function
    that has the SSR attribute, of an SSR intrinsic or of inline assembly
    is then among the loops it returns. *)
Theorem findLoopsWithSSR_marks_ssr_loops
    LI F (blocks : list BasicBlock) (D depth fuel : nat) :
  bodyWithin LI F blocks D depth →
  (1 + 2 * (D + 2) * length blocks <= fuel)%nat →
  ∃ invalid,
    findLoopsWithSSR fuel depth F LI = Some invalid
    ∧ ∀ B i K, reachable F B → i ∈ instructionsOf F B →
               touchesSSR i = true → loopContains LI F K B → K ∈ invalid.
Proof.
  intros Hbody Hfuel.
  destruct (findLoopsWithSSR_returns LI F depth blocks D fuel Hbody Hfuel)
    as [res Hres].
  exists res. split; [done|].
  by destruct (findLoopsWithSSR_covers LI F depth fuel res Hres).
Qed.

Lemma findLoopsWithSSR_marks_ssr_loops_witness :
  ∃ invalid,
    findLoopsWithSSR 13 1 streamingBody oneLoop = Some invalid
    ∧ 0%nat ∈ invalid.
Proof.
  destruct (findLoopsWithSSR_marks_ssr_loops oneLoop streamingBody
              [0%nat; 1%nat] 1 1 13) as (invalid & Hres & Hall).
  - split; [left|].
    apply Forall_cons_2; [|apply Forall_cons_2; [|apply Forall_nil_2]];
      (split_and!;
         [intros x ->%list_elem_of_singleton; right; left
         |simpl; lia|by eexists]).
  - simpl. lia.
  - exists invalid. split; [done|].
    apply (Hall 1%nat
             (CallBase false (Some (SSRIntrinsicID riscv_ssr_push)) false)).
    + apply rtc_once. left.
    + left.
    + reflexivity.
    + exists 0%nat. split; [reflexivity|done].
Defined.

(** Every loop that [findLoopsWithSSR] returns contains a block that is
    reachable from a reachable block with a call of a function that has
    the SSR attribute, of an SSR intrinsic or of inline assembly.  For a
    function in which no reachable block has such a call it returns no
    loop. *)
Theorem findLoopsWithSSR_only_ssr_loops
    LI F (blocks : list BasicBlock) (D depth fuel : nat) :
  bodyWithin LI F blocks D depth →
  (1 + 2 * (D + 2) * length blocks <= fuel)%nat →
  ∃ invalid,
    findLoopsWithSSR fuel depth F LI = Some invalid
    ∧ (∀ K, K ∈ invalid → ∃ B, afterSSR F B ∧ loopContains LI F K B)
    ∧ ((∀ B i, reachable F B → i ∈ instructionsOf F B →
               touchesSSR i = false) →
       invalid = ∅).
Proof.
  intros Hbody Hfuel.
  destruct (findLoopsWithSSR_returns LI F depth blocks D fuel Hbody Hfuel)
    as [res Hres].
  exists res. split; [done|].
  assert (Hinit : marksOnlySSR LI F
    {| worklist := [(Some (getEntryBlock F), false)];
       visUnmarked := ∅; visMarked := ∅; invalid := ∅ |}).
  { split; cbn.
    - intros B m [= -> ->]%list_elem_of_singleton.
      split; [apply rtc_refl|done].
    - by intros K ?%elem_of_empty. }
  destruct (worklistLoop_invariant LI F depth (marksOnlySSR LI F)
              (marksOnlySSR_step LI F depth) fuel _ res Hinit Hres)
    as ([wl vu vm inv] & (_ & Hsound) & _ & Hinv).
  cbn in *. subst inv. split; [done|].
  intros Hclean. apply elem_of_equiv_empty_L. intros K HK.
  destruct (Hsound K HK) as (B & (B0 & i & Hr & Hi & Ht & _) & _).
  by rewrite (Hclean B0 i Hr Hi) in Ht.
Qed.

Lemma findLoopsWithSSR_only_ssr_loops_witness :
  ∃ invalid,
    findLoopsWithSSR 13 1 streamingBody oneLoop = Some invalid
    ∧ ∀ K, K ∈ invalid →
           ∃ B, afterSSR streamingBody B
                ∧ loopContains oneLoop streamingBody K B.
Proof.
  destruct (findLoopsWithSSR_only_ssr_loops oneLoop streamingBody
              [0%nat; 1%nat] 1 1 13) as (invalid & Hres & Hsound & _).
  - split; [left|].
    apply Forall_cons_2; [|apply Forall_cons_2; [|apply Forall_nil_2]];
      (split_and!;
         [intros x ->%list_elem_of_singleton; right; left
         |simpl; lia|by eexists]).
  - simpl. lia.
  - by exists invalid.
Defined.

(** A streaming region is found: when [findLoopsWithSSR] returns (as it
    does with enough fuel), every loop that contains a reachable block
    with a call of an SSR intrinsic or of inline assembly, or a block
    reached from such a block through blocks without a call of
    [riscv_ssr_disable], is among the loops returned. *)
Theorem findLoopsWithSSR_marks_stream_region
    LI F (blocks : list BasicBlock) (D depth fuel : nat) :
  bodyWithin LI F blocks D depth →
  (1 + 2 * (D + 2) * length blocks <= fuel)%nat →
  ∃ invalid,
    findLoopsWithSSR fuel depth F LI = Some invalid
    ∧ ∀ B K, inStream F B → loopContains LI F K B → K ∈ invalid.
Proof.
  intros Hbody Hfuel.
  destruct (findLoopsWithSSR_returns LI F depth blocks D fuel Hbody Hfuel)
    as [res Hres].
  exists res. split; [done|].
  by destruct (findLoopsWithSSR_covers LI F depth fuel res Hres).
Qed.

Lemma findLoopsWithSSR_marks_stream_region_witness :
  ∃ invalid,
    findLoopsWithSSR 13 1 streamingBody oneLoop = Some invalid
    ∧ ∀ B K, inStream streamingBody B →
             loopContains oneLoop streamingBody K B → K ∈ invalid.
Proof.
  apply (findLoopsWithSSR_marks_stream_region oneLoop streamingBody
           [0%nat; 1%nat] 1 1 13).
  - split; [left|].
    apply Forall_cons_2; [|apply Forall_cons_2; [|apply Forall_nil_2]];
      (split_and!;
         [intros x ->%list_elem_of_singleton; right; left
         |simpl; lia|by eexists]).
  - simpl. lia.
Defined.

(** ** The pass and the loops that already use SSR *)

(** With the loops of [findLoopsWithSSR] as invalid loops, the pass never
    expands accesses in a loop that already uses SSR: a loop in which
    [run] adds an expansion contains no reachable block with a call of a
    function that has the SSR attribute, of an SSR intrinsic or of inline
    assembly, and no block of a streaming region. *)
Theorem run_never_expands_ssr_loops
    flags `{StdSort} AAA (body : FunctionBody) (blocks : list BasicBlock)
    (D depth wfuel fuel : nat) (F F' : Function) pa :
  bodyWithin (getLI AAA) body blocks D depth →
  (1 + 2 * (D + 2) * length blocks <= wfuel)%nat →
  run flags (fun _ LI => default ∅ (findLoopsWithSSR wfuel depth body LI))
      AAA fuel F = Some (F', pa) →
  ∀ accs (L : Loop) P,
    EmExpandAllAt accs L P ∈ fnChanges F' →
    EmExpandAllAt accs L P ∉ fnChanges F →
    ∀ B, loopContains (getLI AAA) body L B →
         (reachable body B →
          ∀ i, i ∈ instructionsOf body B → touchesSSR i = false)
         ∧ ¬ inStream body B.
Proof.
  intros Hbody Hwfuel Hrun accs L P HL Hnew B HB.
  destruct (findLoopsWithSSR_returns (getLI AAA) body depth blocks D wfuel
              Hbody Hwfuel) as [res Hres].
  destruct (findLoopsWithSSR_covers (getLI AAA) body depth wfuel res Hres)
    as [Htouch Hstream].
  destruct (run_expansionsSound flags _ AAA fuel F F' pa Hrun accs L P HL)
    as [?|(Hinv & _)]; [done|].
  cbn beta in Hinv. rewrite Hres in Hinv. cbn [default] in Hinv.
  split.
  - intros Hreach i Hi. destruct (touchesSSR i) eqn:Ht; [|done].
    exfalso. apply Hinv. by eapply Htouch.
  - intros Hin. apply Hinv. by eapply Hstream.
Qed.

Lemma run_never_expands_ssr_loops_witness :
  run (H := mergeSort) defaultFlags
    (fun _ LI => default ∅ (findLoopsWithSSR 13 1 streamingBody LI))
    (oneAccess false 10 (constantSCEV 0) runtimeCond) 1 emptyFunction
  = Some (emptyFunction, PreservedAll)
  ∧ ∀ accs (L : Loop) P,
      EmExpandAllAt accs L P ∈ fnChanges emptyFunction →
      EmExpandAllAt accs L P ∉ fnChanges emptyFunction →
      ∀ B, loopContains oneLoop streamingBody L B →
           (reachable streamingBody B →
            ∀ i, i ∈ instructionsOf streamingBody B → touchesSSR i = false)
           ∧ ¬ inStream streamingBody B.
Proof.
  split; [vm_compute; reflexivity|].
  apply (run_never_expands_ssr_loops defaultFlags (H := mergeSort)
           (oneAccess false 10 (constantSCEV 0) runtimeCond) streamingBody
           [0%nat; 1%nat] 1 1 13 1 emptyFunction emptyFunction PreservedAll).
  - split; [left|].
    apply Forall_cons_2; [|apply Forall_cons_2; [|apply Forall_nil_2]];
      (split_and!;
         [intros x ->%list_elem_of_singleton; right; left
         |simpl; lia|by eexists]).
  - simpl. lia.
  - vm_compute. reflexivity.
Defined.

(** ** The data movers that the pass addresses *)

Section DataMovers.
Context (flags : Flags) `{StdSort} (AAA : AffineAccess).

Lemma GenerateSSRSetup_movers E (k : Z) Point ems :
  0 <= k < NUM_SSR →
  GenerateSSRSetup flags AAA E k Point = Some ems →
  Forall usesDataMovers ems.
Proof.
  intros Hk Hsetup.
  destruct (GenerateSSRSetup_shape flags AAA E k Point ems Hsetup)
    as (_ & _ & Hcalls & Hargs & _).
  rewrite Forall_forall in Hargs. apply Forall_forall. intros e He.
  destruct e as [p f args| | | | | |]; try done.
  specialize (Hargs _ He f eq_refl). cbn in Hargs.
  assert (Hin : f ∈ omap calleeOf ems).
  { apply list_elem_of_omap. by exists (EmCall p f args). }
  rewrite Hcalls in Hin.
  assert (Hf : f ∈ [riscv_ssr_setup_bound_stride_1d;
                    riscv_ssr_setup_bound_stride_2d;
                    riscv_ssr_setup_bound_stride_3d;
                    riscv_ssr_setup_bound_stride_4d;
                    riscv_ssr_push; riscv_ssr_pop;
                    riscv_ssr_setup_repetition;
                    riscv_ssr_write_imm; riscv_ssr_read_imm]).
  { apply elem_of_app in Hin as [Hin|Hin].
    { apply elem_of_take in Hin as (i & Hi & _).
      apply list_elem_of_lookup_2 in Hi. unfold boundStrideFunctions in Hi.
      repeat (apply elem_of_cons in Hi as [->|Hi];
              [repeat (first [by left|right])|]).
      by apply elem_of_nil in Hi. }
    apply elem_of_app in Hin as [Hin|Hin].
    { apply elem_of_replicate_inv in Hin as ->.
      destruct (isWrite AAA (Access E)); repeat (first [by left|right]). }
    apply elem_of_cons in Hin as [->|Hin]; [repeat (first [by left|right])|].
    apply list_elem_of_singleton in Hin as ->.
    destruct (isWrite AAA (Access E)); repeat (first [by left|right]). }
  repeat (apply elem_of_cons in Hf as [->|Hf]; [cbn; by eauto|]).
  by apply elem_of_nil in Hf.
Qed.

Lemma cloneAndSetup_movers PhT ExP Cond exp ems :
  cloneAndSetup flags AAA PhT ExP Cond exp = Some ems →
  Forall usesDataMovers ems.
Proof.
  unfold cloneAndSetup, NUM_SSR.
  destruct (3 <? Z.of_nat (length exp)) eqn:Hlen; [done|].
  case_bool_decide; [by intros [= <-]|].
  destruct (cloneIfNeeded PhT ExP Cond) as [[cl ExP']|] eqn:Hcl;
    [|by intros [= <-]].
  destruct (foldM _ exp ([], 0)) as [[setups d]|] eqn:Hfold; [|done].
  cbn [mbind option_bind]. intros [= <-].
  apply Forall_app. split.
  { unfold cloneIfNeeded in Hcl. destruct Cond;
      try (injection Hcl as <- _; by repeat constructor).
    destruct (constValue ty v =? 0); [done|].
    injection Hcl as <- _. constructor. }
  apply Forall_app. split; [|by repeat constructor].
  destruct (setupSteps_parts flags AAA PhT ExP' exp 0 [] setups d
              ltac:(simpl; lia) Hfold) as (parts & -> & Hlp & Hparts).
  cbn [app]. apply Forall_concat, Forall_forall. intros part Hpart.
  apply list_elem_of_lookup_1 in Hpart as [k Hk].
  assert (Hklt : (k < length exp)%nat)
    by (rewrite <- Hlp; by eapply lookup_lt_Some).
  destruct (lookup_lt_is_Some_2 exp k Hklt) as [E HE].
  destruct (Hparts k E part HE Hk) as (setup & Hsetup & ->).
  apply Forall_app. split.
  - eapply GenerateSSRSetup_movers; [|exact Hsetup]. unfold NUM_SSR. lia.
  - unfold generateSSRBarrier. destruct (SSRBarrier flags); [|constructor].
    repeat constructor. cbn. eexists. split; [done|]. unfold NUM_SSR. lia.
Qed.

Lemma expandStep_movers ems0 st (L : Loop) st' :
  expandStep flags AAA st L = Some st' →
  (∃ a, emitted st = ems0 ++ a ∧ Forall usesDataMovers a) →
  ∃ a, emitted st' = ems0 ++ a ∧ Forall usesDataMovers a.
Proof.
  unfold expandStep. destruct (possible st !! L) as [acc|]; [|done].
  cbn [mbind option_bind]. case_bool_decide; [by intros [= <-]|].
  destruct (expandInLoop flags AAA acc L) as [[[exp Cond] ems]|] eqn:Hexp;
    [|done].
  cbn [mbind option_bind]. intros [= <-] (a & Ha & Hall). cbn.
  exists (a ++ ems). split; [by rewrite Ha, (assoc_L (++))|].
  apply Forall_app. split; [done|].
  eapply Forall_impl; [exact (expandInLoop_no_calls _ _ _ _ _ _ _ Hexp)|].
  intros e He. by destruct e.
Qed.

Lemma analyseTopLoop_movers ems0 fuel inv st (T : Loop) st' :
  analyseTopLoop flags AAA fuel inv st T = Some st' →
  (∃ a, emitted st = ems0 ++ a ∧ Forall usesDataMovers a) →
  ∃ a, emitted st' = ems0 ++ a ∧ Forall usesDataMovers a.
Proof.
  unfold analyseTopLoop.
  destruct (dense_insert T emptyTree (trees st) !! T) as [tree|]; [|done].
  cbn [mbind option_bind].
  destruct (traverse _ _ _ _ _ _ _) as [[possible1 tree1]|]; [|done].
  cbn [mbind option_bind].
  destruct (findBest fuel tree1 _) as [best|]; [|done].
  cbn [mbind option_bind].
  destruct (foldM _ best _) as [st1|] eqn:Hfold; [|done].
  cbn [mbind option_bind]. intros [= <-] Hst. cbn.
  eapply (foldM_preserves
    (fun s => ∃ a, emitted s = ems0 ++ a ∧ Forall usesDataMovers a));
    [| |exact Hfold]; [|done].
  intros b a b' _. apply expandStep_movers.
Qed.

Lemma setupLoop_movers st ems0 ems (L : Loop) ems' :
  setupLoop flags AAA st ems L = Some ems' →
  (∃ a, ems = ems0 ++ a ∧ Forall usesDataMovers a) →
  ∃ a, ems' = ems0 ++ a ∧ Forall usesDataMovers a.
Proof.
  unfold setupLoop. destruct (conds st !! L) as [Cond|]; [|by intros [= <-]].
  destruct (getSingleExitBlock AAA L); [|done]. cbn [mbind option_bind].
  destruct (LoopPreheader (getLI AAA) L); [|done]. cbn [mbind option_bind].
  destruct (exps st !! L); [|done]. cbn [mbind option_bind].
  destruct (cloneAndSetup _ _ _ _ _ _) as [e|] eqn:Hclone; [|done].
  cbn [mbind option_bind]. intros [= <-] (a & -> & Hall).
  exists (a ++ e). split; [by rewrite (assoc_L (++))|].
  apply Forall_app. split; [done|]. by eapply cloneAndSetup_movers.
Qed.

End DataMovers.

(** The calls that [run] adds address the three data movers of the
    hardware only: every added call of a setup, push, pop, read or write
    intrinsic has one of the constants 0, 1, 2 of type i32 as its first
    argument, and every added barrier one of 1, 2, 3. *)
Theorem run_uses_three_data_movers
    flags `{StdSort} findLoopsWithSSR AAA (fuel : nat) (F F' : Function) pa :
  run flags findLoopsWithSSR AAA fuel F = Some (F', pa) →
  ∃ added,
    fnChanges F' = fnChanges F ++ added ∧ Forall usesDataMovers added.
Proof.
  unfold run.
  assert (Hnone : ∃ a, fnChanges F = fnChanges F ++ a
                       ∧ Forall usesDataMovers a).
  { exists []. by rewrite app_nil_r. }
  destruct (negb (InferSSR flags)); [by intros [= <- <-]|].
  destruct (hasFnAttribute F SSRFnAttr); [by intros [= <- <-]|].
  destruct (foldM _ (TopLevelLoops (getLI AAA)) _) as [st|] eqn:Han; [|done].
  cbn [mbind option_bind].
  destruct (foldM (setupTopLoop flags AAA st) _ _) as [ems|] eqn:Hset; [|done].
  cbn [mbind option_bind].
  assert (Hst : ∃ a, emitted st = fnChanges F ++ a
                     ∧ Forall usesDataMovers a).
  { eapply (foldM_preserves
      (fun s => ∃ a, emitted s = fnChanges F ++ a
                     ∧ Forall usesDataMovers a));
      [| |exact Han]; [|done].
    intros b a b' _. apply analyseTopLoop_movers. }
  assert (Hems : ∃ a, ems = fnChanges F ++ a ∧ Forall usesDataMovers a).
  { eapply (foldM_preserves
      (fun e => ∃ a, e = fnChanges F ++ a ∧ Forall usesDataMovers a));
      [| |exact Hset]; [|done].
    intros e T e' _. unfold setupTopLoop.
    destruct (bestLoops st !! T) as [best|]; [|done].
    cbn [mbind option_bind]. intros Hfold He.
    eapply (foldM_preserves
      (fun e => ∃ a, e = fnChanges F ++ a ∧ Forall usesDataMovers a));
      [| |exact Hfold]; [|done].
    intros e1 L e2 _. apply setupLoop_movers. }
  destruct (negb (changed st)); by intros [= <- <-].
Qed.

Lemma run_uses_three_data_movers_witness :
  ∃ added,
    fnChanges streamedFunction = fnChanges emptyFunction ++ added
    ∧ Forall usesDataMovers added.
Proof.
  apply (run_uses_three_data_movers defaultFlags (H := mergeSort)
           noLoopsWithSSR (oneAccess false 10 (constantSCEV 0) runtimeCond)
           1 emptyFunction streamedFunction PreservedNone).
  vm_compute. reflexivity.
Defined.
